(** * MaCow: masked convolutional generative flow

    A shallow embedding of the flow composition engine of the macow
    repository (flows/flow.py, flows/nice.py, flows/macow.py,
    flows/dequant.py, models/flow_gen.py, data/image.py) and the properties
    of its specification.

    Conventions of the embedding.
    - Floating-point values are idealised as real numbers ([R]); a tensor is
      its size together with its row-major storage, as a contiguous torch
      tensor is.
    - A Python call either returns or raises: the [result] type.  Module
      parameters and the random generator live in a store [St] that every
      call threads: the monad [M].
    - Collaborators whose source is not part of the core (the elementary
      flows, the squeeze/split helpers, the coupling network's convolutions)
      are fields of a record of operations, constrained where a theorem
      needs it by an explicit contract. *)

From Stdlib Require Import String.
From Stdlib Require Import List ZArith Lia Bool Reals Lra.
From Stdlib Require Import DecimalString DecimalNat.
Import ListNotations.

Set Implicit Arguments.

Local Open Scope string_scope.
Local Open Scope list_scope.
Local Open Scope R_scope.

(* ================================================================= *)
(** ** Exceptions and the call monad *)

Inductive PyError : Type :=
| RuntimeError (msg : string)
| AssertionError
| IndexError
| TypeError
| ValueError
| ZeroDivisionError
| NotImplementedError
| AttributeError.

Inductive result (A : Type) : Type :=
| OK (a : A)
| Err (e : PyError).

Arguments OK {A} a.
Arguments Err {A} e.

Definition rbind {A B} (r : result A) (k : A -> result B) : result B :=
  match r with
  | OK a => k a
  | Err e => Err e
  end.

(** A call reads and writes the store and may raise; what was written
    before the exception stays written. *)
Definition M (St A : Type) : Type := St -> result A * St.

Definition ret {St A} (a : A) : M St A := fun st => (OK a, st).

Definition raise {St A} (e : PyError) : M St A := fun st => (Err e, st).

Definition bind {St A B} (m : M St A) (k : A -> M St B) : M St B :=
  fun st =>
    match m st with
    | (OK a, st') => k a st'
    | (Err e, st') => (Err e, st')
    end.

Definition lift {St A} (r : result A) : M St A := fun st => (r, st).

Definition assert_ {St} (b : bool) : M St unit :=
  if b then ret tt else raise AssertionError.

Declare Scope monad_scope.
Delimit Scope monad_scope with monad.
Notation "x <- m ;; k" := (bind m (fun x => k))
  (at level 61, m at next level, right associativity) : monad_scope.
Notation "' pat <- m ;; k" := (bind m (fun x => match x with pat => k end))
  (at level 61, pat pattern, m at next level, right associativity) : monad_scope.
Notation "m ;;; k" := (bind m (fun _ => k))
  (at level 61, right associativity) : monad_scope.
Local Open Scope monad_scope.

(* ================================================================= *)
(** ** Tensors *)

Record Tensor : Type := mkTensor { size : list nat; storage : list R }.

Definition numel (sz : list nat) : nat := fold_right Nat.mul 1%nat sz.

(** [wf t]: the storage holds exactly the elements the size announces. *)
Definition wf (t : Tensor) : Prop := length (storage t) = numel (size t).

(** [x.size(d)] *)
Definition size_at (t : Tensor) (d : nat) : result nat :=
  match nth_error (size t) d with
  | Some n => OK n
  | None => Err IndexError
  end.

(** [x.new_zeros(n)] *)
Definition new_zeros (n : nat) : Tensor := mkTensor [n] (repeat 0 n).

(** [x.mul(c)] for a Python float [c]. *)
Definition mul_scalar (t : Tensor) (c : R) : Tensor :=
  mkTensor (size t) (map (fun v => v * c) (storage t)).

(** Elementwise negation, the mathematical [-t]. *)
Definition tneg (t : Tensor) : Tensor :=
  mkTensor (size t) (map Ropp (storage t)).

(** The value bound to a conditioning parameter [s]: [None], a tensor, or
    the tuple [h] of extra positional arguments that the adapters of
    [Flow] forward as one argument. *)
Inductive Cond : Type :=
| CNone
| CTensor (t : Tensor)
| CTuple (h : list Tensor).

(* ================================================================= *)
(** ** flows/flow.py: the Flow base class and its adapters *)

Section FlowBase.
Context {St : Type}.

(** The three virtual methods and the static flag of [Flow]; each
    returns [(out, logdet)]. *)
Record Flow : Type := mkFlow {
  inverse : bool;
  forward : Tensor -> Cond -> M St (Tensor * Tensor);
  backward : Tensor -> Cond -> M St (Tensor * Tensor);
  init : Tensor -> Cond -> R -> M St (Tensor * Tensor)
}.

(** [Flow.fwdpass(self, x, *h, init=False, init_scale=1.0)] *)
Definition fwdpass (self : Flow) (x : Tensor) (h : list Tensor)
    (init_ : bool) (init_scale : R) : M St (Tensor * Tensor) :=
  '(y, logdet) <-
     (if inverse self then
        if init_ then
          raise (RuntimeError "inverse flow shold be initialized with backward pass")
        else backward self x (CTuple h)
      else
        if init_ then init self x (CTuple h) init_scale
        else forward self x (CTuple h)) ;;
  ret (y, mul_scalar logdet (-1)).

(** [Flow.bwdpass(self, y, *h, init=False, init_scale=1.0)] *)
Definition bwdpass (self : Flow) (y : Tensor) (h : list Tensor)
    (init_ : bool) (init_scale : R) : M St (Tensor * Tensor) :=
  '(x, logdet) <-
     (if inverse self then
        if init_ then init self y (CTuple h) init_scale
        else forward self y (CTuple h)
      else
        if init_ then
          raise (RuntimeError "forward flow should be initialzed with forward pass")
        else backward self y (CTuple h)) ;;
  ret (x, logdet).

End FlowBase.

Arguments Flow St : clear implicits.

(** What a caller sees of a call that negates the log-determinant of the
    pair another call returned. *)
Definition negate_logdet {St} (r : result (Tensor * Tensor) * St)
  : result (Tensor * Tensor) * St :=
  match r with
  | (OK (y, logdet), st') => (OK (y, tneg logdet), st')
  | (Err e, st') => (Err e, st')
  end.

(* ================================================================= *)
(** ** Tensor operations used by the core *)

Definition size_eqb (a b : list nat) : bool :=
  if list_eq_dec Nat.eq_dec a b then true else false.

(** Pairing of two lists, position by position. *)
Fixpoint map2 {A B C} (f : A -> B -> C) (l1 : list A) (l2 : list B) : list C :=
  match l1, l2 with
  | a :: l1', b :: l2' => f a b :: map2 f l1' l2'
  | _, _ => []
  end.

(** Broadcasting of two sizes, both given from the last dimension to the
    first: equal dimensions stay, a dimension 1 gives way to the other, a
    missing leading dimension counts as 1, and anything else does not
    broadcast. *)
Fixpoint broadcast_rev (ra rb : list nat) : option (list nat) :=
  match ra, rb with
  | [], _ => Some rb
  | _, [] => Some ra
  | da :: ra', db :: rb' =>
      match broadcast_rev ra' rb' with
      | Some r =>
          if (da =? db)%nat then Some (da :: r)
          else if (da =? 1)%nat then Some (db :: r)
          else if (db =? 1)%nat then Some (da :: r)
          else None
      | None => None
      end
  end.

Definition broadcast_size (sa sb : list nat) : option (list nat) :=
  option_map (@rev nat) (broadcast_rev (rev sa) (rev sb)).

(** The position, in the row-major storage of a tensor of size [ss], of
    the element that broadcasting to the size [sz] puts at position [i]:
    along a dimension 1 of the tensor the index is 0, along the others it
    is the index of [i].  Both sizes are given from the last dimension to
    the first. *)
Fixpoint source_index (rsz rss : list nat) (i : nat) : nat :=
  match rsz, rss with
  | d :: rsz', ds :: rss' =>
      ((if (ds =? 1)%nat then 0 else i mod d) + ds * source_index rsz' rss' (i / d))%nat
  | _, _ => 0%nat
  end.

(** The storage of a tensor of size [ss] expanded to the size [sz]. *)
Definition expand_to (sz : list nat) (t : Tensor) : list R :=
  map (fun i => nth (source_index (rev sz) (rev (size t)) i) (storage t) 0)
      (seq 0 (numel sz)).

(** An elementwise binary operation.  Operands of one size are combined
    position by position (their storages are as long as each other, as
    those of two tensors of one size are); operands of different sizes are
    first broadcast to their common size, and raise if they have none. *)
Definition ebinop (f : R -> R -> R) (a b : Tensor) : result Tensor :=
  if size_eqb (size a) (size b) then
    if (length (storage a) =? length (storage b))%nat
    then OK (mkTensor (size a) (map2 f (storage a) (storage b)))
    else Err (RuntimeError "The size of tensor a must match the size of tensor b")
  else
    match broadcast_size (size a) (size b) with
    | Some sz => OK (mkTensor sz (map2 f (expand_to sz a) (expand_to sz b)))
    | None => Err (RuntimeError "The size of tensor a must match the size of tensor b")
    end.

(** [a + b], [a - b], [a.mul(b)], [a.div(b)] on tensors. *)
Definition tadd := ebinop Rplus.
Definition tsub := ebinop Rminus.
Definition tmul := ebinop Rmult.
Definition tdiv := ebinop Rdiv.

(** [t + c] for a Python float [c]. *)
Definition add_scalar (t : Tensor) (c : R) : Tensor :=
  mkTensor (size t) (map (fun v => v + c) (storage t)).

Definition tmap (f : R -> R) (t : Tensor) : Tensor :=
  mkTensor (size t) (map f (storage t)).

(** [rows n d l]: the first [n] consecutive runs of [d] elements of [l]. *)
Fixpoint rows {A} (n d : nat) (l : list A) : list (list A) :=
  match n with
  | O => []
  | S n' => firstn d l :: rows n' d (skipn d l)
  end.

Definition sum_list (l : list R) : R := fold_right Rplus 0 l.

(** [t.view(sz)]: same storage, another size of as many elements. *)
Definition view (t : Tensor) (sz : list nat) : result Tensor :=
  if (numel sz =? numel (size t))%nat then OK (mkTensor sz (storage t))
  else Err (RuntimeError "shape is invalid for input size").

(** [t.view(t.size(0), -1)]: one row per sample.  With no sample the
    inferred dimension is ambiguous and torch raises. *)
Definition view_rows (t : Tensor) : result Tensor :=
  match size t with
  | [] => Err IndexError
  | O :: _ => Err (RuntimeError "cannot reshape tensor of 0 elements: -1 is ambiguous")
  | b :: rest => OK (mkTensor [b; numel rest] (storage t))
  end.

(** [t.sum(dim=1)] of a two-dimensional tensor. *)
Definition sum_dim1 (t : Tensor) : result Tensor :=
  match size t with
  | [b; d] => OK (mkTensor [b] (map sum_list (rows b d (storage t))))
  | _ => Err IndexError
  end.

(** [x.unsqueeze(1) + x.new_zeros(batch, n, *x.size()[1:])]: every sample
    of [x], with zero added, repeated [n] times in place. *)
Definition expand_dim1 (x : Tensor) (n : nat) : result Tensor :=
  match size x with
  | [] => Err IndexError
  | b :: rest =>
      OK (mkTensor (b :: n :: rest)
            (concat (map (fun sample => concat (repeat (map (fun v => v + 0) sample) n))
                         (rows b (numel rest) (storage x)))))
  end.

(** [t.view(n, -1)]: [n] rows; the row length is inferred. *)
Definition view_flat (t : Tensor) (n : nat) : result Tensor :=
  match n with
  | O => Err (RuntimeError "cannot reshape tensor of 0 elements: -1 is ambiguous")
  | _ => if (numel (size t) mod n =? 0)%nat
         then OK (mkTensor [n; (numel (size t) / n)%nat] (storage t))
         else Err (RuntimeError "shape is invalid for input size")
  end.

(** A Python slice bound [k] on an axis of length [c]: negative bounds
    count from the end, and bounds are clamped to the axis. *)
Definition slice_bound (k : Z) (c : nat) : nat :=
  if (k <? 0)%Z then Z.to_nat (Z.max (k + Z.of_nat c) 0)
  else Nat.min (Z.to_nat k) c.

(** [t[:, :k]]: the leading channels of every sample. *)
Definition slice_to (k : Z) (t : Tensor) : result Tensor :=
  match size t with
  | b :: c :: rest =>
      let k' := slice_bound k c in
      OK (mkTensor (b :: k' :: rest)
            (concat (map (firstn (k' * numel rest))
                         (rows b (c * numel rest) (storage t)))))
  | _ => Err IndexError
  end.

(** [t[:, k:]]: the remaining channels of every sample. *)
Definition slice_from (k : Z) (t : Tensor) : result Tensor :=
  match size t with
  | b :: c :: rest =>
      let k' := slice_bound k c in
      OK (mkTensor (b :: (c - k')%nat :: rest)
            (concat (map (skipn (k' * numel rest))
                         (rows b (c * numel rest) (storage t)))))
  | _ => Err IndexError
  end.

(** [torch.cat([a, b], dim=1)]: the channels of [b] after those of [a],
    sample by sample; the other dimensions must agree. *)
Definition cat2 (a b : Tensor) : result Tensor :=
  match size a, size b with
  | ba :: ca :: resta, bb :: cb :: restb =>
      if (ba =? bb)%nat && size_eqb resta restb then
        OK (mkTensor (ba :: (ca + cb)%nat :: resta)
              (concat (map2 (@app R)
                         (rows ba (ca * numel resta) (storage a))
                         (rows bb (cb * numel restb) (storage b)))))
      else Err (RuntimeError "Sizes of tensors must match except in dimension 1")
  | _, _ => Err IndexError
  end.

(** [torch.cat(ts, dim=1)] *)
Definition cat_dim1 (ts : list Tensor) : result Tensor :=
  match ts with
  | [] => Err (RuntimeError "torch.cat(): expected a non-empty list of Tensors")
  | t :: ts' => fold_left (fun acc t' => rbind acc (fun a => cat2 a t')) ts' (OK t)
  end.

(** [t.chunk(2, dim=1)] unpacked into two names: the first chunk has
    [ceil(c/2)] channels; a single channel gives a single chunk, which
    cannot be unpacked. *)
Definition chunk2 (t : Tensor) : result (Tensor * Tensor) :=
  match size t with
  | _ :: 1%nat :: _ => Err ValueError
  | _ :: c :: _ =>
      let h := Z.of_nat ((c + 1) / 2) in
      rbind (slice_to h t) (fun a => rbind (slice_from h t) (fun b => OK (a, b)))
  | _ => Err IndexError
  end.

(** [torch.sigmoid] and [ELU] (alpha = 1) on a value. *)
Definition sigmoid (v : R) : R := 1 / (1 + exp (- v)).

Definition elu (v : R) : R := if Rlt_dec 0 v then v else exp v - 1.

(** [math.log(math.pi * 2.)] *)
Definition log_2pi : R := ln (PI * 2).

(* ================================================================= *)
(** ** models/flow_gen.py: the generative model wrappers *)

Section FlowGen.
Context {St : Type}.

(** [torch.randn] of a given size: a draw from the generator kept in the store. *)
Variable randn : list nat -> M St Tensor.

(** [FlowGenModel]: the attribute the methods below read. *)
Record FlowGenModel : Type := mkFlowGenModel { flow : Flow St }.

(** [DataParallelFlow(flow, device_ids, output_device=0)], the replication
    of a flow over the devices [device_ids]; a collaborator outside the
    core (flows/parallel.py). *)
Variable DataParallelFlow : Flow St -> list Z -> Flow St.

(** [device_ids = list(range(ngpu)); device_ids[gpu_id] = 0;
    device_ids[0] = gpu_id] for [0 <= gpu_id < ngpu]. *)
Definition swap_device_ids (ngpu gpu_id : Z) : list Z :=
  map (fun i => if (i =? 0)%Z then gpu_id
                else if (i =? gpu_id)%Z then 0%Z else i)
      (map Z.of_nat (seq 0 (Z.to_nat ngpu))).

(** [FlowGenModel.__init__(flow, ngpu=1, gpu_id=0)].  With several
    devices, [device_ids[gpu_id] = 0] raises [IndexError] outside
    [-ngpu <= gpu_id < ngpu]; a negative [gpu_id] within that range passes
    the two assignments and is refused by [torch.device('cuda:<gpu_id>')]. *)
Definition FlowGenModel_new (flow_ : Flow St) (ngpu gpu_id : Z) : result FlowGenModel :=
  if negb (inverse flow_) then Err AssertionError
  else if negb (ngpu >? 0)%Z then Err AssertionError
  else if (ngpu >? 1)%Z then
    if ((gpu_id <? - ngpu) || (ngpu <=? gpu_id))%Z then Err IndexError
    else if (gpu_id <? 0)%Z then Err (RuntimeError "Invalid device string")
    else OK (mkFlowGenModel (DataParallelFlow flow_ (swap_device_ids ngpu gpu_id)))
  else OK (mkFlowGenModel flow_).

(** [FlowGenModel.encode(x)] *)
Definition encode (self : FlowGenModel) (x : Tensor) : M St (Tensor * Tensor) :=
  '(z, logdet) <- bwdpass (flow self) x [] false 1 ;;
  ret (z, logdet).

(** [FlowGenModel.decode(z)] *)
Definition decode (self : FlowGenModel) (z : Tensor) : M St (Tensor * Tensor) :=
  '(x, logdet) <- fwdpass (flow self) z [] false 1 ;;
  ret (x, logdet).

(** [FlowGenModel.init(data, init_scale=1.0)] *)
Definition FlowGenModel_init (self : FlowGenModel) (data : Tensor) (init_scale : R)
  : M St (Tensor * Tensor) :=
  bwdpass (flow self) data [] true init_scale.

(** [FlowGenModel.log_probability(x)] *)
Definition log_probability (self : FlowGenModel) (x : Tensor) : M St Tensor :=
  '(z, logdet) <- encode self x ;;
  z <- lift (view_rows z) ;;
  zz <- lift (tmul z z) ;;
  sq <- lift (sum_dim1 zz) ;;
  d <- lift (size_at z 1) ;;
  let log_probs := add_scalar sq (log_2pi * INR d) in
  lift (tadd (mul_scalar log_probs (-0.5)) logdet).

(** [VDeQuantFlowGenModel]: a [FlowGenModel] with a dequantization flow. *)
Record VDeQuantFlowGenModel : Type := mkVDeQuantFlowGenModel {
  base : FlowGenModel;
  dequant_flow : Flow St
}.

(** [VDeQuantFlowGenModel.__init__(flow, dequant_flow, ngpu=1,
    gpu_ids=(0, 0))] *)
Definition VDeQuantFlowGenModel_new (flow_ dequant_flow_ : Flow St)
    (ngpu : Z) (gpu_ids : Z * Z) : result VDeQuantFlowGenModel :=
  let '(flow_gpu_id, dequant_gpu_id) := gpu_ids in
  rbind (FlowGenModel_new flow_ ngpu flow_gpu_id) (fun b =>
    if inverse dequant_flow_ then Err AssertionError
    else if (ngpu >? 1)%Z then
      if ((dequant_gpu_id <? - ngpu) || (ngpu <=? dequant_gpu_id))%Z then Err IndexError
      else if (dequant_gpu_id <? 0)%Z then Err (RuntimeError "Invalid device string")
      else OK (mkVDeQuantFlowGenModel b
                 (DataParallelFlow dequant_flow_ (swap_device_ids ngpu dequant_gpu_id)))
    else OK (mkVDeQuantFlowGenModel b dequant_flow_)).

(** [VDeQuantFlowGenModel.dequantize(x, nsamples=1)] *)
Definition dequantize (self : VDeQuantFlowGenModel) (x : Tensor) (nsamples : Z)
  : M St (Tensor * Tensor) :=
  batch <- lift (size_at x 0) ;;
  (if (Z.of_nat batch * nsamples <? 0)%Z
   then raise (RuntimeError "Trying to create tensor with negative dimension")
   else ret tt) ;;;
  epsilon <- randn (Z.to_nat (Z.of_nat batch * nsamples) :: tl (size x)) ;;
  x <- (if (nsamples >? 1)%Z then
          x <- lift (expand_dim1 x (Z.to_nat nsamples)) ;;
          lift (view x (size epsilon))
        else ret x) ;;
  '(u, logdet) <- fwdpass (dequant_flow self) epsilon [x] false 1 ;;
  epsilon <- lift (view_rows epsilon) ;;
  ee <- lift (tmul epsilon epsilon) ;;
  sq <- lift (sum_dim1 ee) ;;
  d <- lift (size_at epsilon 1) ;;
  let log_posteriors := add_scalar sq (log_2pi * INR d) in
  log_posteriors <- lift (tsub (mul_scalar log_posteriors (-0.5)) logdet) ;;
  u <- lift (view u (batch :: Z.to_nat nsamples :: tl (size x))) ;;
  log_posteriors <- lift (view log_posteriors [batch; Z.to_nat nsamples]) ;;
  ret (u, log_posteriors).

(** [VDeQuantFlowGenModel.init(data, init_scale=1.0)] *)
Definition VDeQuantFlowGenModel_init (self : VDeQuantFlowGenModel) (data : Tensor)
    (init_scale : R) : M St (Tensor * Tensor) :=
  epsilon <- randn (size data) ;;
  fwdpass (dequant_flow self) epsilon [data] true init_scale ;;;
  bwdpass (flow (base self)) data [] true init_scale.

End FlowGen.

(* ================================================================= *)
(** ** flows/nice.py: the coupling flow *)

Section Nice.
Context {St : Type}.

(** A [Conv2dWeightNorm] layer (nnet/weight_norm.py, a collaborator
    outside the core): its call and its data-dependent [init]. *)
Record Conv : Type := mkConv {
  conv_call : Tensor -> M St Tensor;
  conv_init : Tensor -> R -> M St Tensor
}.

(** [NICEBlock]: the three convolutions [conv1], [conv2], [conv3], an in-place ELU and a dropout layer
    (the identity in evaluation mode, a draw from the generator in
    training mode). *)
Record NICEBlock : Type := mkNICEBlock {
  block_conv1 : Conv;
  block_conv2 : Conv;
  block_conv3 : Conv;
  dropout : Tensor -> M St Tensor
}.

Definition activation (t : Tensor) : Tensor := tmap elu t.

(** [torch.cat([x, s], dim=1)] when [s is not None]. *)
Definition cat_cond (x : Tensor) (s : Cond) : result Tensor :=
  match s with
  | CNone => OK x
  | CTensor t => cat2 x t
  | CTuple _ => Err TypeError
  end.

(** [NICEBlock.init(x, s=None, init_scale=1.0)] *)
Definition NICEBlock_init (self : NICEBlock) (x : Tensor) (s : Cond) (init_scale : R)
  : M St Tensor :=
  x <- lift (cat_cond x s) ;;
  out <- conv_init (block_conv1 self) x init_scale ;;
  let out := activation out in
  out <- conv_init (block_conv2 self) out init_scale ;;
  let out := activation out in
  out <- dropout self out ;;
  conv_init (block_conv3 self) out 0.

(** [NICEBlock.forward(x, s=None)] *)
Definition NICEBlock_forward (self : NICEBlock) (x : Tensor) (s : Cond) : M St Tensor :=
  x <- lift (cat_cond x s) ;;
  out <- conv_call (block_conv1 self) x ;;
  let out := activation out in
  out <- conv_call (block_conv2 self) out ;;
  let out := activation out in
  out <- dropout self out ;;
  conv_call (block_conv3 self) out.

(** [NICE]: the attributes its methods read. *)
Record NICE : Type := mkNICE {
  nice_inverse : bool;
  nice_in_channels : Z;
  nice_scale : bool;
  nice_z1_channels : Z;
  net : NICEBlock
}.

(** Python's [a // b]. *)
Definition floordiv (a b : Z) : result Z :=
  if (b =? 0)%Z then Err ZeroDivisionError else OK (a / b)%Z.

(** [NICE.__init__(in_channels, hidden_channels=None, s_channels=None,
    scale=True, inverse=False, dilation=1, dropout=0.0, factor=2)]; the
    constructor of the block, which only builds collaborators, is the
    argument [new_block]. *)
Definition NICE_new
    (new_block : Z -> Z -> Z -> Z -> Z -> R -> NICEBlock)
    (in_channels : Z) (hidden_channels s_channels : option Z)
    (scale inverse_ : bool) (dilation : Z) (dropout_ : R) (factor : Z)
  : result NICE :=
  let hidden_channels :=
    match hidden_channels with
    | None => Z.min (8 * in_channels) 512
    | Some h => h
    end in
  rbind (floordiv in_channels factor) (fun out_channels =>
    let in_channels' := (in_channels - out_channels)%Z in
    let z1_channels := in_channels' in
    let out_channels := if scale then (out_channels * 2)%Z else out_channels in
    let s_channels := match s_channels with None => 0%Z | Some c => c end in
    OK (mkNICE inverse_ in_channels scale z1_channels
          (new_block in_channels' out_channels hidden_channels s_channels
                     dilation dropout_))).

(** The tail shared by [calc_mu_and_scale] and [init_net]. *)
Definition mu_and_scale (self : NICE) (mu : Tensor) : result (Tensor * option Tensor) :=
  if nice_scale self then
    rbind (chunk2 mu) (fun '(mu, log_scale) =>
      let scale := tmap sigmoid (add_scalar log_scale 2) in
      OK (mu, Some scale))
  else OK (mu, None).

(** [NICE.calc_mu_and_scale(z1, s=None)] *)
Definition calc_mu_and_scale (self : NICE) (z1 : Tensor) (s : Cond)
  : M St (Tensor * option Tensor) :=
  mu <- NICEBlock_forward (net self) z1 s ;;
  lift (mu_and_scale self mu).

(** [NICE.init_net(z1, s=None, init_scale=1.0)] *)
Definition init_net (self : NICE) (z1 : Tensor) (s : Cond) (init_scale : R)
  : M St (Tensor * option Tensor) :=
  mu <- NICEBlock_init (net self) z1 s init_scale ;;
  lift (mu_and_scale self mu).

(** [scale.log().view(z1.size(0), -1).sum(dim=1)] *)
Definition log_scale_sum (scale z1 : Tensor) : result Tensor :=
  rbind (size_at z1 0) (fun b =>
  rbind (view_flat (tmap ln scale) b) sum_dim1).

(** The affine step of [forward] and [init]:
    [z2 = z2.mul(scale)] with its log-determinant, or zeros. *)
Definition scale_forward (self : NICE) (z1 z2 : Tensor) (scale : option Tensor)
  : result (Tensor * Tensor) :=
  if nice_scale self then
    match scale with
    | Some scale =>
        rbind (tmul z2 scale) (fun z2 =>
        rbind (log_scale_sum scale z1) (fun logdet => OK (z2, logdet)))
    | None => Err TypeError
    end
  else rbind (size_at z1 0) (fun b => OK (z2, new_zeros b)).

(** The affine step of [backward]: [z2 = z2.div(scale + 1e-12)] with its
    log-determinant, or zeros. *)
Definition scale_backward (self : NICE) (z1 z2 : Tensor) (scale : option Tensor)
  : result (Tensor * Tensor) :=
  if nice_scale self then
    match scale with
    | Some scale =>
        rbind (tdiv z2 (add_scalar scale 1e-12)) (fun z2 =>
        rbind (log_scale_sum scale z1) (fun logdet =>
          OK (z2, mul_scalar logdet (-1.0))))
    | None => Err TypeError
    end
  else rbind (size_at z1 0) (fun b => OK (z2, new_zeros b)).

(** [NICE.forward(input, s=None)] *)
Definition NICE_forward (self : NICE) (input : Tensor) (s : Cond)
  : M St (Tensor * Tensor) :=
  z1 <- lift (slice_to (nice_z1_channels self) input) ;;
  z2 <- lift (slice_from (nice_z1_channels self) input) ;;
  '(mu, scale) <- calc_mu_and_scale self z1 s ;;
  '(z2, logdet) <- lift (scale_forward self z1 z2 scale) ;;
  z2 <- lift (tadd z2 mu) ;;
  out <- lift (cat2 z1 z2) ;;
  ret (out, logdet).

(** [NICE.backward(input, s=None)] *)
Definition NICE_backward (self : NICE) (input : Tensor) (s : Cond)
  : M St (Tensor * Tensor) :=
  z1 <- lift (slice_to (nice_z1_channels self) input) ;;
  z2 <- lift (slice_from (nice_z1_channels self) input) ;;
  '(mu, scale) <- calc_mu_and_scale self z1 s ;;
  z2 <- lift (tsub z2 mu) ;;
  '(z2, logdet) <- lift (scale_backward self z1 z2 scale) ;;
  out <- lift (cat2 z1 z2) ;;
  ret (out, logdet).

(** [NICE.init(data, s=None, init_scale=1.0)] *)
Definition NICE_init (self : NICE) (data : Tensor) (s : Cond) (init_scale : R)
  : M St (Tensor * Tensor) :=
  z1 <- lift (slice_to (nice_z1_channels self) data) ;;
  z2 <- lift (slice_from (nice_z1_channels self) data) ;;
  '(mu, scale) <- init_net self z1 s init_scale ;;
  '(z2, logdet) <- lift (scale_forward self z1 z2 scale) ;;
  z2 <- lift (tadd z2 mu) ;;
  out <- lift (cat2 z1 z2) ;;
  ret (out, logdet).

(** A [NICE] object seen through the [Flow] interface. *)
Definition NICE_flow (self : NICE) : Flow St :=
  mkFlow (nice_inverse self) (NICE_forward self) (NICE_backward self) (NICE_init self).

End Nice.

(* ================================================================= *)
(** ** flows/macow.py: units, steps and blocks *)

(** The order tag of a masked convolution. *)
Inductive Order : Type := OrderA | OrderB | OrderC | OrderD.

(** The name under which a module is registered in its parent: an
    attribute or a position in a [ModuleList].  The path of names from the
    root tells the instances of a class apart. *)
Inductive Seg : Type := Attr (name : string) | Idx (i : nat).

Definition path : Type := list Seg.

(** The keyword arguments a step hands on to its coupling sub-block. *)
Record GlowOpts : Type := mkGlowOpts {
  coupling_type : string;
  slice : option Z;
  heads : Z;
  pos_enc : bool;
  dropout_p : R
}.

(** The defaults of [MaCowStep.__init__]. *)
Definition default_opts : GlowOpts := mkGlowOpts "conv" None 1 true 0.0.

(** [[f(x) for x in xs]] where [f] may raise. *)
Fixpoint rmapM {A B} (f : A -> result B) (l : list A) : result (list B) :=
  match l with
  | [] => OK []
  | a :: l' => rbind (f a) (fun b => rbind (rmapM f l') (fun bs => OK (b :: bs)))
  end.

(** [range(n)] for a Python integer. *)
Definition range (n : Z) : list nat := seq 0 (Z.to_nat n).

(** [l[i]] for a non-negative position. *)
Definition index {A} (l : list A) (i : nat) : result A :=
  match nth_error l i with
  | Some a => OK a
  | None => Err IndexError
  end.

Section MaCowUnits.
Context {St : Type}.

(** [Prior] (flows/glow.py): a flow with the attribute [z1_channels]. *)
Record Prior : Type := mkPrior {
  prior_flow : Flow St;
  prior_z1_channels : Z
}.

(** The collaborators of the pyramid whose source is outside the core: the
    constructors of the elementary flows (flows/actnorm.py, flows/conv.py,
    flows/glow.py), each taking the name of the instance it creates, and
    the two resizing helpers of utils.py.  The helpers are called on a
    tensor, and on whatever conditioning is not [None]: what they do with
    the tuple that the adapters of flows/flow.py hand over as conditioning
    is [squeeze2d_tuple] and [unsqueeze2d_tuple]. *)
Record Collab : Type := mkCollab {
  ActNorm2dFlow : path -> Z -> bool -> result (Flow St);
  MaskedConvFlow : path -> Z -> Z * Z -> Z -> Order -> bool -> bool -> result (Flow St);
  GlowStep : path -> Z -> Z -> Z -> bool -> bool -> GlowOpts -> result (Flow St);
  Prior_new : path -> Z -> Z -> Z -> bool -> bool -> Z -> result Prior;
  squeeze2d : Tensor -> Z -> result Tensor;
  unsqueeze2d : Tensor -> Z -> result Tensor;
  squeeze2d_tuple : list Tensor -> Z -> result Cond;
  unsqueeze2d_tuple : list Tensor -> Z -> result Cond
}.

Variable E : Collab.

(** Modelled from the spec: utils.split2d is not part of the core; the
    spec has it partition a tensor into a retained slice of [z1_channels]
    channels and a leaked slice of the remaining channels. *)
Definition split2d (x : Tensor) (z1_channels : Z) : result (Tensor * Tensor) :=
  rbind (slice_to z1_channels x) (fun z1 =>
  rbind (slice_from z1_channels x) (fun z2 => OK (z1, z2))).

(** Modelled from the spec: utils.unsplit2d is not part of the core; the
    spec has it recombine slices, the inverse of the partition: the
    channels of the tensors of the list, in the order of the list. *)
Definition unsplit2d (xs : list Tensor) : result Tensor := cat_dim1 xs.

(** The loop
    [for f in fs: out, logdet = f(out, s=s);
                  logdet_accum = logdet_accum + logdet]. *)
Fixpoint run_flows (fs : list (Tensor -> Cond -> M St (Tensor * Tensor)))
    (out : Tensor) (s : Cond) (logdet_accum : Tensor) : M St (Tensor * Tensor) :=
  match fs with
  | [] => ret (out, logdet_accum)
  | f :: fs' =>
      '(out, logdet) <- f out s ;;
      logdet_accum <- lift (tadd logdet_accum logdet) ;;
      run_flows fs' out s logdet_accum
  end.

(** *** MaCowUnit *)

Record MaCowUnit : Type := mkMaCowUnit {
  unit_inverse : bool;
  actnorm1 : Flow St;
  actnorm2 : Flow St;
  conv1 : Flow St;
  conv2 : Flow St;
  conv3 : Flow St;
  conv4 : Flow St
}.

(** [MaCowUnit.__init__(in_channels, kernel_size, s_channels, scale=True,
    inverse=False)], registered as [name]. *)
Definition MaCowUnit_new (name : path) (in_channels : Z) (kernel_size : list Z)
    (s_channels : Z) (scale inverse_ : bool) : result MaCowUnit :=
  rbind (ActNorm2dFlow E (name ++ [Attr "actnorm1"]) in_channels inverse_) (fun actnorm1 =>
  rbind (ActNorm2dFlow E (name ++ [Attr "actnorm2"]) in_channels inverse_) (fun actnorm2 =>
  rbind (index kernel_size 0) (fun k0 =>
  rbind (index kernel_size 1) (fun k1 =>
  rbind (MaskedConvFlow E (name ++ [Attr "conv1"]) in_channels (k0, k1) s_channels
           OrderA scale inverse_) (fun conv1 =>
  rbind (MaskedConvFlow E (name ++ [Attr "conv2"]) in_channels (k0, k1) s_channels
           OrderB scale inverse_) (fun conv2 =>
  rbind (MaskedConvFlow E (name ++ [Attr "conv3"]) in_channels (k1, k0) s_channels
           OrderC scale inverse_) (fun conv3 =>
  rbind (MaskedConvFlow E (name ++ [Attr "conv4"]) in_channels (k1, k0) s_channels
           OrderD scale inverse_) (fun conv4 =>
  OK (mkMaCowUnit inverse_ actnorm1 actnorm2 conv1 conv2 conv3 conv4))))))))).

(** [MaCowUnit.forward(input, s=None)] *)
Definition MaCowUnit_forward (self : MaCowUnit) (input : Tensor) (s : Cond)
  : M St (Tensor * Tensor) :=
  '(out, logdet_accum) <- forward (actnorm1 self) input CNone ;;
  '(out, logdet) <- forward (conv1 self) out s ;;
  logdet_accum <- lift (tadd logdet_accum logdet) ;;
  '(out, logdet) <- forward (conv2 self) out s ;;
  logdet_accum <- lift (tadd logdet_accum logdet) ;;
  '(out, logdet) <- forward (actnorm2 self) out CNone ;;
  logdet_accum <- lift (tadd logdet_accum logdet) ;;
  '(out, logdet) <- forward (conv3 self) out s ;;
  logdet_accum <- lift (tadd logdet_accum logdet) ;;
  '(out, logdet) <- forward (conv4 self) out s ;;
  logdet_accum <- lift (tadd logdet_accum logdet) ;;
  ret (out, logdet_accum).

(** [MaCowUnit.backward(input, s=None)] *)
Definition MaCowUnit_backward (self : MaCowUnit) (input : Tensor) (s : Cond)
  : M St (Tensor * Tensor) :=
  '(out, logdet_accum) <- backward (conv4 self) input s ;;
  '(out, logdet) <- backward (conv3 self) out s ;;
  logdet_accum <- lift (tadd logdet_accum logdet) ;;
  '(out, logdet) <- backward (actnorm2 self) out CNone ;;
  logdet_accum <- lift (tadd logdet_accum logdet) ;;
  '(out, logdet) <- backward (conv2 self) out s ;;
  logdet_accum <- lift (tadd logdet_accum logdet) ;;
  '(out, logdet) <- backward (conv1 self) out s ;;
  logdet_accum <- lift (tadd logdet_accum logdet) ;;
  '(out, logdet) <- backward (actnorm1 self) out CNone ;;
  logdet_accum <- lift (tadd logdet_accum logdet) ;;
  ret (out, logdet_accum).

(** [MaCowUnit.init(data, s=None, init_scale=1.0)] *)
Definition MaCowUnit_init (init_scale : R) (self : MaCowUnit) (data : Tensor) (s : Cond)
  : M St (Tensor * Tensor) :=
  '(out, logdet_accum) <- init (actnorm1 self) data CNone init_scale ;;
  '(out, logdet) <- init (conv1 self) out s init_scale ;;
  logdet_accum <- lift (tadd logdet_accum logdet) ;;
  '(out, logdet) <- init (conv2 self) out s init_scale ;;
  logdet_accum <- lift (tadd logdet_accum logdet) ;;
  '(out, logdet) <- init (actnorm2 self) out CNone init_scale ;;
  logdet_accum <- lift (tadd logdet_accum logdet) ;;
  '(out, logdet) <- init (conv3 self) out s init_scale ;;
  logdet_accum <- lift (tadd logdet_accum logdet) ;;
  '(out, logdet) <- init (conv4 self) out s init_scale ;;
  logdet_accum <- lift (tadd logdet_accum logdet) ;;
  ret (out, logdet_accum).

(** *** MaCowStep *)

Record MaCowStep : Type := mkMaCowStep {
  step_inverse : bool;
  units : list MaCowUnit;
  glow_step : Flow St
}.

(** [MaCowStep.__init__(in_channels, kernel_size, hidden_channels,
    s_channels, scale=True, inverse=False, coupling_type='conv', slice=None,
    heads=1, pos_enc=True, dropout=0.0)], registered as [name]. *)
Definition MaCowStep_new (name : path) (in_channels : Z) (kernel_size : list Z)
    (hidden_channels s_channels : Z) (scale inverse_ : bool) (opts : GlowOpts)
  : result MaCowStep :=
  let num_units := 2%Z in
  rbind (rmapM (fun i => MaCowUnit_new (name ++ [Attr "units"; Idx i]) in_channels
                           kernel_size s_channels scale inverse_)
               (range num_units)) (fun units =>
  rbind (GlowStep E (name ++ [Attr "glow_step"]) in_channels hidden_channels s_channels
           scale inverse_ opts) (fun glow_step =>
  OK (mkMaCowStep inverse_ units glow_step))).

(** [MaCowStep.forward(input, s=None)] *)
Definition MaCowStep_forward (self : MaCowStep) (input : Tensor) (s : Cond)
  : M St (Tensor * Tensor) :=
  b <- lift (size_at input 0) ;;
  let logdet_accum := new_zeros b in
  let out := input in
  '(out, logdet_accum) <-
     run_flows (map MaCowUnit_forward (units self)) out s logdet_accum ;;
  '(out, logdet) <- forward (glow_step self) out s ;;
  logdet_accum <- lift (tadd logdet_accum logdet) ;;
  ret (out, logdet_accum).

(** [MaCowStep.backward(input, s=None)] *)
Definition MaCowStep_backward (self : MaCowStep) (input : Tensor) (s : Cond)
  : M St (Tensor * Tensor) :=
  '(out, logdet_accum) <- backward (glow_step self) input s ;;
  '(out, logdet_accum) <-
     run_flows (map MaCowUnit_backward (rev (units self))) out s logdet_accum ;;
  ret (out, logdet_accum).

(** [MaCowStep.init(data, s=None, init_scale=1.0)] *)
Definition MaCowStep_init (init_scale : R) (self : MaCowStep) (data : Tensor) (s : Cond)
  : M St (Tensor * Tensor) :=
  b <- lift (size_at data 0) ;;
  let logdet_accum := new_zeros b in
  let out := data in
  '(out, logdet_accum) <-
     run_flows (map (MaCowUnit_init init_scale) (units self)) out s logdet_accum ;;
  '(out, logdet) <- init (glow_step self) out s init_scale ;;
  logdet_accum <- lift (tadd logdet_accum logdet) ;;
  ret (out, logdet_accum).

(** [[MaCowStep(...) for _ in range(num_steps)]], registered under
    [name]. *)
Definition new_steps (name : path) (num_steps in_channels : Z) (kernel_size : list Z)
    (hidden_channels s_channels : Z) (scale inverse_ : bool) (opts : GlowOpts)
  : result (list MaCowStep) :=
  rmapM (fun i => MaCowStep_new (name ++ [Idx i]) in_channels kernel_size
                    hidden_channels s_channels scale inverse_ opts)
        (range num_steps).

(** The three passes of a list of steps, as the bottom and top blocks and
    every layer of an internal block run them. *)
Definition steps_forward (steps : list MaCowStep) (out : Tensor) (s : Cond)
    (logdet_accum : Tensor) : M St (Tensor * Tensor) :=
  run_flows (map MaCowStep_forward steps) out s logdet_accum.

Definition steps_backward (steps : list MaCowStep) (out : Tensor) (s : Cond)
    (logdet_accum : Tensor) : M St (Tensor * Tensor) :=
  run_flows (map MaCowStep_backward (rev steps)) out s logdet_accum.

Definition steps_init (init_scale : R) (steps : list MaCowStep) (out : Tensor) (s : Cond)
    (logdet_accum : Tensor) : M St (Tensor * Tensor) :=
  run_flows (map (MaCowStep_init init_scale) steps) out s logdet_accum.

End MaCowUnits.

Arguments Prior St : clear implicits.
Arguments Collab St : clear implicits.
Arguments MaCowUnit St : clear implicits.
Arguments MaCowStep St : clear implicits.

(* ================================================================= *)
(** ** flows/macow.py: blocks and the pyramid *)

(** A Python list used as a stack: [append] adds at the end and [pop]
    removes the last element, raising on an empty list. *)
Definition py_append {A} (l : list A) (x : A) : list A := l ++ [x].

Definition py_pop {A} (l : list A) : result (A * list A) :=
  match rev l with
  | [] => Err IndexError
  | x :: r => OK (x, rev r)
  end.

(** An element of [num_steps]: a number of steps (bottom and top levels)
    or the numbers of steps of the layers of an internal level. *)
Inductive NumSteps : Type :=
| NInt (n : Z)
| NList (ns : list Z).

Section MaCowPyramid.
Context {St : Type}.
Variable E : Collab St.

(** *** MaCowBottomBlock and MaCowTopBlock *)

Record MaCowBottomBlock : Type := mkMaCowBottomBlock {
  bottom_inverse : bool;
  bottom_steps : list (MaCowStep St)
}.

Record MaCowTopBlock : Type := mkMaCowTopBlock {
  top_inverse : bool;
  top_steps : list (MaCowStep St)
}.

(** [MaCowBottomBlock.__init__(num_steps, in_channels, kernel_size,
    hidden_channels, s_channels, scale=False, inverse=False)] *)
Definition MaCowBottomBlock_new (name : path) (num_steps : NumSteps) (in_channels : Z)
    (kernel_size : list Z) (hidden_channels s_channels : Z) (scale inverse_ : bool)
  : result MaCowBottomBlock :=
  match num_steps with
  | NInt n =>
      rbind (new_steps E (name ++ [Attr "steps"]) n in_channels kernel_size
               hidden_channels s_channels scale inverse_ default_opts) (fun steps =>
      OK (mkMaCowBottomBlock inverse_ steps))
  | NList _ => Err TypeError
  end.

(** [MaCowTopBlock.__init__(num_steps, in_channels, kernel_size,
    hidden_channels, s_channels, scale=True, inverse=False, ...)] *)
Definition MaCowTopBlock_new (name : path) (num_steps : NumSteps) (in_channels : Z)
    (kernel_size : list Z) (hidden_channels s_channels : Z) (scale inverse_ : bool)
    (opts : GlowOpts) : result MaCowTopBlock :=
  match num_steps with
  | NInt n =>
      rbind (new_steps E (name ++ [Attr "steps"]) n in_channels kernel_size
               hidden_channels s_channels scale inverse_ opts) (fun steps =>
      OK (mkMaCowTopBlock inverse_ steps))
  | NList _ => Err TypeError
  end.

(** [forward], [backward] and [init] of either block. *)
Definition block_forward (steps : list (MaCowStep St)) (input : Tensor) (s : Cond)
  : M St (Tensor * Tensor) :=
  b <- lift (size_at input 0) ;;
  steps_forward steps input s (new_zeros b).

Definition block_backward (steps : list (MaCowStep St)) (input : Tensor) (s : Cond)
  : M St (Tensor * Tensor) :=
  b <- lift (size_at input 0) ;;
  steps_backward steps input s (new_zeros b).

Definition block_init (init_scale : R) (steps : list (MaCowStep St)) (data : Tensor) (s : Cond)
  : M St (Tensor * Tensor) :=
  b <- lift (size_at data 0) ;;
  steps_init init_scale steps data s (new_zeros b).

(** *** MaCowInternalBlock *)

Record MaCowInternalBlock : Type := mkMaCowInternalBlock {
  internal_inverse : bool;
  layers : list (list (MaCowStep St));
  priors : list (Prior St);
  z1_channels : Z
}.

(** The loop of [MaCowInternalBlock.__init__] over [num_steps]; [i] is the
    position of the layer, [in_channels] and [factor] are the running
    values. *)
Fixpoint internal_new_loop (name : path) (i : nat) (num_steps : list Z)
    (in_channels : Z) (kernel_size : list Z) (hidden_channels s_channels : Z)
    (factor channel_step : Z) (scale prior_scale inverse_ : bool) (opts : GlowOpts)
  : result (list (list (MaCowStep St)) * list (Prior St) * Z) :=
  match num_steps with
  | [] => OK ([], [], in_channels)
  | num_step :: rest =>
      rbind (new_steps E (name ++ [Attr "layers"; Idx i]) num_step in_channels kernel_size
               hidden_channels s_channels scale inverse_ opts) (fun layer =>
      rbind (Prior_new E (name ++ [Attr "priors"; Idx i]) in_channels hidden_channels
               s_channels prior_scale inverse_ factor) (fun prior =>
      let in_channels := (in_channels - channel_step)%Z in
      if negb (in_channels =? prior_z1_channels prior)%Z then Err AssertionError
      else
        let factor := (factor - 1)%Z in
        rbind (internal_new_loop name (S i) rest in_channels kernel_size hidden_channels
                 s_channels factor channel_step scale prior_scale inverse_ opts)
              (fun '(ls, ps, z1) => OK (layer :: ls, prior :: ps, z1))))
  end.

(** [MaCowInternalBlock.__init__(num_steps, in_channels, kernel_size,
    hidden_channels, s_channels, factor=2, scale=True, prior_scale=True,
    inverse=False, ...)] *)
Definition MaCowInternalBlock_new (name : path) (num_steps : NumSteps) (in_channels : Z)
    (kernel_size : list Z) (hidden_channels s_channels : Z) (factor : Z)
    (scale prior_scale inverse_ : bool) (opts : GlowOpts) : result MaCowInternalBlock :=
  match num_steps with
  | NInt _ => Err TypeError
  | NList num_steps =>
      let num_layers := Z.of_nat (length num_steps) in
      if negb (num_layers <? factor)%Z then Err AssertionError
      else
        rbind (floordiv in_channels factor) (fun channel_step =>
        rbind (internal_new_loop name 0 num_steps in_channels kernel_size hidden_channels
                 s_channels factor channel_step scale prior_scale inverse_ opts)
              (fun '(ls, ps, z1) =>
        if negb (length ls =? length ps)%nat then Err AssertionError
        else OK (mkMaCowInternalBlock inverse_ ls ps z1)))
  end.

(** The first loop of [MaCowInternalBlock.forward]; it returns the running
    [out], [logdet_accum] and the list [outputs]. *)
Fixpoint internal_forward_loop (lps : list (list (MaCowStep St) * Prior St)) (out : Tensor)
    (s : Cond) (logdet_accum : Tensor) (outputs : list Tensor)
  : M St (Tensor * Tensor * list Tensor) :=
  match lps with
  | [] => ret (out, logdet_accum, outputs)
  | (layer, prior) :: lps' =>
      '(out, logdet_accum) <- steps_forward layer out s logdet_accum ;;
      '(out, logdet) <- forward (prior_flow prior) out s ;;
      logdet_accum <- lift (tadd logdet_accum logdet) ;;
      '(out1, out2) <- lift (split2d out (prior_z1_channels prior)) ;;
      let outputs := py_append outputs out2 in
      let out := out1 in
      internal_forward_loop lps' out s logdet_accum outputs
  end.

(** [MaCowInternalBlock.forward] up to the recombination: the list
    [outputs] as it stands after [outputs.append(out)] and
    [outputs.reverse()], with the log-determinant. *)
Definition MaCowInternalBlock_forward_outputs (self : MaCowInternalBlock)
    (input : Tensor) (s : Cond) : M St (list Tensor * Tensor) :=
  let out := input in
  b <- lift (size_at input 0) ;;
  let logdet_accum := new_zeros b in
  let outputs := [] in
  '(out, logdet_accum, outputs) <-
     internal_forward_loop (combine (layers self) (priors self)) out s logdet_accum outputs ;;
  let outputs := py_append outputs out in
  let outputs := rev outputs in
  ret (outputs, logdet_accum).

(** [MaCowInternalBlock.forward(input, s=None)] *)
Definition MaCowInternalBlock_forward (self : MaCowInternalBlock)
    (input : Tensor) (s : Cond) : M St (Tensor * Tensor) :=
  '(outputs, logdet_accum) <- MaCowInternalBlock_forward_outputs self input s ;;
  out <- lift (unsplit2d outputs) ;;
  ret (out, logdet_accum).

(** The first loop of [MaCowInternalBlock.backward], over the priors. *)
Fixpoint internal_split_loop (ps : list (Prior St)) (out : Tensor) (outputs : list Tensor)
  : result (Tensor * list Tensor) :=
  match ps with
  | [] => OK (out, outputs)
  | prior :: ps' =>
      rbind (split2d out (prior_z1_channels prior)) (fun '(out1, out2) =>
      let outputs := py_append outputs out2 in
      let out := out1 in
      internal_split_loop ps' out outputs)
  end.

(** The second loop of [MaCowInternalBlock.backward], over the reversed
    layers and priors. *)
Fixpoint internal_backward_loop (lps : list (list (MaCowStep St) * Prior St)) (out : Tensor)
    (s : Cond) (logdet_accum : Tensor) (outputs : list Tensor)
  : M St (Tensor * Tensor * list Tensor) :=
  match lps with
  | [] => ret (out, logdet_accum, outputs)
  | (layer, prior) :: lps' =>
      '(out2, outputs) <- lift (py_pop outputs) ;;
      out <- lift (unsplit2d [out; out2]) ;;
      '(out, logdet) <- backward (prior_flow prior) out s ;;
      logdet_accum <- lift (tadd logdet_accum logdet) ;;
      '(out, logdet_accum) <- steps_backward layer out s logdet_accum ;;
      internal_backward_loop lps' out s logdet_accum outputs
  end.

(** [MaCowInternalBlock.backward] up to its final assertion: the result
    and the list [outputs] the assertion inspects. *)
Definition MaCowInternalBlock_backward_loops (self : MaCowInternalBlock)
    (input : Tensor) (s : Cond) : M St (Tensor * Tensor * list Tensor) :=
  let out := input in
  let outputs := [] in
  '(out, outputs) <- lift (internal_split_loop (priors self) out outputs) ;;
  b <- lift (size_at out 0) ;;
  let logdet_accum := new_zeros b in
  internal_backward_loop (combine (rev (layers self)) (rev (priors self)))
    out s logdet_accum outputs.

(** [MaCowInternalBlock.backward(input, s=None)] *)
Definition MaCowInternalBlock_backward (self : MaCowInternalBlock)
    (input : Tensor) (s : Cond) : M St (Tensor * Tensor) :=
  '(out, logdet_accum, outputs) <- MaCowInternalBlock_backward_loops self input s ;;
  assert_ (length outputs =? 0)%nat ;;;
  ret (out, logdet_accum).

(** The first loop of [MaCowInternalBlock.init]. *)
Fixpoint internal_init_loop (init_scale : R) (lps : list (list (MaCowStep St) * Prior St))
    (out : Tensor) (s : Cond) (logdet_accum : Tensor) (outputs : list Tensor)
  : M St (Tensor * Tensor * list Tensor) :=
  match lps with
  | [] => ret (out, logdet_accum, outputs)
  | (layer, prior) :: lps' =>
      '(out, logdet_accum) <- steps_init init_scale layer out s logdet_accum ;;
      '(out, logdet) <- init (prior_flow prior) out s init_scale ;;
      logdet_accum <- lift (tadd logdet_accum logdet) ;;
      '(out1, out2) <- lift (split2d out (prior_z1_channels prior)) ;;
      let outputs := py_append outputs out2 in
      let out := out1 in
      internal_init_loop init_scale lps' out s logdet_accum outputs
  end.

(** [MaCowInternalBlock.init] up to the recombination. *)
Definition MaCowInternalBlock_init_outputs (init_scale : R) (self : MaCowInternalBlock)
    (data : Tensor) (s : Cond) : M St (list Tensor * Tensor) :=
  let out := data in
  b <- lift (size_at data 0) ;;
  let logdet_accum := new_zeros b in
  let outputs := [] in
  '(out, logdet_accum, outputs) <-
     internal_init_loop init_scale (combine (layers self) (priors self))
       out s logdet_accum outputs ;;
  let outputs := py_append outputs out in
  let outputs := rev outputs in
  ret (outputs, logdet_accum).

(** [MaCowInternalBlock.init(data, s=None, init_scale=1.0)] *)
Definition MaCowInternalBlock_init (init_scale : R) (self : MaCowInternalBlock)
    (data : Tensor) (s : Cond) : M St (Tensor * Tensor) :=
  '(outputs, logdet_accum) <- MaCowInternalBlock_init_outputs init_scale self data s ;;
  out <- lift (unsplit2d outputs) ;;
  ret (out, logdet_accum).

End MaCowPyramid.

(* ================================================================= *)
(** ** flows/macow.py: the MaCow pyramid *)

Section MaCowFlow.
Context {St : Type}.
Variable E : Collab St.

(** A block of the pyramid; the constructor is the class that
    [isinstance] tests. *)
Inductive Block : Type :=
| BottomBlock (b : MaCowBottomBlock (St:=St))
| InternalBlock (b : MaCowInternalBlock (St:=St))
| TopBlock (b : MaCowTopBlock (St:=St)).

Definition is_internal (block : Block) : bool :=
  match block with InternalBlock _ => true | _ => false end.

Definition is_top (block : Block) : bool :=
  match block with TopBlock _ => true | _ => false end.

(** [block.forward], [block.backward] and [block.init], dispatched on the
    class of the block. *)
Definition Block_forward (block : Block) : Tensor -> Cond -> M St (Tensor * Tensor) :=
  match block with
  | BottomBlock b => block_forward (bottom_steps b)
  | InternalBlock b => MaCowInternalBlock_forward b
  | TopBlock b => block_forward (top_steps b)
  end.

Definition Block_backward (block : Block) : Tensor -> Cond -> M St (Tensor * Tensor) :=
  match block with
  | BottomBlock b => block_backward (bottom_steps b)
  | InternalBlock b => MaCowInternalBlock_backward b
  | TopBlock b => block_backward (top_steps b)
  end.

Definition Block_init (init_scale : R) (block : Block)
  : Tensor -> Cond -> M St (Tensor * Tensor) :=
  match block with
  | BottomBlock b => block_init init_scale (bottom_steps b)
  | InternalBlock b => MaCowInternalBlock_init init_scale b
  | TopBlock b => block_init init_scale (top_steps b)
  end.

Record MaCow : Type := mkMaCow {
  macow_inverse : bool;
  levels : Z;
  internals : Z;
  blocks : list Block
}.

(** The arguments of [MaCow.__init__]. *)
Record MaCowArgs : Type := mkMaCowArgs {
  arg_levels : Z;
  arg_num_steps : list NumSteps;
  arg_in_channels : Z;
  arg_kernel_size : list Z;
  arg_factors : list Z;
  arg_hidden_channels : list Z;
  arg_s_channels : Z;
  arg_scale : bool;
  arg_prior_scale : bool;
  arg_inverse : bool;
  arg_bottom : bool;
  arg_coupling_type : string;
  arg_slices : option (list (option Z));
  arg_heads : Z;
  arg_pos_enc : bool;
  arg_dropout : R
}.

(** The loop of [MaCow.__init__] over [range(levels)]; [in_channels] and
    [s_channels] are the running values. *)
Fixpoint macow_new_loop (name : path) (a : MaCowArgs) (factors : list Z)
    (slices : list (option Z)) (level_range : list nat) (in_channels s_channels : Z)
  : result (list Block) :=
  match level_range with
  | [] => OK []
  | level :: rest =>
      rbind (index slices level) (fun slice_ =>
      rbind (index (arg_hidden_channels a) level) (fun h_channels =>
      let opts := mkGlowOpts (arg_coupling_type a) slice_ (arg_heads a) (arg_pos_enc a)
                    (arg_dropout a) in
      if (level =? 0)%nat && arg_bottom a then
        rbind (index (arg_num_steps a) level) (fun num_steps =>
        rbind (MaCowBottomBlock_new E (name ++ [Attr "blocks"; Idx level]) num_steps
                 in_channels (arg_kernel_size a) h_channels s_channels
                 (arg_scale a) (arg_inverse a)) (fun macow_block =>
        rbind (macow_new_loop name a factors slices rest in_channels s_channels) (fun bs =>
        OK (BottomBlock macow_block :: bs))))
      else if (Z.of_nat level =? arg_levels a - 1)%Z then
        let in_channels := (in_channels * 4)%Z in
        let s_channels := (s_channels * 4)%Z in
        rbind (index (arg_num_steps a) level) (fun num_steps =>
        rbind (MaCowTopBlock_new E (name ++ [Attr "blocks"; Idx level]) num_steps
                 in_channels (arg_kernel_size a) h_channels s_channels
                 (arg_scale a) (arg_inverse a) opts) (fun macow_block =>
        rbind (macow_new_loop name a factors slices rest in_channels s_channels) (fun bs =>
        OK (TopBlock macow_block :: bs))))
      else
        let in_channels := (in_channels * 4)%Z in
        let s_channels := (s_channels * 4)%Z in
        rbind (index (arg_num_steps a) level) (fun num_steps =>
        rbind (index factors level) (fun factor =>
        rbind (MaCowInternalBlock_new E (name ++ [Attr "blocks"; Idx level]) num_steps
                 in_channels (arg_kernel_size a) h_channels s_channels factor
                 (arg_scale a) (arg_prior_scale a) (arg_inverse a) opts) (fun macow_block =>
        let in_channels := z1_channels macow_block in
        rbind (macow_new_loop name a factors slices rest in_channels s_channels) (fun bs =>
        OK (InternalBlock macow_block :: bs)))))))
  end.

(** [MaCow.__init__(levels, num_steps, in_channels, kernel_size, factors,
    hidden_channels, s_channels=0, scale=True, prior_scale=True,
    inverse=False, bottom=True, coupling_type='conv', slices=None, heads=1,
    pos_enc=True, dropout=0.0)] *)
Definition MaCow_new (name : path) (a : MaCowArgs) : result MaCow :=
  let levels := arg_levels a in
  if negb (levels >? 1)%Z then Err AssertionError
  else if negb (length (arg_kernel_size a) =? 2)%nat then Err AssertionError
  else if negb (levels =? Z.of_nat (length (arg_num_steps a)))%Z then Err AssertionError
  else
    let factors := if arg_bottom a then [0%Z] ++ arg_factors a ++ [0%Z]
                   else arg_factors a ++ [0%Z] in
    let slices := match arg_slices a with
                  | None => repeat None (Z.to_nat levels)
                  | Some l => l
                  end in
    if negb (levels =? Z.of_nat (length factors))%Z then Err AssertionError
    else if negb (levels =? Z.of_nat (length (arg_hidden_channels a)))%Z
      then Err AssertionError
    else if negb (levels =? Z.of_nat (length slices))%Z then Err AssertionError
    else
      let internals := if arg_bottom a then (levels - 2)%Z else (levels - 1)%Z in
      rbind (macow_new_loop name a factors slices (range levels)
               (arg_in_channels a) (arg_s_channels a)) (fun blocks =>
      OK (mkMaCow (arg_inverse a) levels internals blocks)).

(** [if s is not None: s = squeeze2d(s, factor=2)] *)
Definition squeeze_cond (s : Cond) : result Cond :=
  match s with
  | CNone => OK CNone
  | CTensor t => rbind (squeeze2d E t 2) (fun t' => OK (CTensor t'))
  | CTuple h => squeeze2d_tuple E h 2
  end.

(** [if s is not None: s = unsqueeze2d(s, factor=2)] *)
Definition unsqueeze_cond (s : Cond) : result Cond :=
  match s with
  | CNone => OK CNone
  | CTensor t => rbind (unsqueeze2d E t 2) (fun t' => OK (CTensor t'))
  | CTuple h => unsqueeze2d_tuple E h 2
  end.

(** The loop over the blocks of [MaCow.forward] and [MaCow.init]; [run] is
    [block.forward] or [block.init]. *)
Fixpoint macow_down_loop (run : Block -> Tensor -> Cond -> M St (Tensor * Tensor))
    (bs : list Block) (out : Tensor) (s : Cond) (logdet_accum : Tensor)
    (outputs : list Tensor) : M St (Tensor * Tensor * list Tensor) :=
  match bs with
  | [] => ret (out, logdet_accum, outputs)
  | block :: bs' =>
      '(out, s) <-
         (if is_internal block || is_top block then
            s <- lift (squeeze_cond s) ;;
            out <- lift (squeeze2d E out 2) ;;
            ret (out, s)
          else ret (out, s)) ;;
      '(out, logdet) <- run block out s ;;
      logdet_accum <- lift (tadd logdet_accum logdet) ;;
      '(out, outputs) <-
         (match block with
          | InternalBlock b =>
              '(out1, out2) <- lift (split2d out (z1_channels b)) ;;
              ret (out1, py_append outputs out2)
          | _ => ret (out, outputs)
          end) ;;
      macow_down_loop run bs' out s logdet_accum outputs
  end.

(** The loop [for _ in range(self.internals)] of [MaCow.forward] and
    [MaCow.init]. *)
Fixpoint macow_up_loop (n : nat) (out : Tensor) (outputs : list Tensor)
  : result (Tensor * list Tensor) :=
  match n with
  | O => OK (out, outputs)
  | S n' =>
      rbind (py_pop outputs) (fun '(out2, outputs) =>
      rbind (unsplit2d [out; out2]) (fun x =>
      rbind (unsqueeze2d E x 2) (fun out =>
      macow_up_loop n' out outputs)))
  end.

(** [MaCow.forward] (with [run = Block_forward]) and [MaCow.init] (with
    [run = Block_init init_scale]) up to the final assertion: the result
    and the list [outputs] the assertion inspects. *)
Definition macow_traverse (run : Block -> Tensor -> Cond -> M St (Tensor * Tensor))
    (self : MaCow) (input : Tensor) (s : Cond) : M St (Tensor * Tensor * list Tensor) :=
  b <- lift (size_at input 0) ;;
  let logdet_accum := new_zeros b in
  let out := input in
  let outputs := [] in
  '(out, logdet_accum, outputs) <-
     macow_down_loop run (blocks self) out s logdet_accum outputs ;;
  out <- lift (unsqueeze2d E out 2) ;;
  '(out, outputs) <- lift (macow_up_loop (Z.to_nat (internals self)) out outputs) ;;
  ret (out, logdet_accum, outputs).

(** [MaCow.forward(input, s=None)] *)
Definition MaCow_forward (self : MaCow) (input : Tensor) (s : Cond)
  : M St (Tensor * Tensor) :=
  '(out, logdet_accum, outputs) <- macow_traverse Block_forward self input s ;;
  assert_ (length outputs =? 0)%nat ;;;
  ret (out, logdet_accum).

(** [MaCow.init(data, s=None, init_scale=1.0)] *)
Definition MaCow_init (self : MaCow) (data : Tensor) (s : Cond) (init_scale : R)
  : M St (Tensor * Tensor) :=
  '(out, logdet_accum, outputs) <- macow_traverse (Block_init init_scale) self data s ;;
  assert_ (length outputs =? 0)%nat ;;;
  ret (out, logdet_accum).

(** The first loop of [MaCow.backward]: locating the leaked slices. *)
Fixpoint macow_backward_down (bs : list Block) (out : Tensor) (s : Cond)
    (outputs : list Tensor) : result (Tensor * Cond * list Tensor) :=
  match bs with
  | [] => OK (out, s, outputs)
  | block :: bs' =>
      match block with
      | InternalBlock b =>
          rbind (squeeze_cond s) (fun s =>
          rbind (split2d out (z1_channels b)) (fun '(out1, out2) =>
          let outputs := py_append outputs out2 in
          rbind (squeeze2d E out1 2) (fun out =>
          macow_backward_down bs' out s outputs)))
      | _ => macow_backward_down bs' out s outputs
      end
  end.

(** The second loop of [MaCow.backward], over the reversed blocks; it
    returns the running [out], [s], [logdet_accum] and [outputs]. *)
Fixpoint macow_backward_up (bs : list Block) (out : Tensor) (s : Cond)
    (logdet_accum : Tensor) (outputs : list Tensor)
  : M St (Tensor * Cond * Tensor * list Tensor) :=
  match bs with
  | [] => ret (out, s, logdet_accum, outputs)
  | block :: bs' =>
      '(out, outputs) <-
         (if is_internal block then
            '(out2, outputs) <- lift (py_pop outputs) ;;
            out <- lift (unsplit2d [out; out2]) ;;
            ret (out, outputs)
          else ret (out, outputs)) ;;
      '(out, logdet) <- Block_backward block out s ;;
      logdet_accum <- lift (tadd logdet_accum logdet) ;;
      '(out, s) <-
         (if is_internal block || is_top block then
            s <- lift (unsqueeze_cond s) ;;
            out <- lift (unsqueeze2d E out 2) ;;
            ret (out, s)
          else ret (out, s)) ;;
      macow_backward_up bs' out s logdet_accum outputs
  end.

(** [MaCow.backward] up to the final assertion. *)
Definition MaCow_backward_loops (self : MaCow) (input : Tensor) (s : Cond)
  : M St (Tensor * Tensor * list Tensor) :=
  let outputs := [] in
  s <- lift (squeeze_cond s) ;;
  out <- lift (squeeze2d E input 2) ;;
  '(out, s, outputs) <- lift (macow_backward_down (blocks self) out s outputs) ;;
  b <- lift (size_at input 0) ;;
  let logdet_accum := new_zeros b in
  '(out, s, logdet_accum, outputs) <-
     macow_backward_up (rev (blocks self)) out s logdet_accum outputs ;;
  ret (out, logdet_accum, outputs).

(** [MaCow.backward(input, s=None)] *)
Definition MaCow_backward (self : MaCow) (input : Tensor) (s : Cond)
  : M St (Tensor * Tensor) :=
  '(out, logdet_accum, outputs) <- MaCow_backward_loops self input s ;;
  assert_ (length outputs =? 0)%nat ;;;
  ret (out, logdet_accum).

(** A [MaCow] object seen through the [Flow] interface. *)
Definition MaCow_flow (self : MaCow) : Flow St :=
  mkFlow (macow_inverse self) (MaCow_forward self) (MaCow_backward self)
         (MaCow_init self).

End MaCowFlow.

(* ================================================================= *)
(** ** Notions used to state the properties *)

(** The [i]-th sample of a tensor whose leading dimension is the batch. *)
Definition sample (t : Tensor) (i : nat) : list R :=
  nth i (rows (hd O (size t)) (numel (tl (size t))) (storage t)) [].

(** Squared Euclidean norm of a flattened sample. *)
Definition sqnorm (l : list R) : R := sum_list (map (fun v => v * v) l).

(** [repeat_samples x n]: the tensor of [b * n] samples that holds every
    sample of [x], in order, [n] times in a row. *)
Definition repeat_samples (x : Tensor) (n : nat) : Tensor :=
  mkTensor ((hd O (size x) * n)%nat :: tl (size x))
    (concat (flat_map (fun s => repeat s n)
               (rows (hd O (size x)) (numel (tl (size x))) (storage x)))).

(** [c] comes from [a] by elementwise operations with other tensors: it
    is well-formed if [a] is, has at least the dimensions of [a], and, when
    it has no more of them, has every dimension of [a] that is not 1. *)
Definition grows_from (a c : Tensor) : Prop :=
  (wf a -> wf c)
  /\ (length (size a) <= length (size c))%nat
  /\ (length (size c) = length (size a) ->
      forall j, (j < length (size a))%nat -> nth j (size a) 1%nat <> 1%nat ->
        nth j (size c) 1%nat = nth j (size a) 1%nat).

(* ================================================================= *)
(** ** Instances used to exercise the definitions *)

(** A flow whose [forward] doubles every value and reports [ln 2] per
    element of a sample, and whose [backward] halves; used to exercise the
    definitions in either mode. *)
Definition doubling_logdet (sign : R) (x : Tensor) : Tensor :=
  mkTensor [hd O (size x)]
    (repeat (sign * (INR (numel (tl (size x))) * ln 2)) (hd O (size x))).

Definition doubling_forward (x : Tensor) : M unit (Tensor * Tensor) :=
  lift (size_at x 0) ;;;
  ret (tmap (fun v => v * 2) x, doubling_logdet 1 x).

Definition doubling_backward (y : Tensor) : M unit (Tensor * Tensor) :=
  lift (size_at y 0) ;;;
  ret (tmap (fun v => v / 2) y, doubling_logdet (-1) y).

Definition doubling_flow (inv : bool) : Flow unit :=
  mkFlow inv (fun x _ => doubling_forward x) (fun y _ => doubling_backward y)
             (fun x _ _ => doubling_forward x).

(** The same flow for tensors of [in_channels] channels: like a layer with
    per-channel parameters, it rejects any other number of channels. *)
Definition check_channels (in_channels : Z) (x : Tensor) : M unit unit :=
  c <- lift (size_at x 1) ;;
  if (Z.of_nat c =? in_channels)%Z then ret tt
  else raise (RuntimeError "unexpected number of channels").

Definition channel_flow (in_channels : Z) (inv : bool) : Flow unit :=
  mkFlow inv
    (fun x _ => check_channels in_channels x ;;; doubling_forward x)
    (fun y _ => check_channels in_channels y ;;; doubling_backward y)
    (fun x _ _ => check_channels in_channels x ;;; doubling_forward x).

(** A generator that always draws ones. *)
Definition randn_ones : list nat -> M unit Tensor :=
  fun sz => ret (mkTensor sz (repeat 1 (numel sz))).

(** Convolutions for a small coupling flow: one hands its input on, the
    other has zero weights and a constant bias [t]. *)
Definition pass_conv : Conv (St:=unit) :=
  mkConv (fun x => ret x) (fun x _ => ret x).

Definition const_conv (t : Tensor) : Conv (St:=unit) :=
  mkConv (fun _ => ret t) (fun _ _ => ret t).

(** A coupling flow over two channels of one pixel, retaining the first;
    its network answers [net_out] whatever it is given. *)
Definition example_nice (scale : bool) (net_out : Tensor) : NICE (St:=unit) :=
  mkNICE false 2 scale 1
    (mkNICEBlock pass_conv pass_conv (const_conv net_out) (fun x => ret x)).

(** A coupling flow without scale over two channels of one pixel, in
    either mode; its network answers the shift [mu = 5]. *)
Definition shift_nice (inv : bool) : NICE (St:=unit) :=
  mkNICE inv 2 false 1
    (mkNICEBlock pass_conv pass_conv (const_conv (mkTensor [1; 1; 1; 1]%nat [5]))
                 (fun x => ret x)).

(** A coupling flow without scale over four channels of one pixel,
    retaining two; its network answers the shifts [10] and [20] for the
    other two. *)
Definition wide_nice : NICE (St:=unit) :=
  mkNICE false 4 false 2
    (mkNICEBlock pass_conv pass_conv (const_conv (mkTensor [1; 2; 1; 1]%nat [10; 20]))
                 (fun x => ret x)).

(** One sample of three channels of one pixel. *)
Definition three_channels : Tensor := mkTensor [1; 3; 1; 1]%nat [1; 2; 3].

(** One sample of two channels of one pixel. *)
Definition two_channels : Tensor := mkTensor [1; 2; 1; 1]%nat [3; 4].


(** The network output [mu = 0], [log_scale = 0]. *)
Definition unit_out : Tensor := mkTensor [1; 2; 1; 1]%nat [0; 0].

(* ================================================================= *)
(** ** Sequential application, to state the order of the sub-flows *)

Section Chain.
Context {St : Type}.

(** [chain ops x]: apply the operations of [ops] one after the other, each
    to the output of the one before, and collect their log-determinants in
    the order of application. *)
Fixpoint chain (ops : list (Tensor -> M St (Tensor * Tensor))) (x : Tensor)
  : M St (Tensor * list Tensor) :=
  match ops with
  | [] => ret (x, [])
  | op :: ops' =>
      '(x1, l1) <- op x ;;
      '(y, ls) <- chain ops' x1 ;;
      ret (y, l1 :: ls)
  end.

End Chain.

(** [l0 + l1 + ... + ln], summed from the left. *)
Definition sum_logdets (l0 : Tensor) (ls : list Tensor) : result Tensor :=
  fold_left (fun acc l => rbind acc (fun a => tadd a l)) ls (OK l0).

(* ================================================================= *)
(** ** A small pyramid *)

(** Resizing by re-reading the storage under another size: twice fewer
    rows and columns, four times as many channels, and back. *)
Definition squeeze_view (x : Tensor) (factor : Z) : result Tensor :=
  match size x with
  | [b; c; h; w] =>
      if (factor =? 2)%Z && Nat.even h && Nat.even w
      then OK (mkTensor [b; c * 4; h / 2; w / 2]%nat (storage x))
      else Err AssertionError
  | _ => Err ValueError
  end.

Definition unsqueeze_view (x : Tensor) (factor : Z) : result Tensor :=
  match size x with
  | [b; c; h; w] =>
      if (factor =? 2)%Z && (c mod 4 =? 0)%nat
      then OK (mkTensor [b; c / 4; h * 2; w * 2]%nat (storage x))
      else Err AssertionError
  | _ => Err ValueError
  end.

(** Collaborators for a small pyramid: every elementary flow doubles the
    tensors of its number of channels, a prior announces the retained
    channels that [NICE.__init__] computes, and the resizing helpers
    refuse a tuple, which has no size. *)
Definition example_collab : Collab unit :=
  mkCollab
    (fun _ in_channels inv => OK (channel_flow in_channels inv))
    (fun _ in_channels _ _ _ _ inv => OK (channel_flow in_channels inv))
    (fun _ in_channels _ _ _ inv _ => OK (channel_flow in_channels inv))
    (fun _ in_channels _ _ _ inv factor =>
       rbind (floordiv in_channels factor) (fun out_channels =>
       OK (mkPrior (channel_flow in_channels inv) (in_channels - out_channels))))
    squeeze_view unsqueeze_view
    (fun _ _ => Err AttributeError) (fun _ _ => Err AttributeError).

(** The unit and the step that these collaborators build in forward
    mode. *)
Definition example_unit (c : Z) : MaCowUnit unit :=
  let d := channel_flow c false in mkMaCowUnit false d d d d d d.

Definition example_step (c : Z) : MaCowStep unit :=
  mkMaCowStep false [example_unit c; example_unit c] (channel_flow c false).

(* ================================================================= *)
(** ** Channel arithmetic of the pyramid *)

(** The number of layers of an internal level. *)
Definition num_layers (ns : NumSteps) : Z :=
  match ns with
  | NInt _ => 0
  | NList l => Z.of_nat (length l)
  end.

(** The list [factors] as [MaCow.__init__] pads it. *)
Definition padded_factors (a : MaCowArgs) : list Z :=
  if arg_bottom a then [0%Z] ++ arg_factors a ++ [0%Z] else arg_factors a ++ [0%Z].

(** The channels that leave level [level] for the next one when [c] enter
    it: a bottom level keeps them; an internal level squeezes them to
    [4 c] and leaks [(4 c) // factor] of them at each of its layers. *)
Definition retained_after (a : MaCowArgs) (factors : list Z)
    (level : nat) (c : Z) : Z :=
  if (level =? 0)%nat && arg_bottom a then c
  else
    let c4 := (c * 4)%Z in
    (c4 - num_layers (nth level (arg_num_steps a) (NInt 0))
          * (c4 / nth level factors 0))%Z.

(** The channels of the tensor that the top level processes. *)
Definition top_in_channels (a : MaCowArgs) : Z :=
  (fold_left (fun c level => retained_after a (padded_factors a) level c)
             (seq 0 (Z.to_nat (arg_levels a) - 1)) (arg_in_channels a) * 4)%Z.

(** Arguments of a pyramid with a bottom level, 3 x 3 kernels and no
    conditioning. *)
Definition example_args (levels_ : Z) (num_steps : list NumSteps) (in_channels : Z)
    (factors hidden_channels : list Z) : MaCowArgs :=
  mkMaCowArgs levels_ num_steps in_channels [3; 3]%Z factors hidden_channels 0
    true true false true "conv" None 1 true 0.0.

(** Three levels over 3 input channels; the internal level has two layers
    and the factor 4. *)
Definition three_level_args : MaCowArgs :=
  example_args 3 [NInt 1; NList [1; 1]%Z; NInt 1] 3 [4]%Z [8; 8; 8]%Z.

(** The number of internal blocks among blocks. *)
Definition count_internal {St} (bs : list (Block (St:=St))) : nat :=
  length (filter is_internal bs).

(** What the final [assert len(outputs) == 0] of a traversal makes of the
    result [r] computed before it. *)
Definition assert_empty {A} (r : A) (outputs : list Tensor) : result A :=
  match outputs with
  | [] => OK r
  | _ :: _ => Err AssertionError
  end.

(** A traversal followed by its final assertion. *)
Definition after_assert {St} (r : result (Tensor * Tensor * list Tensor) * St)
  : result (Tensor * Tensor) * St :=
  match r with
  | (OK (out, logdet, outputs), st') => (assert_empty (out, logdet) outputs, st')
  | (Err e, st') => (Err e, st')
  end.

(** A recombination of the list that a pass of an internal block built. *)
Definition after_unsplit {St} (r : result (list Tensor * Tensor) * St)
  : result (Tensor * Tensor) * St :=
  match r with
  | (OK (outputs, logdet), st') =>
      (rbind (unsplit2d outputs) (fun out => OK (out, logdet)), st')
  | (Err e, st') => (Err e, st')
  end.

(** Three levels over one input channel; the internal level has one layer
    and the factor 2, and retains 2 of its 4 channels. *)
Definition small_args : MaCowArgs :=
  example_args 3 [NInt 1; NList [1]%Z; NInt 1] 1 [2]%Z [8; 8; 8]%Z.

Definition small_internal : MaCowInternalBlock (St:=unit) :=
  mkMaCowInternalBlock false [[example_step 4]] [mkPrior (channel_flow 4 false) 2] 2.

Definition small_macow : MaCow (St:=unit) :=
  mkMaCow false 3 1
    [ BottomBlock (mkMaCowBottomBlock false [example_step 1]);
      InternalBlock small_internal;
      TopBlock (mkMaCowTopBlock false [example_step 8]) ].

(** An image of one channel, 4 x 4. *)
Definition small_image : Tensor :=
  mkTensor [1; 1; 4; 4]%nat [1; 2; 3; 4; 5; 6; 7; 8; 9; 10; 11; 12; 13; 14; 15; 16].

(* ================================================================= *)
(** ** The contract of an invertible flow *)

(** A log-determinant for a batch of [b] samples. *)
Definition vec (b : nat) (t : Tensor) : Prop :=
  size t = [b] /\ length (storage t) = b.

Definition entry (t : Tensor) (i : nat) : R := nth i (storage t) 0.

(** [a' + ld = a + ld0], entry by entry: what a backward pass has added to
    its accumulator [a] cancels what the forward pass added to [ld0]. *)
Definition balanced (a' ld a ld0 : Tensor) : Prop :=
  forall i, entry a' i + entry ld i = entry a i + entry ld0 i.

Section Contract.
Context {St : Type}.

(** [bwd] undoes [fwd]: on a well-formed input on which [fwd] returns, it
    leaves the store alone, keeps the size, reports one log-determinant
    per sample, and [bwd] takes the output back to the input with the
    negated log-determinant. *)
Definition inverse_pair (fwd bwd : Tensor -> Cond -> M St (Tensor * Tensor)) : Prop :=
  forall x s st y ld st',
    wf x -> fwd x s st = (OK (y, ld), st') ->
    st' = st /\ size y = size x /\ wf y
    /\ (exists b, size_at x 0 = OK b /\ vec b ld)
    /\ bwd y s st = (OK (x, tneg ld), st).

Definition flow_ok (f : Flow St) : Prop := inverse_pair (forward f) (backward f).

(** The same for two loops that add to a running log-determinant. *)
Definition acc_pair (F B : Tensor -> Cond -> Tensor -> M St (Tensor * Tensor)) : Prop :=
  forall x s ld0 st y ld st' b,
    wf x -> size_at x 0 = OK b -> vec b ld0 ->
    F x s ld0 st = (OK (y, ld), st') ->
    st' = st /\ size y = size x /\ wf y /\ vec b ld
    /\ forall a, vec b a ->
         exists a', B y s a st = (OK (x, a'), st) /\ vec b a' /\ balanced a' ld a ld0.

(** The contract of the two resizing helpers: each undoes the other, and
    both keep the batch, the well-formedness and, for equal sizes in, give
    equal sizes out; where [squeeze2d] accepts a tuple, [unsqueeze2d]
    takes what it returned back to the tuple. *)
Definition resize_ok (E : Collab St) : Prop :=
  (forall x y, squeeze2d E x 2 = OK y -> unsqueeze2d E y 2 = OK x)
  /\ (forall y x, unsqueeze2d E y 2 = OK x -> squeeze2d E x 2 = OK y)
  /\ (forall x y, squeeze2d E x 2 = OK y ->
        (wf x -> wf y) /\ size_at y 0 = size_at x 0)
  /\ (forall y x, unsqueeze2d E y 2 = OK x -> wf y -> wf x)
  /\ (forall y y' x x', unsqueeze2d E y 2 = OK x -> unsqueeze2d E y' 2 = OK x' ->
        size y = size y' -> size x = size x')
  /\ (forall h c, squeeze2d_tuple E h 2 = OK c -> unsqueeze_cond E c = OK (CTuple h)).

(** The contract of the collaborators: every elementary flow they build is
    invertible, and the resizing helpers are. *)
Definition collab_ok (E : Collab St) : Prop :=
  (forall name c inv f, ActNorm2dFlow E name c inv = OK f -> flow_ok f)
  /\ (forall name c k sc o scale inv f,
        MaskedConvFlow E name c k sc o scale inv = OK f -> flow_ok f)
  /\ (forall name c h sc scale inv opts f,
        GlowStep E name c h sc scale inv opts = OK f -> flow_ok f)
  /\ (forall name c h sc scale inv factor p,
        Prior_new E name c h sc scale inv factor = OK p -> flow_ok (prior_flow p))
  /\ resize_ok E.

(** The components of the pyramid that undo themselves. *)
Definition unit_ok (u : MaCowUnit St) : Prop :=
  inverse_pair (MaCowUnit_forward u) (MaCowUnit_backward u).

Definition step_ok (step : MaCowStep St) : Prop :=
  inverse_pair (MaCowStep_forward step) (MaCowStep_backward step).

(** An internal block whose steps and priors undo themselves and that has
    one prior per layer. *)
Definition internal_ok (b : MaCowInternalBlock (St:=St)) : Prop :=
  length (layers b) = length (priors b)
  /\ Forall (Forall step_ok) (layers b)
  /\ Forall (fun p => flow_ok (prior_flow p)) (priors b).



(** A block whose components undo themselves. *)
Definition block_ok (blk : Block (St:=St)) : Prop :=
  match blk with
  | BottomBlock b => Forall step_ok (bottom_steps b)
  | InternalBlock b => internal_ok b
  | TopBlock b => Forall step_ok (top_steps b)
  end.

End Contract.

(* ================================================================= *)
(** ** flows/flow.py: the registry of flow classes *)

(** A Python [dict] with string keys, as the list of its items in
    insertion order: a key occurs once, and assigning to a key that is
    present replaces its value in place. *)
Section Dict.
Context {V : Type}.

Fixpoint dict_set (k : string) (v : V) (d : list (string * V)) : list (string * V) :=
  match d with
  | [] => [(k, v)]
  | (k', v') :: d' =>
      if String.eqb k' k then (k, v) :: d' else (k', v') :: dict_set k v d'
  end.

Fixpoint dict_get (k : string) (d : list (string * V)) : option V :=
  match d with
  | [] => None
  | (k', v') :: d' => if String.eqb k' k then Some v' else dict_get k d'
  end.

(** [OrderedDict(items)] *)
Definition ordered_dict (items : list (string * V)) : list (string * V) :=
  fold_left (fun d kv => dict_set (fst kv) (snd kv) d) items [].

End Dict.

(** The exception of a failed [d[key]]. *)
Inductive KeyError : Type := mkKeyError (key : string).

Section Registry.
(** The classes that register themselves. *)
Variable Class : Type.

(** [Flow._registry], the one dictionary that every class of flows
    shares. *)
Definition Registry : Type := list (string * Class).

(** [cls.register(name)]: [Flow._registry[name] = cls]; the registry after
    the call. *)
Definition register (cls : Class) (name : string) (registry : Registry) : Registry :=
  dict_set name cls registry.

(** [Flow.by_name(name)]: [Flow._registry[name]] *)
Definition by_name (name : string) (registry : Registry) : Class + KeyError :=
  match dict_get name registry with
  | Some cls => inl cls
  | None => inr (mkKeyError name)
  end.

End Registry.

(** The classes of the core that register themselves when their module
    is loaded: [MaCow.register('macow')] and [NICE.register('nice')]. *)
Inductive CoreClass : Type := ClassMaCow | ClassNICE.

Definition load_macow (registry : Registry CoreClass) : Registry CoreClass :=
  register ClassMaCow "macow" registry.

Definition load_nice (registry : Registry CoreClass) : Registry CoreClass :=
  register ClassNICE "nice" registry.

(* ================================================================= *)
(** ** data/image.py: batches *)

(** [l[i]] for a Python integer: a negative position counts from the
    end. *)
Definition py_index {A} (l : list A) (i : Z) : result A :=
  let n := Z.of_nat (length l) in
  let j := if (i <? 0)%Z then (i + n)%Z else i in
  if ((j <? 0) || (n <=? j))%Z then Err IndexError
  else index l (Z.to_nat j).

(** [torch.stack(ts, dim=0)]: the tensors, which must be as many as one
    and of one size, along a new leading dimension. *)
Definition stack0 (ts : list Tensor) : result Tensor :=
  match ts with
  | [] => Err (RuntimeError "stack expects a non-empty TensorList")
  | t :: _ =>
      if forallb (fun u => size_eqb (size u) (size t)) ts
      then OK (mkTensor (length ts :: size t) (concat (map storage ts)))
      else Err (RuntimeError "stack expects each tensor to be equal size")
  end.

(** An item of a data set: an image and its label. *)
Definition Sample : Type := (Tensor * Z)%type.

(** A label that fits a signed 64-bit integer. *)
Definition int64_range (l : Z) : bool := ((- 2 ^ 63 <=? l) && (l <? 2 ^ 63))%Z.

(** [torch.LongTensor(labels)]: the list of the labels as 64-bit integers;
    a label outside their range is refused. *)
Definition LongTensor (labels : list Z) : result (list Z) :=
  if forallb int64_range labels then OK labels
  else Err (RuntimeError "Overflow when unpacking long").

(** [get_batch(data, indices)] *)
Definition get_batch (data : list Sample) (indices : list Z)
  : result (Tensor * list Z) :=
  rbind (rmapM (py_index data) indices) (fun samples =>
    let imgs := map fst samples in
    let labels := map snd samples in
    rbind (stack0 imgs) (fun t =>
    rbind (LongTensor labels) (fun labels => OK (t, labels)))).

(** [range(0, stop, step)] *)
Definition range_step (stop : nat) (step : Z) : result (list nat) :=
  if (step =? 0)%Z then Err ValueError
  else if (step <? 0)%Z then OK []
  else
    let s := Z.to_nat step in
    OK (map (fun k => (k * s)%nat) (seq 0 ((stop + s - 1) / s))).

(** A generator run to its end: what it yielded, and the exception that
    ended it, if one did. *)
Definition Gen (A : Type) : Type := (list A * option PyError)%type.

(** [for a in l: yield f(a)] *)
Fixpoint gen_map {A B} (f : A -> result B) (l : list A) : Gen B :=
  match l with
  | [] => ([], None)
  | a :: l' =>
      match f a with
      | OK b => let '(bs, e) := gen_map f l' in (b :: bs, e)
      | Err e => ([], Some e)
      end
  end.

Section Image.
Context {St : Type}.

(** [np.random.shuffle(indices)]: the permutation that the generator of
    the store draws. *)
Variable shuffle_ : list Z -> M St (list Z).

(** [iterate_minibatches(data, indices, batch_size, shuffle)], run to its
    end. *)
Definition iterate_minibatches (data : list Sample) (indices : list Z)
    (batch_size : Z) (shuffle : bool) : M St (Gen (Tensor * list Z)) :=
  indices <- (if shuffle then shuffle_ indices else ret indices) ;;
  match range_step (length indices) batch_size with
  | Err e => ret ([], Some e)
  | OK starts =>
      ret (gen_map (fun start_idx =>
                      let excerpt := firstn (Z.to_nat batch_size) (skipn start_idx indices) in
                      get_batch data excerpt)
                   starts)
  end.

End Image.
(* ================================================================= *)
(** ** flows/dequant.py: the dequantization flow *)

(** ['%d' % n] for a non-negative integer. *)
Definition fmt_d (n : nat) : string := NilEmpty.string_of_uint (Nat.to_uint n).

(** A layer of the encoder, as the call that constructs it: the arguments
    in the order of the call, [None] for one that the call leaves to its
    default. *)
Inductive EncLayer : Type :=
| Conv2dWeightNorm (in_channels out_channels kernel_size : Z)
                   (stride padding : option Z) (bias : bool)
| ELU (inplace : bool)
| ResNet (inplanes : Z) (planes strides : list Z)
| ConvTranspose2dWeightNorm (in_channels out_channels kernel_size stride padding
                             output_padding : Z) (bias : bool).

(** [isinstance(layer, nn.ELU)] *)
Definition is_ELU (layer : EncLayer) : bool :=
  match layer with ELU _ => true | _ => false end.

(** The first loop of [DeQuantFlow.__init__] over [range(levels)]; it
    returns the running [planes], [out_planes] and [layers]. *)
Fixpoint encoder_down (level_range : list nat) (planes : Z) (out_planes : list Z)
    (layers : list (string * EncLayer))
  : result (Z * list Z * list (string * EncLayer)) :=
  match level_range with
  | [] => OK (planes, out_planes, layers)
  | level :: rest =>
      rbind (py_index out_planes (-1)) (fun out_plane =>
      let layers := py_append layers
        (("down" ++ fmt_d level)%string, Conv2dWeightNorm planes out_plane 3 (Some 2%Z) (Some 1%Z) true) in
      let layers := py_append layers (("elu" ++ fmt_d level)%string, ELU true) in
      let layers := py_append layers
        (("resnet" ++ fmt_d level)%string, ResNet out_plane [out_plane; out_plane] [1; 1]%Z) in
      let planes := out_plane in
      let out_planes := py_append out_planes (Z.min (planes * 2) 96) in
      encoder_down rest planes out_planes layers)
  end.

(** The second loop over [range(levels)]. *)
Fixpoint encoder_up (levels : Z) (level_range : list nat) (planes : Z)
    (out_planes : list Z) (layers : list (string * EncLayer))
  : result (Z * list Z * list (string * EncLayer)) :=
  match level_range with
  | [] => OK (planes, out_planes, layers)
  | level :: rest =>
      rbind (py_index out_planes (-1)) (fun out_plane =>
      let layers := py_append layers
        (("up" ++ fmt_d level)%string, ConvTranspose2dWeightNorm planes out_plane 3 2 1 1 true) in
      let layers := py_append layers
        (("elu" ++ fmt_d (level + Z.to_nat levels))%string, ELU true) in
      rbind (py_pop out_planes) (fun '(planes, out_planes) =>
      encoder_up levels rest planes out_planes layers))
  end.

(** The list [layers] that [DeQuantFlow.__init__] builds when
    [s_channels > 0]. *)
Definition encoder_layers (levels in_channels s_channels : Z)
  : result (list (string * EncLayer)) :=
  let layers := [] in
  let planes := in_channels in
  let out_planes := [s_channels; 24%Z] in
  rbind (encoder_down (range levels) planes out_planes layers)
    (fun '(planes, out_planes, layers) =>
  rbind (py_pop out_planes) (fun '(_, out_planes) =>
  rbind (py_pop out_planes) (fun '(planes, out_planes) =>
  rbind (encoder_up levels (range levels) planes out_planes layers)
    (fun '(planes, out_planes, layers) =>
  if negb (length out_planes =? 0)%nat then Err AssertionError
  else
    OK (py_append layers
          ("s_level", Conv2dWeightNorm planes s_channels 1 None None true)))))).

(** The argument [hidden_channels]: the integer that is its default in
    [DeQuantFlow.__init__], or a list. *)
Inductive HiddenChannels : Type :=
| HInt (n : Z)
| HList (l : list Z).

Section DeQuant.
Context {St : Type}.
Variable E : Collab St.

(** [SigmoidFlow(inverse)], of flows/activation.py. *)
Variable SigmoidFlow : bool -> result (Flow St).

(** [layer(out)] and [layer.init(out, init_scale=init_scale)] for the layer
    that the module of the given name holds under the given key, on
    whatever conditioning the flow is handed. *)
Variable layer_call : path -> string -> EncLayer -> Cond -> M St Cond.
Variable layer_init : path -> string -> EncLayer -> Cond -> R -> M St Cond.

Record DeQuantFlow : Type := mkDeQuantFlow {
  dq_name : path;
  macow : MaCow (St:=St);
  dq_sigmoid : Flow St;
  encoder : option (list (string * EncLayer))
}.

(** [MaCow(levels, num_steps, in_channels, kernel_size, factors,
    hidden_channels=hidden_channels, s_channels=s_channels, scale=scale,
    dropout=dropout, inverse=False, bottom=bottom)].  [MaCow.__init__]
    takes [len(hidden_channels)] after its assertions on [levels],
    [kernel_size], [num_steps] and [factors]; an integer has no length. *)
Definition MaCow_of_DeQuantFlow (name : path) (levels : Z) (num_steps : list NumSteps)
    (in_channels : Z) (kernel_size factors : list Z) (hidden_channels : HiddenChannels)
    (s_channels : Z) (scale : bool) (dropout : R) (bottom : bool)
  : result (MaCow (St:=St)) :=
  match hidden_channels with
  | HList h =>
      MaCow_new E name
        (mkMaCowArgs levels num_steps in_channels kernel_size factors h s_channels
           scale true false bottom "conv" None 1 true dropout)
  | HInt _ =>
      if negb (levels >? 1)%Z then Err AssertionError
      else if negb (length kernel_size =? 2)%nat then Err AssertionError
      else if negb (levels =? Z.of_nat (length num_steps))%Z then Err AssertionError
      else
        let factors := if bottom then [0%Z] ++ factors ++ [0%Z] else factors ++ [0%Z] in
        if negb (levels =? Z.of_nat (length factors))%Z then Err AssertionError
        else Err TypeError
  end.

(** [DeQuantFlow.__init__(levels, num_steps, in_channels, kernel_size,
    factors, hidden_channels=512, s_channels=0, scale=True, dropout=0.0,
    bottom=True)] *)
Definition DeQuantFlow_new (name : path) (levels : Z) (num_steps : list NumSteps)
    (in_channels : Z) (kernel_size factors : list Z) (hidden_channels : HiddenChannels)
    (s_channels : Z) (scale : bool) (dropout : R) (bottom : bool)
  : result DeQuantFlow :=
  rbind (MaCow_of_DeQuantFlow (name ++ [Attr "macow"]) levels num_steps in_channels
           kernel_size factors hidden_channels s_channels scale dropout bottom)
    (fun macow_ =>
  rbind (SigmoidFlow false) (fun sigmoid_ =>
  if (s_channels >? 0)%Z then
    rbind (encoder_layers levels in_channels s_channels) (fun layers =>
    OK (mkDeQuantFlow name macow_ sigmoid_ (Some (ordered_dict layers))))
  else OK (mkDeQuantFlow name macow_ sigmoid_ None))).

(** [self.encoder(s)]: the layers of the [nn.Sequential], in order. *)
Fixpoint Sequential_forward (name : path) (layers : list (string * EncLayer)) (s : Cond)
  : M St Cond :=
  match layers with
  | [] => ret s
  | (key, layer) :: rest =>
      s <- layer_call name key layer s ;;
      Sequential_forward name rest s
  end.

(** [DeQuantFlow.init_encoder(s, init_scale=1.0)] *)
Fixpoint init_encoder_loop (name : path) (layers : list (string * EncLayer)) (out : Cond)
    (init_scale : R) : M St Cond :=
  match layers with
  | [] => ret out
  | (key, layer) :: rest =>
      out <- (if is_ELU layer then layer_call name key layer out
              else layer_init name key layer out init_scale) ;;
      init_encoder_loop name rest out init_scale
  end.

(** [DeQuantFlow.forward(input, s=None)] *)
Definition DeQuantFlow_forward (self : DeQuantFlow) (input : Tensor) (s : Cond)
  : M St (Tensor * Tensor) :=
  s <- (match encoder self with
        | Some layers => Sequential_forward (dq_name self ++ [Attr "encoder"]) layers s
        | None => ret s
        end) ;;
  '(out, logdet_accum) <- MaCow_forward E (macow self) input s ;;
  '(out, logdet) <- forward (dq_sigmoid self) out CNone ;;
  logdet_accum <- lift (tadd logdet_accum logdet) ;;
  ret (out, logdet_accum).

(** [DeQuantFlow.backward(input, s=None)] *)
Definition DeQuantFlow_backward (self : DeQuantFlow) (input : Tensor) (s : Cond)
  : M St (Tensor * Tensor) :=
  s <- (match encoder self with
        | Some layers => Sequential_forward (dq_name self ++ [Attr "encoder"]) layers s
        | None => ret s
        end) ;;
  '(out, logdet_accum) <- backward (dq_sigmoid self) input CNone ;;
  '(out, logdet) <- MaCow_backward E (macow self) out s ;;
  logdet_accum <- lift (tadd logdet_accum logdet) ;;
  ret (out, logdet_accum).

(** [DeQuantFlow.init(data, s=None, init_scale=1.0)] *)
Definition DeQuantFlow_init (self : DeQuantFlow) (data : Tensor) (s : Cond)
    (init_scale : R) : M St (Tensor * Tensor) :=
  s <- (match encoder self with
        | Some layers =>
            init_encoder_loop (dq_name self ++ [Attr "encoder"]) layers s init_scale
        | None => ret s
        end) ;;
  '(out, logdet_accum) <- MaCow_init E (macow self) data s init_scale ;;
  '(out, logdet) <- init (dq_sigmoid self) out CNone init_scale ;;
  logdet_accum <- lift (tadd logdet_accum logdet) ;;
  ret (out, logdet_accum).

(** A [DeQuantFlow] object seen through the [Flow] interface;
    [super().__init__(False)] sets its flag. *)
Definition DeQuantFlow_flow (self : DeQuantFlow) : Flow St :=
  mkFlow false (DeQuantFlow_forward self) (DeQuantFlow_backward self)
         (DeQuantFlow_init self).

(** The layers of the encoder called with fixed parameters: a call leaves
    the store as it found it. *)
Definition layers_pure : Prop :=
  forall name key layer s st0 r st1,
    layer_call name key layer s st0 = (r, st1) -> st1 = st0.

End DeQuant.

(** The width of the encoder after the down-sampling of level [i]:
    24, 48, 96, 96, ... *)
Definition enc_width (i : nat) : Z := Z.min (24 * 2 ^ Z.of_nat i) 96.

(** The encoder as a table: [levels] down-samplings from [in_channels]
    through the widths [enc_width], the up-samplings back through the same
    widths to [s_channels], and a final convolution. *)
Definition encoder_table (levels : nat) (in_channels s_channels : Z)
  : list (string * EncLayer) :=
  let down := in_channels :: map enc_width (seq 0 levels) in
  let up := rev (s_channels :: map enc_width (seq 0 levels)) in
  flat_map (fun i =>
      [ (("down" ++ fmt_d i)%string,
         Conv2dWeightNorm (nth i down 0%Z) (enc_width i) 3 (Some 2%Z) (Some 1%Z) true);
        (("elu" ++ fmt_d i)%string, ELU true);
        (("resnet" ++ fmt_d i)%string, ResNet (enc_width i) [enc_width i; enc_width i] [1; 1]%Z) ])
    (seq 0 levels)
  ++ flat_map (fun i =>
      [ (("up" ++ fmt_d i)%string,
         ConvTranspose2dWeightNorm (nth i up 0%Z) (nth (S i) up 0%Z) 3 2 1 1 true);
        (("elu" ++ fmt_d (i + levels))%string, ELU true) ])
    (seq 0 levels)
  ++ [("s_level", Conv2dWeightNorm s_channels s_channels 1 None None true)].

(** Layers for a small encoder: every layer adds one to the tensor it is
    given, and refuses anything else. *)
Definition add_one_layer : path -> string -> EncLayer -> Cond -> M unit Cond :=
  fun _ _ _ s =>
    match s with
    | CTensor t => ret (CTensor (add_scalar t 1))
    | _ => raise TypeError
    end.

(** The dequantization flow that [DeQuantFlow.__init__] builds over the
    small pyramid with one conditioning channel, a doubling flow in the
    place of the sigmoid flow. *)
Definition small_sigmoid : bool -> result (Flow unit) :=
  fun inv => OK (channel_flow 1 inv).

Definition small_dequant : DeQuantFlow (St:=unit) :=
  mkDeQuantFlow [] small_macow (channel_flow 1 false) (Some (encoder_table 3 1 1)).

Definition same_layer_init : path -> string -> EncLayer -> Cond -> R -> M unit Cond :=
  fun _ _ _ s _ => ret s.
(* ================================================================= *)
(** ** Properties of the adapters *)

Lemma mul_scalar_m1 (t : Tensor) : mul_scalar t (-1) = tneg t.
Proof.
  unfold mul_scalar, tneg. f_equal.
  apply map_ext. intro v. ring.
Qed.

Lemma bind_ret_id {St A} (m : M St A) (st : St) :
  bind m (fun a => ret a) st = m st.
Proof.
  unfold bind, ret. destruct (m st) as [[a|e] st']; reflexivity.
Qed.

(** C4. The two misuses of the adapters -- [fwdpass(init=True)] on an
    inverse flow and [bwdpass(init=True)] on a non-inverse flow -- raise the
    configuration error with the store untouched and whatever the flow's
    own methods are, so before any of them runs; with [init=False] the same
    adapters raise nothing of their own and hand the call to [backward]. *)
Theorem adapter_misuse_rejected St
    (fw bw : Tensor -> Cond -> M St (Tensor * Tensor))
    (ini : Tensor -> Cond -> R -> M St (Tensor * Tensor))
    (x : Tensor) (h : list Tensor) (init_scale : R) (st : St) :
  fwdpass (mkFlow true fw bw ini) x h true init_scale st
    = (Err (RuntimeError "inverse flow shold be initialized with backward pass"), st)
  /\ bwdpass (mkFlow false fw bw ini) x h true init_scale st
    = (Err (RuntimeError "forward flow should be initialzed with forward pass"), st)
  /\ fwdpass (mkFlow true fw bw ini) x h false init_scale st
    = negate_logdet (bw x (CTuple h) st)
  /\ bwdpass (mkFlow false fw bw ini) x h false init_scale st
    = bw x (CTuple h) st.
Proof.
  repeat split.
  - unfold fwdpass, bind; simpl.
    destruct (bw x (CTuple h) st) as [[[y ld]|e] st']; simpl; try reflexivity.
    unfold ret. now rewrite mul_scalar_m1.
  - unfold bwdpass, bind; simpl.
    destruct (bw x (CTuple h) st) as [[[y ld]|e] st']; reflexivity.
Qed.

(** In forward mode [fwdpass(x, *h)] is [forward(x, h)] with the
    log-determinant negated: the tuple [h] is handed on as one argument. *)
Lemma fwdpass_negates_forward_logdet St
    (fw bw : Tensor -> Cond -> M St (Tensor * Tensor))
    (ini : Tensor -> Cond -> R -> M St (Tensor * Tensor))
    (x : Tensor) (h : list Tensor) (init_scale : R) (st : St) :
  fwdpass (mkFlow false fw bw ini) x h false init_scale st
    = negate_logdet (fw x (CTuple h) st).
Proof.
  unfold fwdpass, bind; simpl.
  destruct (fw x (CTuple h) st) as [[[y ld]|e] st']; simpl; try reflexivity.
  unfold ret. now rewrite mul_scalar_m1.
Qed.

(** *** The coupling flow behind the adapters *)

(** The network of a coupling flow refuses a tuple as conditioning:
    [torch.cat([x, s], dim=1)] takes tensors. *)
Lemma NICEBlock_tuple_raises St (blk : NICEBlock (St:=St)) (z : Tensor) (h : list Tensor)
    (init_scale : R) (st : St) :
  NICEBlock_forward blk z (CTuple h) st = (Err TypeError, st)
  /\ NICEBlock_init blk z (CTuple h) init_scale st = (Err TypeError, st).
Proof. split; reflexivity. Qed.

(** So no method of a coupling flow returns when its conditioning is a
    tuple, and the store is as it was. *)
Lemma NICE_tuple_raises St (self : NICE (St:=St)) (x : Tensor) (h : list Tensor)
    (init_scale : R) (st : St) :
  (exists e, NICE_forward self x (CTuple h) st = (Err e, st))
  /\ (exists e, NICE_backward self x (CTuple h) st = (Err e, st))
  /\ (exists e, NICE_init self x (CTuple h) init_scale st = (Err e, st)).
Proof.
  unfold NICE_forward, NICE_backward, NICE_init, calc_mu_and_scale, init_net.
  unfold bind, lift.
  destruct (slice_to (nice_z1_channels self) x) as [z1|e];
    [|repeat split; now exists e].
  destruct (slice_from (nice_z1_channels self) x) as [z2|e];
    [|repeat split; now exists e].
  destruct (NICEBlock_tuple_raises (net self) z1 h init_scale st) as [-> ->].
  repeat split; now exists TypeError.
Qed.

(** Behind either adapter, in either mode and with or without
    initialisation, a coupling flow raises. *)
Lemma NICE_adapters_raise St (self : NICE (St:=St)) (x : Tensor) (h : list Tensor)
    (init_ : bool) (init_scale : R) (st : St) :
  (exists e, fwdpass (NICE_flow self) x h init_ init_scale st = (Err e, st))
  /\ (exists e, bwdpass (NICE_flow self) x h init_ init_scale st = (Err e, st)).
Proof.
  destruct (NICE_tuple_raises self x h init_scale st) as ((e1 & H1) & (e2 & H2) & (e3 & H3)).
  unfold fwdpass, bwdpass, bind, raise.
  cbn [NICE_flow inverse forward backward init].
  destruct (nice_inverse self), init_; rewrite ?H1, ?H2, ?H3; split; eauto.
Qed.

(** C5. On the coupling flow of nice.py in forward mode, [forward(x)]
    returns [(y, logdet)] and [fwdpass(x)] raises [TypeError] instead of
    returning [(y, -logdet)]: the adapter hands its empty tuple of extra
    arguments on as the conditioning, [forward(x, ())], and the network's
    [torch.cat([x, s], dim=1)] refuses it.  The same holds of every
    coupling flow, every input and every extra argument: [fwdpass] never
    returns. *)
Theorem fwdpass_of_NICE_raises :
  NICE_forward (shift_nice false) two_channels CNone tt
    = (OK (mkTensor [1; 2; 1; 1]%nat [3; 4 + 5], new_zeros 1), tt)
  /\ fwdpass (NICE_flow (shift_nice false)) two_channels [] false 1 tt
    = (Err TypeError, tt)
  /\ (forall St (self : NICE (St:=St)) (x : Tensor) (h : list Tensor) (st : St),
        exists e, fwdpass (NICE_flow self) x h false 1 st = (Err e, st)).
Proof.
  split; [reflexivity|]. split; [reflexivity|].
  intros St self x h st. exact (proj1 (NICE_adapters_raise self x h false 1 st)).
Qed.
(* ================================================================= *)
(** ** Properties of the model wrappers *)

Lemma map2_diag {A C} (f : A -> A -> C) (l : list A) :
  map2 f l l = map (fun v => f v v) l.
Proof. induction l; simpl; congruence. Qed.

Lemma length_map2 {A B C} (f : A -> B -> C) (l1 : list A) (l2 : list B) :
  length l1 = length l2 -> length (map2 f l1 l2) = length l1.
Proof.
  revert l2; induction l1 as [|a l1 IH]; intros [|b l2] H; simpl in *; try congruence.
  f_equal. apply IH. congruence.
Qed.

Lemma nth_map2 {A B C} (f : A -> B -> C) (l1 : list A) (l2 : list B) (i : nat)
    (d : C) (d1 : A) (d2 : B) :
  (i < length l1)%nat -> (i < length l2)%nat ->
  nth i (map2 f l1 l2) d = f (nth i l1 d1) (nth i l2 d2).
Proof.
  revert l2 i; induction l1 as [|a l1 IH]; intros [|b l2] [|i] H1 H2;
    simpl in *; try lia; try reflexivity.
  apply IH; lia.
Qed.

Lemma nth_map_lt {A B} (f : A -> B) (l : list A) (i : nat) (d : B) (d' : A) :
  (i < length l)%nat -> nth i (map f l) d = f (nth i l d').
Proof.
  intro H. rewrite nth_indep with (d' := f d') by now rewrite length_map.
  apply map_nth.
Qed.

Lemma length_rows {A} (n d : nat) (l : list A) : length (rows n d l) = n.
Proof. revert l; induction n; intro l; simpl; [reflexivity | now rewrite IHn]. Qed.

Lemma rows_map {A B} (f : A -> B) (n d : nat) (l : list A) :
  rows n d (map f l) = map (map f) (rows n d l).
Proof.
  revert l; induction n as [|n IH]; intro l; simpl; [reflexivity|].
  rewrite firstn_map, skipn_map, IH. reflexivity.
Qed.

Lemma size_eqb_refl (sz : list nat) : size_eqb sz sz = true.
Proof. unfold size_eqb. destruct (list_eq_dec Nat.eq_dec sz sz); congruence. Qed.

Lemma size_eqb_eq (a b : list nat) : size_eqb a b = true -> a = b.
Proof. unfold size_eqb. destruct (list_eq_dec Nat.eq_dec a b); congruence. Qed.

Lemma encode_is_bwdpass St (m : FlowGenModel (St:=St)) (x : Tensor) (st : St) :
  encode m x st = bwdpass (flow m) x [] false 1 st.
Proof.
  unfold encode, bind, ret.
  destruct (bwdpass (flow m) x [] false 1 st) as [[[z ld]|e] st']; reflexivity.
Qed.

(** The Gaussian term that [log_probability] and [dequantize] compute from
    a tensor [z], combined by [f] (a sum or a difference) with a
    log-determinant. *)
Lemma gaussian_log_density (f : R -> R -> R) (z logdet : Tensor) (b : nat) (rest : list nat) :
  size z = S b :: rest -> size logdet = [S b] -> length (storage logdet) = S b ->
  exists lp,
    rbind (view_rows z) (fun z' =>
    rbind (tmul z' z') (fun zz =>
    rbind (sum_dim1 zz) (fun sq =>
    rbind (size_at z' 1) (fun d =>
      ebinop f (mul_scalar (add_scalar sq (log_2pi * INR d)) (-0.5)) logdet)))) = OK lp
    /\ size lp = [S b]
    /\ length (storage lp) = S b
    /\ forall i, (i < S b)%nat ->
         nth i (storage lp) 0
         = f (-0.5 * (sqnorm (sample z i) + INR (numel rest) * log_2pi))
             (nth i (storage logdet) 0).
Proof.
  intros Hz Hld Hlen.
  unfold view_rows. rewrite Hz. cbn [rbind].
  unfold tmul, ebinop. cbn [size storage].
  rewrite size_eqb_refl, Nat.eqb_refl. cbn [andb rbind].
  unfold sum_dim1. cbn [size storage rbind].
  unfold size_at. cbn [size nth_error rbind].
  cbn [size storage mul_scalar add_scalar].
  rewrite Hld, size_eqb_refl, Hlen.
  rewrite !length_map, length_rows, Nat.eqb_refl. cbn [andb].
  eexists; split; [reflexivity|]. split; [reflexivity|]. cbn [storage].
  split.
  { rewrite length_map2; rewrite !length_map, length_rows; congruence. }
  intros i Hi.
  rewrite nth_map2 with (d1 := 0) (d2 := 0);
    [| now rewrite !length_map, length_rows | lia].
  f_equal.
  rewrite nth_map_lt with (d' := 0) by now rewrite !length_map, length_rows.
  rewrite nth_map_lt with (d' := 0) by now rewrite !length_map, length_rows.
  rewrite nth_map_lt with (d' := []) by now rewrite length_rows.
  unfold sample, sqnorm. rewrite Hz. cbn [hd tl].
  rewrite map2_diag, rows_map.
  rewrite nth_map_lt with (d' := []) by now rewrite length_rows.
  lra.
Qed.

(** Where the flow's [bwdpass] returns, [log_probability(x)] returns, for
    each sample [i], [-0.5 * (||z_i||^2 + d * log(2 pi))] plus the
    log-determinant of the sample, where [(z, logdet)] is what [encode]
    returned and [d] is the number of elements of a flattened latent
    sample. *)
Lemma log_probability_formula St (m : FlowGenModel (St:=St)) (x : Tensor) (st st' : St)
    (z logdet : Tensor) (b : nat) (rest : list nat) :
  bwdpass (flow m) x [] false 1 st = (OK (z, logdet), st') ->
  size z = S b :: rest ->
  size logdet = [S b] -> length (storage logdet) = S b ->
  encode m x st = (OK (z, logdet), st')
  /\ exists lp,
       log_probability m x st = (OK lp, st')
       /\ size lp = [S b]
       /\ forall i, (i < S b)%nat ->
            nth i (storage lp) 0
            = -0.5 * (sqnorm (sample z i) + INR (numel rest) * log_2pi)
              + nth i (storage logdet) 0.
Proof.
  intros Hb Hz Hld Hlen.
  assert (He : encode m x st = (OK (z, logdet), st'))
    by now rewrite encode_is_bwdpass.
  split; [exact He|].
  destruct (gaussian_log_density Rplus z logdet Hz Hld Hlen)
    as (lp & Hlp & Hsz & _ & Hval).
  exists lp. split; [|split; assumption].
  unfold log_probability, bind at 1. rewrite He.
  unfold bind, lift.
  unfold rbind in Hlp.
  destruct (view_rows z) as [z'|e]; [|discriminate].
  destruct (tmul z' z') as [zz|e]; [|discriminate].
  destruct (sum_dim1 zz) as [sq|e]; [|discriminate].
  destruct (size_at z' 1) as [d|e]; [|discriminate].
  unfold tadd. now rewrite Hlp.
Qed.

(** The same on a flow that ignores its conditioning. *)
Lemma log_probability_formula_witness :
  exists lp,
    log_probability (mkFlowGenModel (doubling_flow true))
      (mkTensor [2; 1; 1; 2]%nat [1; 2; 3; 4]) tt = (OK lp, tt)
    /\ size lp = [2%nat]
    /\ nth 1 (storage lp) 0
       = -0.5 * (sqnorm [3 * 2; 4 * 2] + INR 2 * log_2pi) + 1 * (INR 2 * ln 2).
Proof.
  destruct (@log_probability_formula unit (mkFlowGenModel (doubling_flow true))
              (mkTensor [2; 1; 1; 2]%nat [1; 2; 3; 4]) tt tt
              (mkTensor [2; 1; 1; 2]%nat [1 * 2; 2 * 2; 3 * 2; 4 * 2])
              (mkTensor [2%nat] [1 * (INR 2 * ln 2); 1 * (INR 2 * ln 2)])
              1%nat [1; 1; 2]%nat
              eq_refl eq_refl eq_refl eq_refl) as (_ & lp & Hlp & Hsz & Hval).
  exists lp. split; [exact Hlp|]. split; [exact Hsz|].
  exact (Hval 1%nat (le_n 2)).
Defined.

(** C2. Over the coupling flow of nice.py in inverse mode, which
    [FlowGenModel.__init__] accepts and whose [forward(x)] returns,
    [encode(x)] and with it [log_probability(x)] raise [TypeError] instead
    of returning the density: [encode] goes through [bwdpass], which hands
    its empty tuple of extra arguments on as the conditioning.  The same
    holds of every coupling flow and every input: [log_probability] never
    returns. *)
Theorem log_probability_of_NICE_raises :
  FlowGenModel_new (fun f _ => f) (NICE_flow (shift_nice true)) 1 0
    = OK (mkFlowGenModel (NICE_flow (shift_nice true)))
  /\ NICE_forward (shift_nice true) two_channels CNone tt
     = (OK (mkTensor [1; 2; 1; 1]%nat [3; 4 + 5], new_zeros 1), tt)
  /\ encode (mkFlowGenModel (NICE_flow (shift_nice true))) two_channels tt
     = (Err TypeError, tt)
  /\ log_probability (mkFlowGenModel (NICE_flow (shift_nice true))) two_channels tt
     = (Err TypeError, tt)
  /\ (forall St (self : NICE (St:=St)) (x : Tensor) (st : St),
        exists e, log_probability (mkFlowGenModel (NICE_flow self)) x st = (Err e, st)).
Proof.
  split; [reflexivity|]. split; [reflexivity|]. split; [reflexivity|].
  split; [reflexivity|].
  intros St self x st.
  destruct (proj2 (NICE_adapters_raise self x [] false 1 st)) as (e & He).
  exists e. unfold log_probability. unfold bind at 1.
  rewrite encode_is_bwdpass. cbn [flow]. now rewrite He.
Qed.

(** *** Broadcasting an image over the noise draws *)

Lemma map_add_zero (l : list R) : map (fun v => v + 0) l = l.
Proof.
  induction l as [|a l IH]; simpl; [reflexivity|].
  rewrite IH. f_equal. ring.
Qed.

Lemma concat_map_repeat {A} (n : nat) (rs : list (list A)) :
  concat (map (fun s => concat (repeat s n)) rs)
  = concat (flat_map (fun s => repeat s n) rs).
Proof.
  induction rs as [|r rs IH]; simpl; [reflexivity|].
  now rewrite concat_app, IH.
Qed.

Lemma rows_exact {A} (n d : nat) (l : list A) :
  length l = (n * d)%nat -> Forall (fun r => length r = d) (rows n d l).
Proof.
  revert l; induction n as [|n IH]; intros l Hl; simpl; constructor.
  - rewrite length_firstn. simpl in Hl. lia.
  - apply IH. rewrite length_skipn. simpl in Hl. lia.
Qed.

Lemma rows_concat {A} (d : nat) (ls : list (list A)) :
  Forall (fun r => length r = d) ls -> rows (length ls) d (concat ls) = ls.
Proof.
  induction 1 as [|r ls Hr _ IH]; simpl; [reflexivity|].
  subst d.
  rewrite firstn_app, skipn_app, Nat.sub_diag, firstn_all, skipn_all. simpl.
  now rewrite app_nil_r, IH.
Qed.

Lemma Forall_flat_map_repeat {A} (P : A -> Prop) (n : nat) (rs : list A) :
  Forall P rs -> Forall P (flat_map (fun s => repeat s n) rs).
Proof.
  induction 1 as [|r rs Hr _ IH]; simpl; [constructor|].
  apply Forall_app; split; [|exact IH].
  apply Forall_forall. intros y Hy. apply repeat_spec in Hy. now subst.
Qed.

Lemma length_flat_map_repeat {A} (n : nat) (rs : list A) :
  length (flat_map (fun s => repeat s n) rs) = (length rs * n)%nat.
Proof.
  induction rs as [|r rs IH]; simpl; [reflexivity|].
  rewrite length_app, repeat_length, IH. reflexivity.
Qed.

Lemma nth_flat_map_repeat {A} (n : nat) (rs : list A) (k j : nat) (d : A) :
  (j < n)%nat ->
  nth (k * n + j) (flat_map (fun s => repeat s n) rs) d = nth k rs d.
Proof.
  intro Hj. revert k; induction rs as [|r rs IH]; intro k; simpl.
  - destruct (k * n + j)%nat, k; reflexivity.
  - destruct k as [|k]; simpl.
    + rewrite app_nth1 by now rewrite repeat_length.
      apply nth_repeat_lt. exact Hj.
    + rewrite app_nth2 by (rewrite repeat_length; lia).
      rewrite repeat_length.
      replace (n + k * n + j - n)%nat with (k * n + j)%nat by lia.
      apply IH.
Qed.

(** Sample [k * n + j] of the repeated tensor is sample [k] of the image:
    the draws of one image are consecutive and images keep their order. *)
Lemma sample_repeat_samples (x : Tensor) (b n k j : nat) (rest : list nat) :
  wf x -> size x = b :: rest -> (j < n)%nat ->
  sample (repeat_samples x n) (k * n + j) = sample x k.
Proof.
  intros Hwf Hsz Hj. unfold wf in Hwf. rewrite Hsz in Hwf. simpl in Hwf.
  unfold sample, repeat_samples. rewrite Hsz. cbn [size storage hd tl].
  pose proof (rows_exact b (numel rest) (storage x) Hwf) as Hrows.
  rewrite <- (length_rows b (numel rest) (storage x)) at 1.
  rewrite <- length_flat_map_repeat.
  rewrite rows_concat by now apply Forall_flat_map_repeat.
  now apply nth_flat_map_repeat.
Qed.

(** What [dequantize] passes as conditioning when [nsamples > 1]. *)
Lemma expand_then_view (x : Tensor) (b n : nat) (rest : list nat) :
  size x = b :: rest ->
  rbind (expand_dim1 x n) (fun x' => view x' ((b * n)%nat :: rest))
  = OK (repeat_samples x n).
Proof.
  intro Hsz. unfold expand_dim1, view, repeat_samples. rewrite Hsz.
  cbn [rbind size storage hd tl numel fold_right].
  replace (b * n * fold_right Nat.mul 1 rest =? b * (n * fold_right Nat.mul 1 rest))%nat
    with true by (symmetry; apply Nat.eqb_eq; lia).
  do 2 f_equal.
  rewrite <- concat_map_repeat. f_equal.
  apply map_ext. intro s. now rewrite map_add_zero.
Qed.

Lemma concat_rows {A} (n d : nat) (l : list A) :
  length l = (n * d)%nat -> concat (rows n d l) = l.
Proof.
  revert l; induction n as [|n IH]; intros l Hl; simpl in *.
  - destruct l; [reflexivity | discriminate].
  - rewrite IH by (rewrite length_skipn; lia). apply firstn_skipn.
Qed.

Lemma flat_map_singleton {A} (rs : list A) : flat_map (fun s => repeat s 1) rs = rs.
Proof.
  induction rs as [|r rs IH]; [reflexivity|].
  change (r :: flat_map (fun s => repeat s 1) rs = r :: rs). now rewrite IH.
Qed.

Lemma repeat_samples_once (x : Tensor) (b : nat) (rest : list nat) :
  wf x -> size x = b :: rest -> repeat_samples x 1 = x.
Proof.
  intros Hwf Hsz. unfold wf in Hwf. rewrite Hsz in Hwf. simpl in Hwf.
  destruct x as [sz sto]. simpl in *. subst sz.
  unfold repeat_samples. cbn [size storage hd tl].
  rewrite flat_map_singleton, concat_rows by exact Hwf.
  now rewrite Nat.mul_1_r.
Qed.

Lemma bind_lift_OK {St A B} (r : result A) (a : A) (k : A -> M St B) (st : St) :
  r = OK a -> bind (lift r) k st = k a st.
Proof. intros ->. reflexivity. Qed.

(** Where the dequantization flow's [fwdpass] returns: for an image [x]
    of [b >= 1] samples and [nsamples >= 1], [dequantize] draws noise of
    size [b * nsamples, ...], conditions the [fwdpass] on the image
    repeated [nsamples] times with the samples in order, and returns [u]
    with size [b, nsamples, ...] and, for each draw [i], the log-posterior
    [-0.5 ||eps_i||^2 - 0.5 d log(2 pi) - logdet_i], with size
    [b, nsamples]. *)
Lemma dequantize_formula St (randn : list nat -> M St Tensor)
    (m : VDeQuantFlowGenModel (St:=St)) (x : Tensor) (nsamples : Z)
    (st st1 st2 : St) (eps u logdet : Tensor) (b : nat) (rest : list nat) :
  (1 <= nsamples)%Z ->
  wf x -> size x = S b :: rest ->
  randn ((S b * Z.to_nat nsamples)%nat :: rest) st = (OK eps, st1) ->
  size eps = (S b * Z.to_nat nsamples)%nat :: rest ->
  fwdpass (dequant_flow m) eps [repeat_samples x (Z.to_nat nsamples)] false 1 st1
    = (OK (u, logdet), st2) ->
  size u = size eps ->
  size logdet = [(S b * Z.to_nat nsamples)%nat] ->
  length (storage logdet) = (S b * Z.to_nat nsamples)%nat ->
  (forall k j, (j < Z.to_nat nsamples)%nat ->
     sample (repeat_samples x (Z.to_nat nsamples)) (k * Z.to_nat nsamples + j)
     = sample x k)
  /\ exists lp,
       dequantize randn m x nsamples st
         = (OK (mkTensor (S b :: Z.to_nat nsamples :: rest) (storage u), lp), st2)
       /\ size lp = [S b; Z.to_nat nsamples]
       /\ forall i, (i < S b * Z.to_nat nsamples)%nat ->
            nth i (storage lp) 0
            = -0.5 * sqnorm (sample eps i) - 0.5 * INR (numel rest) * log_2pi
              - nth i (storage logdet) 0.
Proof.
  intros Hn Hwf Hx Hr He Hf Hu Hld Hlen.
  set (n := Z.to_nat nsamples) in *.
  assert (Hn1 : (1 <= n)%nat) by (subst n; lia).
  split.
  { intros k j Hj. now apply sample_repeat_samples with (b := S b) (rest := rest). }
  destruct (S b * n)%nat as [|B] eqn:HB; [lia|].
  destruct (gaussian_log_density Rminus eps logdet He Hld Hlen)
    as (lp & Hlp & Hsz & Hlplen & Hval).
  exists (mkTensor [S b; n] (storage lp)).
  split; [|split; [reflexivity|]].
  - unfold dequantize.
    rewrite bind_lift_OK with (a := S b)
      by (unfold size_at; now rewrite Hx).
    unfold bind at 1.
    replace (Z.of_nat (S b) * nsamples <? 0)%Z with false by (symmetry; apply Z.ltb_ge; lia).
    unfold ret at 1.
    replace (Z.to_nat (Z.of_nat (S b) * nsamples)) with (S B)
      by (rewrite <- HB; subst n; rewrite Z2Nat.inj_mul, Nat2Z.id; lia).
    rewrite Hx. cbn [tl].
    unfold bind at 1. rewrite Hr.
    assert (Hcond :
      (if (nsamples >? 1)%Z
       then bind (lift (expand_dim1 x (Z.to_nat nsamples)))
                 (fun x0 => lift (view x0 (size eps)))
       else ret x) st1 = (@OK Tensor (repeat_samples x n), st1)).
    { destruct (nsamples >? 1)%Z eqn:Hgt.
      - fold n. pose proof (expand_then_view x n Hx) as Hev.
        unfold rbind in Hev. unfold bind, lift.
        destruct (expand_dim1 x n) as [x'|e]; [|discriminate].
        rewrite He, <- HB. now rewrite Hev.
      - assert (n = 1%nat) by (subst n; lia).
        unfold ret. now rewrite H, (repeat_samples_once Hwf Hx). }
    unfold bind at 1. rewrite Hcond.
    assert (Htl : tl (size (repeat_samples x n)) = rest)
      by (unfold repeat_samples; rewrite Hx; reflexivity).
    rewrite Htl.
    unfold bind at 1. fold n in Hf. rewrite Hf.
    unfold rbind in Hlp. unfold bind, lift.
    destruct (view_rows eps) as [e'|e]; [|discriminate].
    destruct (tmul e' e') as [ee|e]; [|discriminate].
    destruct (sum_dim1 ee) as [sq|e]; [|discriminate].
    destruct (size_at e' 1) as [d|e]; [|discriminate].
    unfold tsub. rewrite Hlp.
    unfold view. rewrite Hu, He, Hsz. fold n.
    cbn [numel fold_right].
    replace (S b * (n * fold_right Nat.mul 1 rest) =? S B * fold_right Nat.mul 1 rest)%nat
      with true by (symmetry; apply Nat.eqb_eq; rewrite <- HB; lia).
    replace (S b * (n * 1) =? S B * 1)%nat
      with true by (symmetry; apply Nat.eqb_eq; rewrite <- HB; lia).
    reflexivity.
  - intros i Hi. cbn [storage]. rewrite (Hval i Hi). lra.
Qed.

(** The same on a flow that ignores its conditioning. *)
Lemma dequantize_formula_witness :
  exists lp,
    dequantize randn_ones
      (mkVDeQuantFlowGenModel (mkFlowGenModel (doubling_flow true)) (doubling_flow false))
      (mkTensor [1; 1; 1; 2]%nat [3; 4]) 2 tt
    = (OK (mkTensor [1; 2; 1; 1; 2]%nat [1 * 2; 1 * 2; 1 * 2; 1 * 2], lp), tt)
    /\ size lp = [1; 2]%nat
    /\ nth 1 (storage lp) 0
       = -0.5 * sqnorm [1; 1] - 0.5 * INR 2 * log_2pi - (1 * (INR 2 * ln 2)) * -1.
Proof.
  destruct (@dequantize_formula unit randn_ones
              (mkVDeQuantFlowGenModel (mkFlowGenModel (doubling_flow true))
                                      (doubling_flow false))
              (mkTensor [1; 1; 1; 2]%nat [3; 4]) 2 tt tt tt
              (mkTensor [2; 1; 1; 2]%nat [1; 1; 1; 1])
              (mkTensor [2; 1; 1; 2]%nat [1 * 2; 1 * 2; 1 * 2; 1 * 2])
              (mkTensor [2%nat] [(1 * (INR 2 * ln 2)) * -1; (1 * (INR 2 * ln 2)) * -1])
              0%nat [1; 1; 2]%nat
              ltac:(lia) eq_refl eq_refl eq_refl eq_refl eq_refl eq_refl eq_refl eq_refl)
    as (_ & lp & Hlp & Hsz & Hval).
  exists lp. split; [exact Hlp|]. split; [exact Hsz|].
  exact (Hval 1%nat (le_n 2)).
Defined.

(** C8. With the coupling flow of nice.py in forward mode as
    dequantization flow, which [VDeQuantFlowGenModel.__init__] accepts and
    whose [forward(epsilon, x)] returns on the noise and the image,
    [dequantize(x)] raises [TypeError] instead of returning the noise and
    its log-posterior: [fwdpass(epsilon, x)] hands the tuple [(x,)] on as
    the conditioning.  The same holds of every coupling flow, every image,
    every number of draws and every generator: [dequantize] never
    returns. *)
Theorem dequantize_over_NICE_raises :
  VDeQuantFlowGenModel_new (fun f _ => f) (NICE_flow (shift_nice true))
      (NICE_flow (shift_nice false)) 1 (0, 0)%Z
    = OK (mkVDeQuantFlowGenModel (mkFlowGenModel (NICE_flow (shift_nice true)))
                                 (NICE_flow (shift_nice false)))
  /\ randn_ones [1; 2; 1; 1]%nat tt = (OK (mkTensor [1; 2; 1; 1]%nat [1; 1]), tt)
  /\ NICE_forward (shift_nice false) (mkTensor [1; 2; 1; 1]%nat [1; 1])
       (CTensor two_channels) tt
     = (OK (mkTensor [1; 2; 1; 1]%nat [1; 1 + 5], new_zeros 1), tt)
  /\ dequantize randn_ones
       (mkVDeQuantFlowGenModel (mkFlowGenModel (NICE_flow (shift_nice true)))
                               (NICE_flow (shift_nice false)))
       two_channels 1 tt
     = (Err TypeError, tt)
  /\ (forall St (randn : list nat -> M St Tensor) (b : FlowGenModel (St:=St))
             (self : NICE (St:=St)) (x : Tensor) (nsamples : Z) (st : St),
        exists e st',
          dequantize randn (mkVDeQuantFlowGenModel b (NICE_flow self)) x nsamples st
          = (Err e, st')).
Proof.
  split; [reflexivity|]. split; [reflexivity|]. split; [reflexivity|].
  split; [reflexivity|].
  intros St randn b self x nsamples st.
  unfold dequantize. cbn [dequant_flow].
  unfold bind at 1. unfold lift at 1.
  destruct (size_at x 0) as [batch|e]; [|now exists e, st].
  unfold bind at 1.
  destruct (Z.of_nat batch * nsamples <? 0)%Z; [unfold raise; eauto|].
  unfold ret at 1. unfold bind at 1.
  destruct (randn _ st) as [[eps|e] st1]; [|now exists e, st1].
  unfold bind at 1.
  destruct ((if (nsamples >? 1)%Z
             then bind (lift (expand_dim1 x (Z.to_nat nsamples)))
                       (fun x0 => lift (view x0 (size eps)))
             else ret x) st1) as [[x'|e] st2]; [|now exists e, st2].
  destruct (proj1 (NICE_adapters_raise self eps [x'] false 1 st2)) as (e & He).
  exists e, st2. unfold bind at 1. now rewrite He.
Qed.
(* ================================================================= *)
(** ** Inversion of monadic calls *)

Lemma bind_OK_inv {St A B} (m : M St A) (k : A -> M St B) (st st' : St) (b : B) :
  bind m k st = (OK b, st') ->
  exists a st1, m st = (OK a, st1) /\ k a st1 = (OK b, st').
Proof.
  unfold bind. destruct (m st) as [[a|e] st1]; [|discriminate].
  intro H. now exists a, st1.
Qed.

Lemma lift_OK_inv {St A} (r : result A) (st st' : St) (a : A) :
  lift r st = (OK a, st') -> r = OK a /\ st' = st.
Proof. unfold lift. intro H. inversion H. now split. Qed.

Lemma ret_OK_inv {St A} (a a' : A) (st st' : St) :
  ret a st = (OK a', st') -> a' = a /\ st' = st.
Proof. unfold ret. intro H. inversion H. now split. Qed.

Lemma rbind_OK_inv {A B} (r : result A) (k : A -> result B) (b : B) :
  rbind r k = OK b -> exists a, r = OK a /\ k a = OK b.
Proof. destruct r as [a|e]; simpl; [|discriminate]. intro H. now exists a. Qed.

(** Take apart the hypotheses saying that a sequence of calls returned. *)
Ltac minv :=
  repeat match goal with
  | H : bind _ _ _ = (OK _, _) |- _ =>
      apply bind_OK_inv in H; destruct H as (? & ? & ? & H)
  | H : lift _ _ = (OK _, _) |- _ =>
      apply lift_OK_inv in H; destruct H as [H ?]; subst
  | H : ret _ _ = (OK _, _) |- _ =>
      apply ret_OK_inv in H; destruct H as [H ?]; subst
  | H : (match ?p with pair _ _ => _ end) _ = (OK _, _) |- _ => destruct p
  | H : rbind _ _ = OK _ |- _ =>
      apply rbind_OK_inv in H; destruct H as (? & ? & H)
  | H : (match ?p with pair _ _ => _ end) = OK _ |- _ => destruct p
  | H : OK _ = OK _ |- _ => inversion H; subst; clear H
  | H : (_, _) = (_, _) |- _ => inversion H; subst; clear H
  end.

(* ================================================================= *)
(** ** Slicing and concatenating channels *)

(** Operands of one size: the result has their size and pairs their
    storages. *)
Lemma ebinop_OK_inv (f : R -> R -> R) (a b c : Tensor) :
  size a = size b ->
  ebinop f a b = OK c ->
  length (storage a) = length (storage b)
  /\ c = mkTensor (size a) (map2 f (storage a) (storage b)).
Proof.
  intro Hs. unfold ebinop. rewrite Hs, size_eqb_refl.
  destruct (length (storage a) =? length (storage b))%nat eqn:Hl; [|discriminate].
  intro H. inversion H. apply Nat.eqb_eq in Hl. auto.
Qed.

Lemma ebinop_OK (f : R -> R -> R) (a b : Tensor) :
  size a = size b -> length (storage a) = length (storage b) ->
  ebinop f a b = OK (mkTensor (size a) (map2 f (storage a) (storage b))).
Proof.
  intros Hs Hl. unfold ebinop.
  now rewrite Hs, size_eqb_refl, Hl, Nat.eqb_refl.
Qed.

Lemma length_expand_to (sz : list nat) (t : Tensor) :
  length (expand_to sz t) = numel sz.
Proof. unfold expand_to. now rewrite length_map, length_seq. Qed.

(** The result of an operation on a well-formed tensor is well-formed. *)
Lemma ebinop_wf (f : R -> R -> R) (a b c : Tensor) :
  wf a -> ebinop f a b = OK c -> wf c.
Proof.
  intros Hwf. unfold ebinop.
  destruct (size_eqb (size a) (size b)) eqn:Hs.
  - destruct (length (storage a) =? length (storage b))%nat eqn:Hl; [|discriminate].
    intro H. inversion H; subst c. apply Nat.eqb_eq in Hl.
    unfold wf in *. cbn [size storage]. rewrite length_map2; congruence.
  - destruct (broadcast_size (size a) (size b)) as [sz|]; [|discriminate].
    intro H. inversion H; subst c. unfold wf. cbn [size storage].
    rewrite length_map2; now rewrite !length_expand_to.
Qed.

(** Broadcasting keeps every dimension of an operand that is not 1, and
    never drops a dimension. *)
Lemma broadcast_rev_spec (ra rb r : list nat) :
  broadcast_rev ra rb = Some r ->
  (length ra <= length r)%nat
  /\ forall j, (j < length ra)%nat -> nth j ra 1%nat <> 1%nat ->
       nth j r 1%nat = nth j ra 1%nat.
Proof.
  revert rb r. induction ra as [|da ra IH]; intros rb r H.
  - cbn [length]. split; [lia|]. intros j Hj. lia.
  - destruct rb as [|db rb].
    + cbn [broadcast_rev] in H. inversion H; subst r. split; [lia|]. reflexivity.
    + cbn [broadcast_rev] in H.
      destruct (broadcast_rev ra rb) as [r'|] eqn:Hr; [|discriminate].
      destruct (IH _ _ Hr) as [Hlen Hnth].
      assert (Hcase : exists x, r = x :: r' /\ (da <> 1%nat -> x = da)).
      { destruct (da =? db)%nat eqn:E1; [inversion H; eauto|].
        destruct (da =? 1)%nat eqn:E2.
        - apply Nat.eqb_eq in E2. inversion H. eexists; split; [reflexivity|]. congruence.
        - destruct (db =? 1)%nat; [|discriminate]. inversion H; eauto. }
      destruct Hcase as (x & -> & Hx). cbn [length]. split; [lia|].
      intros [|j] Hj Hne; cbn [nth] in *; [now apply Hx|].
      apply Hnth; [lia | exact Hne].
Qed.

(** So an operation whose result has as many dimensions as its first
    operand keeps the dimensions of that operand that are not 1. *)
Lemma ebinop_keeps_dim (f : R -> R -> R) (a b c : Tensor) (j : nat) :
  ebinop f a b = OK c ->
  length (size c) = length (size a) ->
  (j < length (size a))%nat -> nth j (size a) 1%nat <> 1%nat ->
  nth j (size c) 1%nat = nth j (size a) 1%nat.
Proof.
  unfold ebinop.
  destruct (size_eqb (size a) (size b)) eqn:Hs.
  - destruct (length (storage a) =? length (storage b))%nat; [|discriminate].
    intro H. inversion H; subst c. reflexivity.
  - unfold broadcast_size.
    destruct (broadcast_rev (rev (size a)) (rev (size b))) as [r|] eqn:Hr; [|discriminate].
    cbn [option_map]. intro H. inversion H; subst c. cbn [size].
    rewrite length_rev. intros Hlen Hj Hne.
    destruct (broadcast_rev_spec _ _ Hr) as [_ Hnth].
    rewrite rev_nth by lia. rewrite Hlen.
    rewrite Hnth.
    + rewrite rev_nth by lia. f_equal. lia.
    + rewrite length_rev. lia.
    + rewrite rev_nth by lia.
      replace (length (size a) - S (length (size a) - S j))%nat with j by lia.
      exact Hne.
Qed.

(** An operation never drops a dimension of its first operand. *)
Lemma ebinop_ndims (f : R -> R -> R) (a b c : Tensor) :
  ebinop f a b = OK c -> (length (size a) <= length (size c))%nat.
Proof.
  unfold ebinop.
  destruct (size_eqb (size a) (size b)) eqn:Hs.
  - destruct (length (storage a) =? length (storage b))%nat; [|discriminate].
    intro H. inversion H; subst c. cbn [size]. lia.
  - unfold broadcast_size.
    destruct (broadcast_rev (rev (size a)) (rev (size b))) as [r|] eqn:Hr; [|discriminate].
    cbn [option_map]. intro H. inversion H; subst c. cbn [size].
    destruct (broadcast_rev_spec _ _ Hr) as [Hlen _].
    rewrite length_rev in *. exact Hlen.
Qed.

Lemma slice_bound_le (k : Z) (c : nat) : (slice_bound k c <= c)%nat.
Proof. unfold slice_bound. destruct (k <? 0)%Z eqn:E; lia. Qed.

Lemma Forall_map_firstn {A} (m p : nat) (L : list (list A)) :
  (p <= m)%nat -> Forall (fun r => length r = m) L ->
  Forall (fun r => length r = p) (map (firstn p) L).
Proof.
  intros Hp H. apply Forall_map. eapply Forall_impl; [|exact H].
  intros r Hr. cbv beta in *. rewrite length_firstn. lia.
Qed.

Lemma Forall_map_skipn {A} (m p : nat) (L : list (list A)) :
  Forall (fun r => length r = m) L ->
  Forall (fun r => length r = (m - p)%nat) (map (skipn p) L).
Proof.
  intro H. apply Forall_map. eapply Forall_impl; [|exact H].
  intros r Hr. cbv beta in *. rewrite length_skipn. lia.
Qed.

Lemma length_concat_Forall {A} (m : nat) (L : list (list A)) :
  Forall (fun r => length r = m) L -> length (concat L) = (length L * m)%nat.
Proof.
  induction 1 as [|r L Hr _ IH]; simpl; [reflexivity|].
  rewrite length_app, IH, Hr. reflexivity.
Qed.

Lemma Forall_map2_app {A} (p q : nat) (F Z : list (list A)) :
  Forall (fun r => length r = p) F -> Forall (fun r => length r = q) Z ->
  Forall (fun r => length r = (p + q)%nat) (map2 (@app A) F Z).
Proof.
  intro HF. revert Z. induction HF as [|r F Hr _ IH]; intros Z HZ; simpl.
  - constructor.
  - destruct HZ as [|z Z Hz HZ]; constructor.
    + rewrite length_app. lia.
    + now apply IH.
Qed.

Lemma map_firstn_map2_app {A} (p : nat) (F Z : list (list A)) :
  Forall (fun r => length r = p) F -> length F = length Z ->
  map (firstn p) (map2 (@app A) F Z) = F.
Proof.
  intro HF. revert Z. induction HF as [|r F Hr _ IH]; intros [|z Z] HL;
    simpl in *; try discriminate; [reflexivity|].
  rewrite IH by congruence. f_equal.
  rewrite firstn_app, Hr, Nat.sub_diag. simpl.
  rewrite <- Hr, firstn_all. apply app_nil_r.
Qed.

Lemma map_skipn_map2_app {A} (p : nat) (F Z : list (list A)) :
  Forall (fun r => length r = p) F -> length F = length Z ->
  map (skipn p) (map2 (@app A) F Z) = Z.
Proof.
  intro HF. revert Z. induction HF as [|r F Hr _ IH]; intros [|z Z] HL;
    simpl in *; try discriminate; [reflexivity|].
  rewrite IH by congruence. f_equal.
  rewrite skipn_app, Hr, Nat.sub_diag. simpl.
  rewrite <- Hr, skipn_all. reflexivity.
Qed.

Lemma map2_firstn_skipn {A} (p : nat) (L : list (list A)) :
  map2 (@app A) (map (firstn p) L) (map (skipn p) L) = L.
Proof.
  induction L as [|r L IH]; simpl; [reflexivity|].
  now rewrite IH, firstn_skipn.
Qed.

Lemma length_map2_eq {A B C} (f : A -> B -> C) (l1 : list A) (l2 : list B) (n : nat) :
  length l1 = n -> length l2 = n -> length (map2 f l1 l2) = n.
Proof. intros H1 H2. rewrite length_map2; congruence. Qed.

(** Replacing the trailing channels of [x] by a tensor [z2'] of their size:
    the result has the size of [x], its leading channels are those of [x]
    and its trailing channels are [z2']. *)
Lemma cat2_slices (k : Z) (x z1 z2 z2' : Tensor) :
  wf x -> slice_to k x = OK z1 -> slice_from k x = OK z2 ->
  size z2' = size z2 -> length (storage z2') = length (storage z2) ->
  exists out,
    cat2 z1 z2' = OK out /\ size out = size x /\ wf out
    /\ slice_to k out = OK z1 /\ slice_from k out = OK z2'.
Proof.
  intros Hwf H1 H2 Hs Hl.
  destruct x as [sz sto]. unfold wf, slice_to, slice_from in *. cbn [size storage] in *.
  destruct sz as [|b [|c rest]]; try discriminate.
  cbn [numel fold_right] in Hwf. fold (numel rest) in Hwf.
  set (inner := numel rest) in *.
  set (k' := slice_bound k c) in *.
  assert (Hk : (k' <= c)%nat) by apply slice_bound_le.
  pose proof (rows_exact b (c * inner) sto Hwf) as HR.
  set (Rws := rows b (c * inner) sto) in *.
  assert (HRlen : length Rws = b) by apply length_rows.
  inversion H1; subst z1; clear H1. inversion H2; subst z2; clear H2.
  cbn [size storage] in *.
  destruct z2' as [sz2 sto2]. cbn [size storage] in *. subst sz2.
  assert (HF : Forall (fun r => length r = (k' * inner)%nat) (map (firstn (k' * inner)) Rws)).
  { eapply Forall_map_firstn; [|exact HR]. nia. }
  assert (HS : Forall (fun r => length r = (c * inner - k' * inner)%nat)
                 (map (skipn (k' * inner)) Rws)) by now apply Forall_map_skipn.
  assert (Hq : (c * inner - k' * inner = (c - k') * inner)%nat) by nia.
  rewrite Hq in HS.
  assert (Hl2 : length sto2 = (b * ((c - k') * inner))%nat).
  { rewrite Hl, (length_concat_Forall HS), length_map, HRlen. reflexivity. }
  pose proof (rows_exact b ((c - k') * inner) sto2 Hl2) as HZ.
  set (Z := rows b ((c - k') * inner) sto2) in *.
  assert (HZlen : length Z = b) by apply length_rows.
  unfold cat2. cbn [size storage]. fold inner.
  rewrite Nat.eqb_refl, size_eqb_refl. cbn [andb].
  assert (HrowsF : rows b (k' * inner) (concat (map (firstn (k' * inner)) Rws))
                   = map (firstn (k' * inner)) Rws).
  { rewrite <- HRlen at 1. rewrite <- (length_map (firstn (k' * inner)) Rws).
    now apply rows_concat. }
  rewrite HrowsF. fold Z.
  eexists. split; [reflexivity|].
  assert (Hc : (k' + (c - k') = c)%nat) by lia.
  assert (HFZ : Forall (fun r => length r = (c * inner)%nat)
                  (map2 (@app R) (map (firstn (k' * inner)) Rws) Z)).
  { replace (c * inner)%nat with (k' * inner + (c - k') * inner)%nat by nia.
    now apply Forall_map2_app. }
  assert (HFZlen : length (map2 (@app R) (map (firstn (k' * inner)) Rws) Z) = b).
  { apply length_map2_eq; [now rewrite length_map|exact HZlen]. }
  assert (Hrows : rows b (c * inner)
                    (concat (map2 (@app R) (map (firstn (k' * inner)) Rws) Z))
                  = map2 (@app R) (map (firstn (k' * inner)) Rws) Z).
  { rewrite <- HFZlen at 1. now apply rows_concat. }
  cbn [size storage]. rewrite Hc. fold inner. fold k'.
  rewrite Hrows.
  repeat split.
  - unfold wf. cbn [size storage numel fold_right]. fold (numel rest). fold inner.
    rewrite (length_concat_Forall HFZ), HFZlen. reflexivity.
  - rewrite map_firstn_map2_app; [reflexivity|exact HF|].
    now rewrite length_map, HRlen, HZlen.
  - rewrite map_skipn_map2_app; [|exact HF|now rewrite length_map, HRlen, HZlen].
    unfold Z. now rewrite (concat_rows _ _ _ Hl2).
Qed.

(** Putting the two slices of a tensor back together gives the tensor. *)
Lemma cat2_slice_id (k : Z) (x z1 z2 : Tensor) :
  wf x -> slice_to k x = OK z1 -> slice_from k x = OK z2 -> cat2 z1 z2 = OK x.
Proof.
  intros Hwf H1 H2.
  destruct (@cat2_slices k x z1 z2 z2 Hwf H1 H2 eq_refl eq_refl)
    as (out & Hcat & _ & _ & _ & _).
  rewrite Hcat. f_equal.
  destruct x as [sz sto]. unfold wf, slice_to, slice_from, cat2 in *.
  cbn [size storage] in *.
  destruct sz as [|b [|c rest]]; try discriminate.
  cbn [numel fold_right] in Hwf. fold (numel rest) in Hwf.
  inversion H1; subst z1; clear H1. inversion H2; subst z2; clear H2.
  cbn [size storage] in Hcat.
  rewrite Nat.eqb_refl, size_eqb_refl in Hcat. cbn [andb] in Hcat.
  inversion Hcat; subst out; clear Hcat.
  pose proof (slice_bound_le k c) as Hk.
  set (k' := slice_bound k c) in *. set (inner := numel rest) in *.
  pose proof (rows_exact b (c * inner) sto Hwf) as HR.
  set (Rws := rows b (c * inner) sto) in *.
  assert (HRlen : length Rws = b) by apply length_rows.
  f_equal; [f_equal; f_equal; lia|].
  rewrite <- HRlen at 1. rewrite <- (length_map (firstn (k' * inner)) Rws).
  rewrite rows_concat by (eapply Forall_map_firstn; [|exact HR]; nia).
  assert (HS : Forall (fun r => length r = ((c - k') * inner)%nat)
                 (map (skipn (k' * inner)) Rws)).
  { replace ((c - k') * inner)%nat with (c * inner - k' * inner)%nat by nia.
    now apply Forall_map_skipn. }
  rewrite <- HRlen at 1. rewrite <- (length_map (skipn (k' * inner)) Rws).
  rewrite rows_concat by exact HS.
  rewrite map2_firstn_skipn. unfold Rws. now apply concat_rows.
Qed.

(** Replacing both slices of [x] by tensors of their sizes: the result has
    the size of [x] and slices into the two replacements. *)
Lemma cat2_replace (k : Z) (x z1 z2 z1' z2' : Tensor) :
  wf x -> slice_to k x = OK z1 -> slice_from k x = OK z2 ->
  size z1' = size z1 -> length (storage z1') = length (storage z1) ->
  size z2' = size z2 -> length (storage z2') = length (storage z2) ->
  exists out,
    cat2 z1' z2' = OK out /\ size out = size x /\ wf out
    /\ slice_to k out = OK z1' /\ slice_from k out = OK z2'.
Proof.
  intros Hwf H1 H2 Hs1 Hl1 Hs Hl.
  destruct x as [sz sto]. unfold wf, slice_to, slice_from in *. cbn [size storage] in *.
  destruct sz as [|b [|c rest]]; try discriminate.
  cbn [numel fold_right] in Hwf. fold (numel rest) in Hwf.
  set (inner := numel rest) in *.
  set (k' := slice_bound k c) in *.
  assert (Hk : (k' <= c)%nat) by apply slice_bound_le.
  pose proof (rows_exact b (c * inner) sto Hwf) as HR.
  set (Rws := rows b (c * inner) sto) in *.
  assert (HRlen : length Rws = b) by apply length_rows.
  inversion H1; subst z1; clear H1. inversion H2; subst z2; clear H2.
  cbn [size storage] in *.
  destruct z1' as [sz1 sto1], z2' as [sz2 sto2]. cbn [size storage] in *. subst sz1 sz2.
  assert (HF0 : Forall (fun r => length r = (k' * inner)%nat) (map (firstn (k' * inner)) Rws)).
  { eapply Forall_map_firstn; [|exact HR]. nia. }
  assert (HS : Forall (fun r => length r = (c * inner - k' * inner)%nat)
                 (map (skipn (k' * inner)) Rws)) by now apply Forall_map_skipn.
  assert (Hq : (c * inner - k' * inner = (c - k') * inner)%nat) by nia.
  rewrite Hq in HS.
  assert (Hl1' : length sto1 = (b * (k' * inner))%nat).
  { rewrite Hl1, (length_concat_Forall HF0), length_map, HRlen. reflexivity. }
  assert (Hl2 : length sto2 = (b * ((c - k') * inner))%nat).
  { rewrite Hl, (length_concat_Forall HS), length_map, HRlen. reflexivity. }
  pose proof (rows_exact b (k' * inner) sto1 Hl1') as HF.
  set (F := rows b (k' * inner) sto1) in *.
  assert (HFlen : length F = b) by apply length_rows.
  pose proof (rows_exact b ((c - k') * inner) sto2 Hl2) as HZ.
  set (Z := rows b ((c - k') * inner) sto2) in *.
  assert (HZlen : length Z = b) by apply length_rows.
  unfold cat2. cbn [size storage]. fold inner.
  rewrite Nat.eqb_refl, size_eqb_refl. cbn [andb].
  fold F. fold Z.
  eexists. split; [reflexivity|].
  assert (Hc : (k' + (c - k') = c)%nat) by lia.
  assert (HFZ : Forall (fun r => length r = (c * inner)%nat) (map2 (@app R) F Z)).
  { replace (c * inner)%nat with (k' * inner + (c - k') * inner)%nat by nia.
    now apply Forall_map2_app. }
  assert (HFZlen : length (map2 (@app R) F Z) = b).
  { apply length_map2_eq; assumption. }
  assert (Hrows : rows b (c * inner) (concat (map2 (@app R) F Z)) = map2 (@app R) F Z).
  { rewrite <- HFZlen at 1. now apply rows_concat. }
  cbn [size storage]. rewrite Hc. fold inner. fold k'.
  rewrite Hrows.
  repeat split.
  - unfold wf. cbn [size storage numel fold_right]. fold (numel rest). fold inner.
    rewrite (length_concat_Forall HFZ), HFZlen. reflexivity.
  - rewrite map_firstn_map2_app; [|exact HF|congruence].
    unfold F. now rewrite (concat_rows _ _ _ Hl1').
  - rewrite map_skipn_map2_app; [|exact HF|congruence].
    unfold Z. now rewrite (concat_rows _ _ _ Hl2).
Qed.

(** The slices of a well-formed tensor are well-formed and keep the
    batch. *)
Lemma slice_to_wf (k : Z) (x z1 : Tensor) :
  wf x -> slice_to k x = OK z1 -> wf z1 /\ size_at z1 0 = size_at x 0.
Proof.
  intros Hwf H1.
  destruct x as [sz sto]. unfold wf, slice_to in *. cbn [size storage] in *.
  destruct sz as [|b [|c rest]]; try discriminate.
  cbn [numel fold_right] in Hwf. fold (numel rest) in Hwf.
  inversion H1; subst z1; clear H1. cbn [size storage numel fold_right].
  fold (numel rest). split; [|reflexivity].
  pose proof (slice_bound_le k c) as Hk.
  pose proof (rows_exact b (c * numel rest) sto Hwf) as HR.
  rewrite (@length_concat_Forall _ (slice_bound k c * numel rest)).
  - now rewrite length_map, length_rows.
  - eapply Forall_map_firstn; [|exact HR]. nia.
Qed.

Lemma slice_from_wf (k : Z) (x z2 : Tensor) :
  wf x -> slice_from k x = OK z2 -> wf z2 /\ size_at z2 0 = size_at x 0.
Proof.
  intros Hwf H1.
  destruct x as [sz sto]. unfold wf, slice_from in *. cbn [size storage] in *.
  destruct sz as [|b [|c rest]]; try discriminate.
  cbn [numel fold_right] in Hwf. fold (numel rest) in Hwf.
  inversion H1; subst z2; clear H1. cbn [size storage numel fold_right].
  fold (numel rest). split; [|reflexivity].
  pose proof (slice_bound_le k c) as Hk.
  pose proof (rows_exact b (c * numel rest) sto Hwf) as HR.
  rewrite (@length_concat_Forall _ ((c - slice_bound k c) * numel rest)).
  - now rewrite length_map, length_rows.
  - replace ((c - slice_bound k c) * numel rest)%nat
      with (c * numel rest - slice_bound k c * numel rest)%nat by nia.
    now apply Forall_map_skipn.
Qed.

(** *** Concatenation of two tensors, and its slices *)

Lemma slice_bound_nat (ca cb : nat) : slice_bound (Z.of_nat ca) (ca + cb) = ca.
Proof.
  unfold slice_bound. destruct (Z.of_nat ca <? 0)%Z eqn:E; [apply Z.ltb_lt in E; lia|].
  rewrite Nat2Z.id. lia.
Qed.

(** A slice depends on its bound only through the channel it denotes. *)
Lemma slice_to_bound (k k2 : Z) (t : Tensor) (b c : nat) (rest : list nat) :
  size t = b :: c :: rest -> slice_bound k c = slice_bound k2 c ->
  slice_to k t = slice_to k2 t.
Proof. intros Hs Hk. unfold slice_to. rewrite Hs. cbv zeta. now rewrite Hk. Qed.

Lemma slice_from_bound (k k2 : Z) (t : Tensor) (b c : nat) (rest : list nat) :
  size t = b :: c :: rest -> slice_bound k c = slice_bound k2 c ->
  slice_from k t = slice_from k2 t.
Proof. intros Hs Hk. unfold slice_from. rewrite Hs. cbv zeta. now rewrite Hk. Qed.

(** The concatenation of two well-formed tensors that agree outside the
    channels has the channels of both and slices back into them. *)
Lemma cat2_parts (a b : Tensor) (n ca cb : nat) (rest : list nat) :
  wf a -> wf b -> size a = n :: ca :: rest -> size b = n :: cb :: rest ->
  exists out,
    cat2 a b = OK out /\ size out = n :: (ca + cb)%nat :: rest /\ wf out
    /\ slice_to (Z.of_nat ca) out = OK a /\ slice_from (Z.of_nat ca) out = OK b.
Proof.
  intros Hwa Hwb Hsa Hsb.
  set (x := mkTensor (n :: (ca + cb)%nat :: rest)
              (repeat 0 (n * ((ca + cb) * numel rest)))).
  assert (Hwx : wf x).
  { unfold wf, x. cbn [size storage numel fold_right]. apply repeat_length. }
  destruct (slice_to (Z.of_nat ca) x) as [z1|e] eqn:H1; [|discriminate].
  destruct (slice_from (Z.of_nat ca) x) as [z2|e] eqn:H2; [|discriminate].
  destruct (@slice_to_wf _ _ _ Hwx H1) as [Hw1 _].
  destruct (@slice_from_wf _ _ _ Hwx H2) as [Hw2 _].
  assert (Hs1 : size z1 = n :: ca :: rest).
  { unfold slice_to, x in H1. cbn [size storage] in H1. cbv zeta in H1.
    rewrite slice_bound_nat in H1. now inversion H1. }
  assert (Hs2 : size z2 = n :: cb :: rest).
  { unfold slice_from, x in H2. cbn [size storage] in H2. cbv zeta in H2.
    rewrite slice_bound_nat in H2. inversion H2. cbn [size].
    do 2 f_equal. lia. }
  destruct (@cat2_replace (Z.of_nat ca) x z1 z2 a b Hwx H1 H2) as (out & Hcat & Hso & Hout).
  - congruence.
  - unfold wf in *. rewrite Hwa, Hw1. congruence.
  - congruence.
  - unfold wf in *. rewrite Hwb, Hw2. congruence.
  - exists out. split; [exact Hcat|]. split; [exact Hso|]. exact Hout.
Qed.

(** What a successful concatenation says of the sizes of its parts. *)
Lemma cat2_OK_sizes (a b out : Tensor) (n ca : nat) (rest : list nat) :
  size a = n :: ca :: rest -> cat2 a b = OK out ->
  exists cb, size b = n :: cb :: rest.
Proof.
  intros Hsa H. unfold cat2 in H. rewrite Hsa in H.
  destruct (size b) as [|bb [|cb restb]]; try discriminate.
  destruct (n =? bb)%nat eqn:Hn; [|discriminate].
  destruct (size_eqb rest restb) eqn:Hr; [|discriminate].
  apply Nat.eqb_eq in Hn. apply size_eqb_eq in Hr. subst. now exists cb.
Qed.

(** *** Tensors that come from another by elementwise operations *)

Lemma grows_from_refl (a : Tensor) : grows_from a a.
Proof. unfold grows_from. auto. Qed.

Lemma grows_from_trans (a b c : Tensor) :
  grows_from a b -> grows_from b c -> grows_from a c.
Proof.
  intros (Hw1 & Hl1 & Hd1) (Hw2 & Hl2 & Hd2). split; [auto|]. split; [lia|].
  intros Hlen j Hj Hne.
  assert (Hab : length (size b) = length (size a)) by lia.
  rewrite Hd2; try lia.
  - now apply Hd1.
  - rewrite (Hd1 Hab j Hj Hne). exact Hne.
Qed.

Lemma ebinop_grows (f : R -> R -> R) (a b c : Tensor) :
  ebinop f a b = OK c -> grows_from a c.
Proof.
  intro H. split; [|split].
  - intro Hw. exact (@ebinop_wf _ _ _ _ Hw H).
  - exact (@ebinop_ndims _ _ _ _ H).
  - intros Hlen j Hj Hne. exact (@ebinop_keeps_dim _ _ _ _ j H Hlen Hj Hne).
Qed.

(** The retained channels [z1] of [x] followed by a tensor [zz] that comes
    from the remaining channels [z2]: the retained channels of the result
    are [z1] and the remaining ones are [zz]. *)
Lemma cat2_retained (k : Z) (x z1 z2 zz out : Tensor) :
  wf x -> (0 <= k)%Z ->
  slice_to k x = OK z1 -> slice_from k x = OK z2 ->
  grows_from z2 zz -> cat2 z1 zz = OK out ->
  wf out /\ slice_to k out = OK z1 /\ slice_from k out = OK zz.
Proof.
  intros Hwf Hk H1 H2 (Hw & Hlen & Hdim) Hcat.
  destruct (@slice_to_wf _ _ _ Hwf H1) as [Hw1 _].
  destruct (@slice_from_wf _ _ _ Hwf H2) as [Hw2 _].
  destruct x as [sz sto]. unfold slice_to, slice_from in H1, H2. cbn [size storage] in H1, H2.
  destruct sz as [|n [|c rest]]; try discriminate.
  set (k' := slice_bound k c) in *.
  assert (Hs1 : size z1 = n :: k' :: rest) by (inversion H1; reflexivity).
  assert (Hs2 : size z2 = n :: (c - k')%nat :: rest) by (inversion H2; reflexivity).
  destruct (@cat2_OK_sizes _ _ _ _ _ _ Hs1 Hcat) as (cb & Hsz).
  destruct (@cat2_parts z1 zz n k' cb rest Hw1 (Hw Hw2) Hs1 Hsz)
    as (out' & Hcat' & Hso & Hwo & Hto & Hfrom).
  rewrite Hcat in Hcat'. inversion Hcat'; subst out'. clear Hcat'.
  assert (Hk' : k' = Nat.min (Z.to_nat k) c).
  { unfold k', slice_bound.
    destruct (k <? 0)%Z eqn:E; [apply Z.ltb_lt in E; lia | reflexivity]. }
  assert (Hcb : (c < Z.to_nat k)%nat -> cb = 0%nat).
  { intro Hgt.
    assert (Hn : nth 1 (size zz) 1%nat = nth 1 (size z2) 1%nat).
    { apply Hdim.
      - rewrite Hsz, Hs2. reflexivity.
      - rewrite Hs2. cbn [length]. lia.
      - rewrite Hs2. cbn [nth]. lia. }
    rewrite Hsz, Hs2 in Hn. cbn [nth] in Hn. lia. }
  assert (Hb : slice_bound k (k' + cb) = slice_bound (Z.of_nat k') (k' + cb)).
  { rewrite slice_bound_nat. unfold slice_bound.
    destruct (k <? 0)%Z eqn:E; [apply Z.ltb_lt in E; lia|].
    destruct (Nat.le_gt_cases (Z.to_nat k) c) as [Hle|Hgt]; [lia|].
    rewrite (Hcb Hgt). lia. }
  split; [exact Hwo|]. split.
  - rewrite (@slice_to_bound k (Z.of_nat k') out _ _ _ Hso Hb). exact Hto.
  - rewrite (@slice_from_bound k (Z.of_nat k') out _ _ _ Hso Hb). exact Hfrom.
Qed.




(* ================================================================= *)
(** ** Properties of the coupling flow *)

(** Operands of one size give a result of that size. *)
Lemma ebinop_shape {f : R -> R -> R} {a b c : Tensor} :
  size a = size b ->
  ebinop f a b = OK c ->
  size c = size a /\ length (storage c) = length (storage a).
Proof.
  intros Hs H. apply (ebinop_OK_inv _ _ _ Hs) in H. destruct H as (Hl & ->).
  cbn [size storage]. split; [reflexivity|]. now apply length_map2.
Qed.

(** The affine step returns a tensor that comes from [z2]. *)
Lemma scale_forward_grows {St} {self : NICE (St:=St)} {z1 z2 z2' logdet : Tensor}
    {scale : option Tensor} :
  scale_forward self z1 z2 scale = OK (z2', logdet) -> grows_from z2 z2'.
Proof.
  unfold scale_forward. destruct (nice_scale self).
  - destruct scale as [sc|]; [|discriminate]. intro H.
    apply rbind_OK_inv in H. destruct H as (t & Ht & H).
    apply rbind_OK_inv in H. destruct H as (l & _ & H).
    inversion H; subst. exact (ebinop_grows _ _ _ Ht).
  - intro H. apply rbind_OK_inv in H. destruct H as (b & _ & H).
    inversion H; subst. apply grows_from_refl.
Qed.

Lemma scale_backward_grows {St} {self : NICE (St:=St)} {z1 z2 z2' logdet : Tensor}
    {scale : option Tensor} :
  scale_backward self z1 z2 scale = OK (z2', logdet) -> grows_from z2 z2'.
Proof.
  unfold scale_backward. destruct (nice_scale self).
  - destruct scale as [sc|]; [|discriminate]. intro H.
    apply rbind_OK_inv in H. destruct H as (t & Ht & H).
    apply rbind_OK_inv in H. destruct H as (l & _ & H).
    inversion H; subst. exact (ebinop_grows _ _ _ Ht).
  - intro H. apply rbind_OK_inv in H. destruct H as (b & _ & H).
    inversion H; subst. apply grows_from_refl.
Qed.

(** The output of a pass on operands of one size: the retained slice
    followed by a remainder [z2b] of the size of the one that came in. *)
Lemma NICE_output {k : Z} {x z1 z2 z2b out : Tensor} :
  wf x ->
  slice_to k x = OK z1 ->
  slice_from k x = OK z2 ->
  size z2b = size z2 -> length (storage z2b) = length (storage z2) ->
  cat2 z1 z2b = OK out ->
  size out = size x /\ wf out
  /\ slice_to k out = OK z1
  /\ slice_from k out = OK z2b.
Proof.
  intros Hwf H1 H2 Hs Hl Hcat.
  destruct (@cat2_slices k x z1 z2 z2b Hwf H1 H2 Hs Hl) as (out' & Hcat' & Hout).
  rewrite Hcat in Hcat'. inversion Hcat'; subst out'. exact Hout.
Qed.

(** The constructor retains a number of channels that is not negative
    when it is given a number of channels that is not negative and a
    positive factor. *)
Lemma NICE_new_retains St (new_block : Z -> Z -> Z -> Z -> Z -> R -> NICEBlock (St:=St))
    (in_channels : Z) (hidden_channels s_channels : option Z) (scale inverse_ : bool)
    (dilation : Z) (dropout_ : R) (factor : Z) (self : NICE (St:=St)) :
  NICE_new new_block in_channels hidden_channels s_channels scale inverse_ dilation
    dropout_ factor = OK self ->
  (0 <= in_channels)%Z -> (0 < factor)%Z ->
  (0 <= nice_z1_channels self)%Z.
Proof.
  intros H Hin Hf. unfold NICE_new, floordiv in H.
  destruct (factor =? 0)%Z eqn:E; [apply Z.eqb_eq in E; lia|].
  cbn [rbind] in H. inversion H; subst self. cbn [nice_z1_channels].
  assert (in_channels / factor <= in_channels)%Z
    by (apply Z.div_le_upper_bound; nia).
  lia.
Qed.

(** C10. Whatever the sizes of what the network returns, [forward],
    [backward] and [init] of the coupling flow return the retained
    channels of the input followed by the transformed remaining channels:
    the first [z1_channels] channels of the output are those of the input,
    and the channels after them are the transformed ones.  The number of
    retained channels is not negative, as the one that the constructor
    computes is; where the network's output broadcasts the remaining
    channels, the output has more channels than the input. *)
Theorem NICE_retained_slice_unchanged St (self : NICE (St:=St)) (input : Tensor)
    (s : Cond) (init_scale : R) (st st' : St) (out logdet : Tensor) :
  wf input ->
  (0 <= nice_z1_channels self)%Z ->
  NICE_forward self input s st = (OK (out, logdet), st')
  \/ NICE_backward self input s st = (OK (out, logdet), st')
  \/ NICE_init self input s init_scale st = (OK (out, logdet), st') ->
  exists z1 z2',
    slice_to (nice_z1_channels self) input = OK z1
    /\ cat2 z1 z2' = OK out
    /\ slice_to (nice_z1_channels self) out = OK z1
    /\ slice_from (nice_z1_channels self) out = OK z2'.
Proof.
  intros Hwf Hk [H | [H | H]].
  - unfold NICE_forward in H. minv.
    match goal with
    | Hto : slice_to _ input = OK ?z1, Hfrom : slice_from _ input = OK _,
      Hsc : scale_forward _ _ _ _ = OK _, Hadd : tadd _ _ = OK ?zz,
      Hcat : cat2 _ _ = OK _ |- _ =>
        exists z1, zz;
        destruct (@cat2_retained _ _ _ _ _ _ Hwf Hk Hto Hfrom
                    (grows_from_trans (scale_forward_grows Hsc) (ebinop_grows _ _ _ Hadd))
                    Hcat) as (_ & Hto' & Hfrom');
        auto
    end.
  - unfold NICE_backward in H. minv.
    match goal with
    | Hto : slice_to _ input = OK ?z1, Hfrom : slice_from _ input = OK _,
      Hsc : scale_backward _ _ _ _ = OK (?zz, _), Hsub : tsub _ _ = OK _,
      Hcat : cat2 _ _ = OK _ |- _ =>
        exists z1, zz;
        destruct (@cat2_retained _ _ _ _ _ _ Hwf Hk Hto Hfrom
                    (grows_from_trans (ebinop_grows _ _ _ Hsub) (scale_backward_grows Hsc))
                    Hcat) as (_ & Hto' & Hfrom');
        auto
    end.
  - unfold NICE_init in H. minv.
    match goal with
    | Hto : slice_to _ input = OK ?z1, Hfrom : slice_from _ input = OK _,
      Hsc : scale_forward _ _ _ _ = OK _, Hadd : tadd _ _ = OK ?zz,
      Hcat : cat2 _ _ = OK _ |- _ =>
        exists z1, zz;
        destruct (@cat2_retained _ _ _ _ _ _ Hwf Hk Hto Hfrom
                    (grows_from_trans (scale_forward_grows Hsc) (ebinop_grows _ _ _ Hadd))
                    Hcat) as (_ & Hto' & Hfrom');
        auto
    end.
Qed.

Lemma NICE_retained_slice_unchanged_witness :
  wf three_channels
  /\ (0 <= nice_z1_channels wide_nice)%Z
  /\ NICE_forward wide_nice three_channels CNone tt
     = (OK (mkTensor [1; 4; 1; 1]%nat [1; 2; 3 + 10; 3 + 20], new_zeros 1), tt)
  /\ exists z1 z2',
       slice_to 2 three_channels = OK z1
       /\ cat2 z1 z2' = OK (mkTensor [1; 4; 1; 1]%nat [1; 2; 3 + 10; 3 + 20])
       /\ slice_to 2 (mkTensor [1; 4; 1; 1]%nat [1; 2; 3 + 10; 3 + 20]) = OK z1
       /\ slice_from 2 (mkTensor [1; 4; 1; 1]%nat [1; 2; 3 + 10; 3 + 20]) = OK z2'.
Proof.
  split; [reflexivity|]. split; [cbn; lia|]. split; [reflexivity|].
  exact (@NICE_retained_slice_unchanged unit wide_nice three_channels CNone 1 tt tt
           (mkTensor [1; 4; 1; 1]%nat [1; 2; 3 + 10; 3 + 20]) (new_zeros 1)
           eq_refl ltac:(cbn; lia) (or_introl eq_refl)).
Defined.

(** *** The divisor of the inverse pass *)

Lemma sigmoid_pos (v : R) : 0 < sigmoid v.
Proof.
  unfold sigmoid. apply Rdiv_lt_0_compat; [lra|].
  pose proof (exp_pos (- v)). lra.
Qed.

Lemma map2_map_r {A B B' C} (f : A -> B' -> C) (g : B -> B') (l : list A) (l' : list B) :
  map2 f l (map g l') = map2 (fun a b => f a (g b)) l l'.
Proof.
  revert l'; induction l as [|a l IH]; intros [|b l']; simpl; try reflexivity.
  now rewrite IH.
Qed.

(** C9, as the code has it.  With the scale enabled, [backward] of the
    coupling flow returns the retained channels followed by [(z2 - mu)]
    divided, element by element, by [(scale + 1e-12)]: the additive
    epsilon is in the divisor.  Where what the network returns has the
    size of [z2], so that nothing is broadcast, the transformed channels
    are the quotients of the storages position by position. *)
Theorem NICE_backward_divisor_has_epsilon St (self : NICE (St:=St)) (input : Tensor)
    (s : Cond) (st st' : St) (out logdet : Tensor) :
  wf input -> nice_scale self = true ->
  NICE_backward self input s st = (OK (out, logdet), st') ->
  exists z1 z2 mu scale,
    slice_to (nice_z1_channels self) input = OK z1
    /\ slice_from (nice_z1_channels self) input = OK z2
    /\ calc_mu_and_scale self z1 s st = (OK (mu, Some scale), st')
    /\ (exists d q,
          tsub z2 mu = OK d /\ tdiv d (add_scalar scale 1e-12) = OK q
          /\ cat2 z1 q = OK out)
    /\ (size mu = size z2 -> size scale = size z2 ->
        slice_from (nice_z1_channels self) out
        = OK (mkTensor (size z2)
                (map2 (fun d sc => d / (sc + 1e-12))
                      (map2 Rminus (storage z2) (storage mu)) (storage scale)))).
Proof.
  intros Hwf Hscale H. unfold NICE_backward in H. minv.
  match goal with
  | Hto : slice_to _ input = OK ?z1, Hfrom : slice_from _ input = OK ?z2,
    Hnet : calc_mu_and_scale _ _ _ _ = (OK (?mu, ?sc), _),
    Hsc : scale_backward _ _ _ _ = OK _, Hsub : tsub _ _ = OK ?d,
    Hcat : cat2 _ _ = OK _ |- _ =>
      unfold scale_backward in Hsc; rewrite Hscale in Hsc;
      destruct sc as [scale|]; [|discriminate];
      minv;
      exists z1, z2, mu, scale;
      split; [assumption|]; split; [assumption|]; split; [assumption|]
  end.
  match goal with
  | Hsub : tsub ?z2 ?mu = OK ?d, Hdiv : tdiv ?d _ = OK ?q, Hcat : cat2 _ ?q = OK _,
    Hto : slice_to _ input = OK _, Hfrom : slice_from _ input = OK _ |- _ =>
      split; [exists d, q; auto|];
      intros Hsmu Hssc;
      destruct (ebinop_shape (eq_sym Hsmu) Hsub) as [Hs Hl];
      assert (Hsd : size d = size (add_scalar scale 1e-12))
        by (cbn [add_scalar size]; congruence);
      destruct (ebinop_shape Hsd Hdiv) as [Hs' Hl'];
      destruct (NICE_output Hwf Hto Hfrom (eq_trans Hs' Hs) (eq_trans Hl' Hl) Hcat)
        as (_ & _ & _ & Hfrom');
      rewrite Hfrom'; f_equal;
      apply (ebinop_OK_inv _ _ _ Hsd) in Hdiv; destruct Hdiv as (_ & ->);
      apply (ebinop_OK_inv _ _ _ (eq_sym Hsmu)) in Hsub; destruct Hsub as (_ & ->)
  end.
  cbn [size storage add_scalar]. now rewrite map2_map_r.
Qed.

Lemma NICE_backward_divisor_has_epsilon_witness :
  exists z1 z2 mu scale,
    slice_to 1 (mkTensor [1; 2; 1; 1]%nat [3; 1]) = OK z1
    /\ slice_from 1 (mkTensor [1; 2; 1; 1]%nat [3; 1]) = OK z2
    /\ calc_mu_and_scale (example_nice true unit_out) z1 CNone tt
       = (OK (mu, Some scale), tt)
    /\ slice_from 1 (mkTensor [1; 2; 1; 1]%nat [3; (1 - 0) / (sigmoid (0 + 2) + 1e-12)])
       = OK (mkTensor (size z2)
               (map2 (fun d sc => d / (sc + 1e-12))
                     (map2 Rminus (storage z2) (storage mu)) (storage scale))).
Proof.
  destruct (@NICE_backward_divisor_has_epsilon unit (example_nice true unit_out)
              (mkTensor [1; 2; 1; 1]%nat [3; 1]) CNone tt tt
              (mkTensor [1; 2; 1; 1]%nat [3; (1 - 0) / (sigmoid (0 + 2) + 1e-12)])
              (mkTensor [1%nat] [(ln (sigmoid (0 + 2)) + 0) * -1.0])
              eq_refl eq_refl eq_refl)
    as (z1 & z2 & mu & scale & Hto & Hfrom & Hcalc & _ & Hq).
  exists z1, z2, mu, scale.
  split; [exact Hto|]. split; [exact Hfrom|]. split; [exact Hcalc|].
  apply Hq.
  - cbn in Hfrom, Hcalc. inversion Hfrom. now inversion Hcalc.
  - cbn in Hfrom, Hcalc. inversion Hfrom. now inversion Hcalc.
Defined.

(** The claim C9 fails on the code: on the input with [z2 = 1], [mu = 0] and
    [scale = sigmoid 2], [backward] does not return [(z2 - mu) / scale]. *)
Lemma NICE_backward_divisor_counterexample :
  exists out logdet,
    NICE_backward (example_nice true unit_out) (mkTensor [1; 2; 1; 1]%nat [3; 1]) CNone tt
      = (OK (out, logdet), tt)
    /\ nth 1 (storage out) 0 <> (1 - 0) / sigmoid (0 + 2).
Proof.
  exists (mkTensor [1; 2; 1; 1]%nat [3; (1 - 0) / (sigmoid (0 + 2) + 1e-12)]).
  exists (mkTensor [1%nat] [(ln (sigmoid (0 + 2)) + 0) * -1.0]).
  split; [reflexivity|].
  cbn [nth storage].
  pose proof (sigmoid_pos (0 + 2)) as Hs.
  set (sg := sigmoid (0 + 2)) in *.
  assert (Hlt : / (sg + 1e-12) < / sg).
  { apply Rinv_lt_contravar; [|lra]. apply Rmult_lt_0_compat; lra. }
  unfold Rdiv. lra.
Qed.
(* ================================================================= *)
(** ** The structure of a unit and of a step *)

(** Replay, in the goal, the calls whose results are known. *)
Ltac mrun :=
  unfold bind, lift, ret;
  repeat match goal with
  | H : _ = (OK _, _) |- _ => rewrite H; clear H
  | H : _ = OK _ |- _ => rewrite H; clear H; cbn [rbind]
  end.

Section UnitStructure.
Context {St : Type}.
Variable E : Collab St.

(** The six sub-flows of a unit, in the order in which [forward] applies
    them; the normalizations take no conditioning. *)
Definition unit_forward_ops (u : MaCowUnit St) (s : Cond)
  : list (Tensor -> M St (Tensor * Tensor)) :=
  [ fun x => forward (actnorm1 u) x CNone;
    fun x => forward (conv1 u) x s;
    fun x => forward (conv2 u) x s;
    fun x => forward (actnorm2 u) x CNone;
    fun x => forward (conv3 u) x s;
    fun x => forward (conv4 u) x s ].

(** Their inverses. *)
Definition unit_backward_ops (u : MaCowUnit St) (s : Cond)
  : list (Tensor -> M St (Tensor * Tensor)) :=
  [ fun x => backward (actnorm1 u) x CNone;
    fun x => backward (conv1 u) x s;
    fun x => backward (conv2 u) x s;
    fun x => backward (actnorm2 u) x CNone;
    fun x => backward (conv3 u) x s;
    fun x => backward (conv4 u) x s ].

Lemma MaCowUnit_new_structure (name : path) (in_channels : Z) (kernel_size : list Z)
    (s_channels : Z) (scale inv : bool) (u : MaCowUnit St) :
  MaCowUnit_new E name in_channels kernel_size s_channels scale inv = OK u ->
  exists k0 k1,
    index kernel_size 0 = OK k0 /\ index kernel_size 1 = OK k1
    /\ ActNorm2dFlow E (name ++ [Attr "actnorm1"]) in_channels inv = OK (actnorm1 u)
    /\ MaskedConvFlow E (name ++ [Attr "conv1"]) in_channels (k0, k1) s_channels
         OrderA scale inv = OK (conv1 u)
    /\ MaskedConvFlow E (name ++ [Attr "conv2"]) in_channels (k0, k1) s_channels
         OrderB scale inv = OK (conv2 u)
    /\ ActNorm2dFlow E (name ++ [Attr "actnorm2"]) in_channels inv = OK (actnorm2 u)
    /\ MaskedConvFlow E (name ++ [Attr "conv3"]) in_channels (k1, k0) s_channels
         OrderC scale inv = OK (conv3 u)
    /\ MaskedConvFlow E (name ++ [Attr "conv4"]) in_channels (k1, k0) s_channels
         OrderD scale inv = OK (conv4 u).
Proof.
  unfold MaCowUnit_new. intro H. minv.
  eexists _, _. cbn [actnorm1 actnorm2 conv1 conv2 conv3 conv4].
  repeat split; eassumption.
Qed.

Lemma MaCowUnit_forward_chain (u : MaCowUnit St) (x : Tensor) (s : Cond)
    (st st' : St) (y ld : Tensor) :
  MaCowUnit_forward u x s st = (OK (y, ld), st')
  <-> exists l1 ls,
        chain (unit_forward_ops u s) x st = (OK (y, l1 :: ls), st')
        /\ length ls = 5%nat /\ sum_logdets l1 ls = OK ld.
Proof.
  split.
  - unfold MaCowUnit_forward. intro H. minv.
    eexists _, [_; _; _; _; _]. split; [|split; [reflexivity|]].
    + unfold unit_forward_ops, chain. mrun. reflexivity.
    + unfold sum_logdets. cbn [fold_left rbind]. mrun. reflexivity.
  - intros (l1 & ls & Hc & Hlen & Hsum).
    destruct ls as [|l2 [|l3 [|l4 [|l5 [|l6 [|? ?]]]]]]; try discriminate.
    unfold unit_forward_ops, chain in Hc. minv.
    unfold sum_logdets in Hsum. cbn [fold_left] in Hsum. minv.
    unfold MaCowUnit_forward. mrun. reflexivity.
Qed.

Lemma MaCowUnit_backward_chain (u : MaCowUnit St) (x : Tensor) (s : Cond)
    (st st' : St) (y ld : Tensor) :
  MaCowUnit_backward u x s st = (OK (y, ld), st')
  <-> exists l1 ls,
        chain (rev (unit_backward_ops u s)) x st = (OK (y, l1 :: ls), st')
        /\ length ls = 5%nat /\ sum_logdets l1 ls = OK ld.
Proof.
  split.
  - unfold MaCowUnit_backward. intro H. minv.
    eexists _, [_; _; _; _; _]. split; [|split; [reflexivity|]].
    + unfold unit_backward_ops. cbn [rev app]. unfold chain. mrun. reflexivity.
    + unfold sum_logdets. cbn [fold_left rbind]. mrun. reflexivity.
  - intros (l1 & ls & Hc & Hlen & Hsum).
    destruct ls as [|l2 [|l3 [|l4 [|l5 [|l6 [|? ?]]]]]]; try discriminate.
    unfold unit_backward_ops in Hc. cbn [rev app] in Hc. unfold chain in Hc. minv.
    unfold sum_logdets in Hsum. cbn [fold_left] in Hsum. minv.
    unfold MaCowUnit_backward. mrun. reflexivity.
Qed.

Lemma MaCowStep_new_structure (name : path) (in_channels : Z) (kernel_size : list Z)
    (hidden_channels s_channels : Z) (scale inv : bool) (opts : GlowOpts)
    (step : MaCowStep St) :
  MaCowStep_new E name in_channels kernel_size hidden_channels s_channels scale inv opts
    = OK step ->
  exists u0 u1,
    units step = [u0; u1]
    /\ MaCowUnit_new E (name ++ [Attr "units"; Idx 0]) in_channels kernel_size
         s_channels scale inv = OK u0
    /\ MaCowUnit_new E (name ++ [Attr "units"; Idx 1]) in_channels kernel_size
         s_channels scale inv = OK u1
    /\ GlowStep E (name ++ [Attr "glow_step"]) in_channels hidden_channels s_channels
         scale inv opts = OK (glow_step step).
Proof.
  unfold MaCowStep_new. intro H.
  change (range 2) with [0%nat; 1%nat] in H. cbn [rmapM] in H. minv.
  eexists _, _. cbn [units glow_step]. repeat split; eassumption.
Qed.

Lemma MaCowStep_forward_chain (step : MaCowStep St) (u0 u1 : MaCowUnit St)
    (x : Tensor) (s : Cond) (st st' : St) (y ld : Tensor) :
  units step = [u0; u1] ->
  (MaCowStep_forward step x s st = (OK (y, ld), st')
   <-> exists b ls,
         size_at x 0 = OK b
         /\ chain [ fun x => MaCowUnit_forward u0 x s;
                    fun x => MaCowUnit_forward u1 x s;
                    fun x => forward (glow_step step) x s ] x st = (OK (y, ls), st')
         /\ length ls = 3%nat /\ sum_logdets (new_zeros b) ls = OK ld).
Proof.
  intro Hu. split.
  - unfold MaCowStep_forward. rewrite Hu. cbn [map run_flows]. intro H. minv.
    eexists _, [_; _; _]. split; [eassumption|]. split; [|split; [reflexivity|]].
    + unfold chain. mrun. reflexivity.
    + unfold sum_logdets. cbn [fold_left rbind]. mrun. reflexivity.
  - intros (b & ls & Hb & Hc & Hlen & Hsum).
    destruct ls as [|l1 [|l2 [|l3 [|? ?]]]]; try discriminate.
    unfold chain in Hc. minv.
    unfold sum_logdets in Hsum. cbn [fold_left] in Hsum. minv.
    unfold MaCowStep_forward. rewrite Hu. cbn [map run_flows]. mrun. reflexivity.
Qed.

End UnitStructure.

(** C7. A unit built by [MaCowUnit.__init__] holds a normalization, masked
    convolutions of order A and B with the kernel as given, a second
    normalization and masked convolutions of order C and D with the kernel
    transposed; [forward] returns exactly when these six, applied in that
    order, return, with the sum of their six log-determinants, and
    [backward] exactly when the six inverses, applied in the reverse order,
    do.  A step built by [MaCowStep.__init__] holds exactly two such units
    and one Glow step, which its [forward] applies in that order. *)
Theorem unit_and_step_structure St (E : Collab St) (name : path)
    (in_channels : Z) (kernel_size : list Z) (hidden_channels s_channels : Z)
    (scale inv : bool) (opts : GlowOpts) (step : MaCowStep St) :
  MaCowStep_new E name in_channels kernel_size hidden_channels s_channels scale inv opts
    = OK step ->
  exists u0 u1 k0 k1,
    units step = [u0; u1]
    /\ GlowStep E (name ++ [Attr "glow_step"]) in_channels hidden_channels s_channels
         scale inv opts = OK (glow_step step)
    /\ index kernel_size 0 = OK k0 /\ index kernel_size 1 = OK k1
    /\ (forall i u, nth_error [u0; u1] i = Some u ->
          let unit_name := name ++ [Attr "units"; Idx i] in
          ActNorm2dFlow E (unit_name ++ [Attr "actnorm1"]) in_channels inv
            = OK (actnorm1 u)
          /\ MaskedConvFlow E (unit_name ++ [Attr "conv1"]) in_channels (k0, k1)
               s_channels OrderA scale inv = OK (conv1 u)
          /\ MaskedConvFlow E (unit_name ++ [Attr "conv2"]) in_channels (k0, k1)
               s_channels OrderB scale inv = OK (conv2 u)
          /\ ActNorm2dFlow E (unit_name ++ [Attr "actnorm2"]) in_channels inv
               = OK (actnorm2 u)
          /\ MaskedConvFlow E (unit_name ++ [Attr "conv3"]) in_channels (k1, k0)
               s_channels OrderC scale inv = OK (conv3 u)
          /\ MaskedConvFlow E (unit_name ++ [Attr "conv4"]) in_channels (k1, k0)
               s_channels OrderD scale inv = OK (conv4 u)
          /\ (forall x s st st' y ld,
                MaCowUnit_forward u x s st = (OK (y, ld), st')
                <-> exists l1 ls,
                      chain (unit_forward_ops u s) x st = (OK (y, l1 :: ls), st')
                      /\ length ls = 5%nat /\ sum_logdets l1 ls = OK ld)
          /\ (forall x s st st' y ld,
                MaCowUnit_backward u x s st = (OK (y, ld), st')
                <-> exists l1 ls,
                      chain (rev (unit_backward_ops u s)) x st = (OK (y, l1 :: ls), st')
                      /\ length ls = 5%nat /\ sum_logdets l1 ls = OK ld))
    /\ (forall x s st st' y ld,
          MaCowStep_forward step x s st = (OK (y, ld), st')
          <-> exists b ls,
                size_at x 0 = OK b
                /\ chain [ fun x => MaCowUnit_forward u0 x s;
                           fun x => MaCowUnit_forward u1 x s;
                           fun x => forward (glow_step step) x s ] x st
                   = (OK (y, ls), st')
                /\ length ls = 3%nat /\ sum_logdets (new_zeros b) ls = OK ld).
Proof.
  intro H.
  destruct (MaCowStep_new_structure _ _ _ _ _ _ _ _ _ H) as (u0 & u1 & Hu & H0 & H1 & Hg).
  destruct (MaCowUnit_new_structure _ _ _ _ _ _ _ H0)
    as (k0 & k1 & Hk0 & Hk1 & Ha0 & Hb0 & Hc0 & Hd0 & He0 & Hf0).
  destruct (MaCowUnit_new_structure _ _ _ _ _ _ _ H1)
    as (k0' & k1' & Hk0' & Hk1' & Ha1 & Hb1 & Hc1 & Hd1 & He1 & Hf1).
  rewrite Hk0 in Hk0'. rewrite Hk1 in Hk1'. inversion Hk0'; inversion Hk1'; subst k0' k1'.
  exists u0, u1, k0, k1.
  split; [exact Hu|]. split; [exact Hg|]. split; [exact Hk0|]. split; [exact Hk1|].
  split.
  - intros i u Hi.
    assert (Hcase : (i = 0%nat /\ u = u0) \/ (i = 1%nat /\ u = u1)).
    { destruct i as [|[|i]]; cbn in Hi.
      - left. now inversion Hi.
      - right. now inversion Hi.
      - destruct i; discriminate. }
    destruct Hcase as [[-> ->] | [-> ->]]; cbv zeta;
      repeat (split; [eassumption|]);
      (split; intros; [apply MaCowUnit_forward_chain | apply MaCowUnit_backward_chain]).
  - intros. now apply MaCowStep_forward_chain.
Qed.

Lemma unit_and_step_structure_witness :
  MaCowStep_new example_collab [] 4 [3; 2]%Z 8 0 true false default_opts = OK (example_step 4)
  /\ exists u0 u1,
       units (example_step 4) = [u0; u1]
       /\ MaskedConvFlow example_collab [Attr "units"; Idx 1; Attr "conv3"] 4 (2, 3)%Z 0
            OrderC true false = OK (conv3 u1).
Proof.
  split; [reflexivity|].
  destruct (@unit_and_step_structure unit example_collab [] 4 [3; 2]%Z 8 0 true false
              default_opts (example_step 4) eq_refl)
    as (u0 & u1 & k0 & k1 & Hu & _ & Hk0 & Hk1 & Hunits & _).
  exists u0, u1. split; [exact Hu|].
  destruct (Hunits 1%nat u1 eq_refl) as (_ & _ & _ & _ & H3 & _).
  cbv zeta in H3. inversion Hk0; inversion Hk1; subst k0 k1. exact H3.
Defined.
(* ================================================================= *)
(** ** The channels of the top level *)

Section Channels.
Context {St : Type}.
Variable E : Collab St.

Lemma index_nth {A} (l : list A) (i : nat) (a d : A) :
  index l i = OK a -> nth i l d = a.
Proof.
  unfold index. destruct (nth_error l i) as [x|] eqn:Hx; [|discriminate].
  intro H. inversion H; subst. now apply nth_error_nth.
Qed.

Lemma internal_new_loop_z1 (name : path) (num_steps : list Z) :
  forall (i : nat) (in_channels : Z) (kernel_size : list Z)
         (hidden_channels s_channels factor channel_step : Z)
         (scale prior_scale inv : bool) (opts : GlowOpts)
         (ls : list (list (MaCowStep St))) (ps : list (Prior St)) (z1 : Z),
  internal_new_loop E name i num_steps in_channels kernel_size hidden_channels
    s_channels factor channel_step scale prior_scale inv opts = OK (ls, ps, z1) ->
  z1 = (in_channels - Z.of_nat (length num_steps) * channel_step)%Z
  /\ length ls = length num_steps /\ length ps = length num_steps.
Proof.
  induction num_steps as [|n ns IH]; intros i c ks h s f step sc psc inv opts ls ps z1 H.
  - cbn in H. inversion H; subst. cbn. repeat split. lia.
  - cbn [internal_new_loop] in H. minv.
    match goal with
    | H : (if ?b then _ else _) = OK _ |- _ => destruct b; [discriminate|]
    end.
    minv.
    match goal with
    | H : internal_new_loop _ _ _ _ _ _ _ _ _ _ _ _ _ _ = OK _ |- _ =>
        apply IH in H; destruct H as (Hz & Hl & Hp)
    end.
    cbn [length]. repeat split; try congruence. lia.
Qed.

Lemma MaCowInternalBlock_new_z1 (name : path) (num_steps : NumSteps)
    (in_channels : Z) (kernel_size : list Z) (hidden_channels s_channels factor : Z)
    (scale prior_scale inv : bool) (opts : GlowOpts) (b : MaCowInternalBlock) :
  MaCowInternalBlock_new E name num_steps in_channels kernel_size hidden_channels
    s_channels factor scale prior_scale inv opts = OK b ->
  z1_channels b = (in_channels - num_layers num_steps * (in_channels / factor))%Z
  /\ length (layers b) = length (priors b)
  /\ (num_layers num_steps < factor)%Z.
Proof.
  unfold MaCowInternalBlock_new. destruct num_steps as [n|ns]; [discriminate|].
  destruct (Z.of_nat (length ns) <? factor)%Z eqn:Hf; [|discriminate]. cbn [negb].
  intro H. minv.
  match goal with
  | H : (if ?b then _ else _) = OK _ |- _ => destruct b; [discriminate|]
  end.
  minv.
  match goal with
  | H : internal_new_loop _ _ _ _ _ _ _ _ _ _ _ _ _ _ = OK _ |- _ =>
      apply internal_new_loop_z1 in H; destruct H as (Hz & Hl & Hp)
  end.
  match goal with
  | H : floordiv _ _ = OK _ |- _ =>
      unfold floordiv in H; destruct (factor =? 0)%Z; [discriminate|];
      inversion H; subst; clear H
  end.
  cbn [z1_channels layers priors num_layers].
  repeat split; [congruence | lia].
Qed.

(** The blocks that the loop of [MaCow.__init__] builds from level
    [start] on: a bottom block when the pyramid has one and [start] is its
    level, then internal blocks, then the top block, which is given the
    channels retained below it, times four. *)
Lemma macow_new_loop_shape (name : path) (a : MaCowArgs) (factors : list Z)
    (slices : list (option Z)) :
  forall (len start : nat) (c s : Z) (bs : list (Block (St:=St))),
  macow_new_loop E name a factors slices (seq start len) c s = OK bs ->
  arg_levels a = Z.of_nat (start + len) -> (1 <= len)%nat ->
  (arg_bottom a = true -> start = 0%nat -> (2 <= len)%nat) ->
  exists bot ints top ns h sl s_top,
    bs = bot ++ map InternalBlock ints ++ [TopBlock top]
    /\ (bot = [] \/ (exists b, bot = [BottomBlock b]) /\ start = 0%nat /\ arg_bottom a = true)
    /\ (start = 0%nat -> arg_bottom a = true -> bot <> [])
    /\ (length bot + length ints = len - 1)%nat
    /\ index (arg_num_steps a) (start + len - 1) = OK ns
    /\ index (arg_hidden_channels a) (start + len - 1) = OK h
    /\ index slices (start + len - 1) = OK sl
    /\ MaCowTopBlock_new E (name ++ [Attr "blocks"; Idx (start + len - 1)]) ns
         (fold_left (fun c level => retained_after a factors level c)
                    (seq start (len - 1)) c * 4)
         (arg_kernel_size a) h s_top (arg_scale a) (arg_inverse a)
         (mkGlowOpts (arg_coupling_type a) sl (arg_heads a) (arg_pos_enc a)
                     (arg_dropout a)) = OK top.
Proof.
  induction len as [|len IH]; intros start c s bs H HL Hlen Hbot; [lia|].
  cbn [seq macow_new_loop] in H. minv.
  destruct ((start =? 0)%nat && arg_bottom a) eqn:Hb.
  - (* the bottom level *)
    apply andb_prop in Hb. destruct Hb as [Hs0 Hbt]. apply Nat.eqb_eq in Hs0. subst start.
    specialize (Hbot Hbt eq_refl).
    minv.
    match goal with
    | H : macow_new_loop _ _ _ _ _ _ _ _ = OK _ |- _ =>
        apply IH in H; [|rewrite HL; f_equal; lia | lia | intros _ Hx; discriminate];
        destruct H as (bot & ints & top & ns & h & sl & s_top
                       & -> & Hbot' & _ & Hcount & Hns & Hh & Hsl & Htop)
    end.
    destruct Hbot' as [-> | (_ & Hx & _)]; [|discriminate].
    eexists [BottomBlock _], ints, top, ns, h, sl, s_top.
    replace (0 + S len - 1)%nat with (1 + len - 1)%nat by lia.
    repeat split; try eassumption.
    + right. split; [eexists; reflexivity | now split].
    + discriminate.
    + cbn [length] in *. lia.
    + replace (S len - 1)%nat with (S (len - 1)) by lia.
      cbn [seq fold_left]. unfold retained_after at 2.
      rewrite Hbt. cbn [Nat.eqb andb]. exact Htop.
  - destruct (Z.of_nat start =? arg_levels a - 1)%Z eqn:Htopl.
    + (* the top level *)
      apply Z.eqb_eq in Htopl. assert (len = 0%nat) by lia. subst len.
      cbn [seq macow_new_loop] in H. minv.
      eexists [], [], _, _, _, _, _.
      replace (start + 1 - 1)%nat with start by lia.
      cbn [map app length seq fold_left Nat.sub].
      repeat split; try eassumption.
      * now left.
      * intros -> Hbt. rewrite Hbt in Hb. discriminate.
    + (* an internal level *)
      apply Z.eqb_neq in Htopl. assert (1 <= len)%nat by lia.
      minv.
      match goal with
      | H : macow_new_loop _ _ _ _ _ _ _ _ = OK _ |- _ =>
          apply IH in H; [|rewrite HL; f_equal; lia | lia | intros _ Hx; discriminate];
          destruct H as (bot & ints & top & ns & h & sl & s_top
                         & -> & Hbot' & _ & Hcount & Hns & Hh & Hsl & Htop)
      end.
      destruct Hbot' as [-> | (_ & Hx & _)]; [|discriminate].
      match goal with
      | Hi : MaCowInternalBlock_new _ _ _ _ _ _ _ _ _ _ _ _ = OK ?blk |- _ =>
          destruct (MaCowInternalBlock_new_z1 _ _ _ _ _ _ _ _ _ _ _ Hi) as (Hz & _ & _);
          eexists [], (blk :: ints), top, ns, h, sl, s_top
      end.
      replace (start + S len - 1)%nat with (S start + len - 1)%nat by lia.
      repeat split; try eassumption.
      * now left.
      * intros -> Hbt. rewrite Hbt in Hb. discriminate.
      * cbn [length] in *. lia.
      * replace (S len - 1)%nat with (S (len - 1)) by lia.
        cbn [seq fold_left]. unfold retained_after at 2. rewrite Hb.
        cbv zeta.
        match goal with
        | H1 : index (arg_num_steps a) start = OK _, H2 : index factors start = OK _ |- _ =>
            rewrite (index_nth _ _ (NInt 0) H1), (index_nth _ _ 0%Z H2)
        end.
        rewrite <- Hz. exact Htop.
Qed.

(** What [MaCow.__init__] builds. *)
Lemma MaCow_new_shape (name : path) (a : MaCowArgs) (m : MaCow (St:=St)) :
  MaCow_new E name a = OK m ->
  exists bot ints top ns h sl s_top,
    blocks m = bot ++ map InternalBlock ints ++ [TopBlock top]
    /\ (bot = [] \/ exists b, bot = [BottomBlock b])
    /\ internals m = Z.of_nat (length ints)
    /\ macow_inverse m = arg_inverse a
    /\ index (arg_num_steps a) (Z.to_nat (arg_levels a) - 1) = OK ns
    /\ index (arg_hidden_channels a) (Z.to_nat (arg_levels a) - 1) = OK h
    /\ MaCowTopBlock_new E (name ++ [Attr "blocks"; Idx (Z.to_nat (arg_levels a) - 1)]) ns
         (top_in_channels a) (arg_kernel_size a) h s_top (arg_scale a) (arg_inverse a)
         (mkGlowOpts (arg_coupling_type a) sl (arg_heads a) (arg_pos_enc a)
                     (arg_dropout a)) = OK top.
Proof.
  unfold MaCow_new. intro H.
  repeat match type of H with
  | (if negb ?b then _ else _) = OK _ =>
      let Hb := fresh "Hb" in destruct b eqn:Hb; cbn [negb] in H; [|discriminate]
  end.
  apply rbind_OK_inv in H. destruct H as (bs & Hloop & H). inversion H; subst m; clear H.
  cbn [blocks internals macow_inverse].
  apply Z.gtb_lt in Hb.
  unfold range in Hloop.
  apply macow_new_loop_shape in Hloop; [| cbn; lia | lia | lia].
  destruct Hloop as (bot & ints & top & ns & h & sl & s_top
                     & -> & Hbot & Hbot0 & Hcount & Hns & Hh & Hsl & Htop).
  cbn [Nat.add] in *.
  exists bot, ints, top, ns, h, sl, s_top.
  split; [reflexivity|]. split.
  { destruct Hbot as [-> | [Hx _]]; [now left | now right]. }
  split.
  { destruct (arg_bottom a) eqn:Hbt.
    - specialize (Hbot0 eq_refl eq_refl).
      destruct Hbot as [-> | [[b ->] _]]; [congruence|]. cbn [length] in Hcount. lia.
    - destruct Hbot as [-> | [_ [_ Hx]]]; [|discriminate]. cbn [length] in Hcount. lia. }
  split; [reflexivity|]. split; [exact Hns|]. split; [exact Hh|].
  exact Htop.
Qed.

End Channels.

Lemma top_in_channels_two_levels (a : MaCowArgs) :
  arg_bottom a = true -> arg_levels a = 2%Z ->
  top_in_channels a = (arg_in_channels a * 4 ^ (arg_levels a - 1))%Z.
Proof.
  intros Hb HL. unfold top_in_channels. rewrite HL.
  cbn [Z.to_nat Pos.to_nat Pos.iter_op Nat.add Nat.sub seq fold_left].
  unfold retained_after. rewrite Hb. cbn [Nat.eqb andb]. reflexivity.
Qed.

(** C6, as the code has it.  In a pyramid that [MaCow.__init__] builds, the
    last block is the top block, built for [top_in_channels] channels: four
    times the channels retained below it, where a bottom level keeps the
    channels it is given and an internal level squeezes them to four times
    as many and leaks a share of those at each of its layers.  With a
    bottom level and two levels this is the input channel count times
    [4 ^ (levels - 1)]. *)
Theorem top_level_channels St (E : Collab St) (name : path) (a : MaCowArgs)
    (m : MaCow (St:=St)) :
  MaCow_new E name a = OK m ->
  (exists pre top ns h sl s_top,
     blocks m = pre ++ [TopBlock top]
     /\ index (arg_num_steps a) (Z.to_nat (arg_levels a) - 1) = OK ns
     /\ index (arg_hidden_channels a) (Z.to_nat (arg_levels a) - 1) = OK h
     /\ MaCowTopBlock_new E (name ++ [Attr "blocks"; Idx (Z.to_nat (arg_levels a) - 1)]) ns
          (top_in_channels a) (arg_kernel_size a) h s_top (arg_scale a) (arg_inverse a)
          (mkGlowOpts (arg_coupling_type a) sl (arg_heads a) (arg_pos_enc a)
                      (arg_dropout a)) = OK top)
  /\ (arg_bottom a = true -> arg_levels a = 2%Z ->
      top_in_channels a = (arg_in_channels a * 4 ^ (arg_levels a - 1))%Z).
Proof.
  intro H. split; [|apply top_in_channels_two_levels].
  destruct (MaCow_new_shape _ _ _ H)
    as (bot & ints & top & ns & h & sl & s_top & Hb & _ & _ & _ & Hns & Hh & Htop).
  exists (bot ++ map InternalBlock ints), top, ns, h, sl, s_top.
  rewrite <- app_assoc. auto.
Qed.

Lemma top_level_channels_witness :
  exists m pre top,
    MaCow_new example_collab [] three_level_args = OK m
    /\ blocks m = pre ++ [TopBlock top]
    /\ MaCowTopBlock_new example_collab [Attr "blocks"; Idx 2] (NInt 1) 24 [3; 3]%Z 8 0
         true false (mkGlowOpts "conv" None 1 true 0.0) = OK top.
Proof.
  destruct (MaCow_new example_collab [] three_level_args) as [m|e] eqn:Hm;
    [|discriminate Hm].
  destruct (@top_level_channels unit example_collab [] three_level_args m Hm)
    as [(pre & top & ns & h & sl & s_top & Hb & Hns & Hh & Htop) _].
  exists m, pre, top. split; [reflexivity|]. split; [exact Hb|].
  inversion Hns; inversion Hh; subst ns h.
  cbn in Htop. revert Htop.
  unfold MaCowTopBlock_new, new_steps, MaCowStep_new, MaCowUnit_new. cbn.
  intro Htop. exact Htop.
Defined.

(** The claim C6 fails on the code: the top block of a pyramid of three
    levels over 3 channels takes tensors of 24 channels and rejects one of
    [3 * 4 ^ (3 - 1) = 48] channels. *)
Lemma top_level_channels_counterexample :
  exists m pre top,
    MaCow_new example_collab [] three_level_args = OK m
    /\ blocks m = pre ++ [TopBlock top]
    /\ (exists r, block_forward (top_steps top) (mkTensor [1; 24; 1; 1]%nat (repeat 0 24))
                    CNone tt = (OK r, tt))
    /\ block_forward (top_steps top) (mkTensor [1; 48; 1; 1]%nat (repeat 0 48)) CNone tt
       = (Err (RuntimeError "unexpected number of channels"), tt)
    /\ (arg_in_channels three_level_args * 4 ^ (arg_levels three_level_args - 1) = 48)%Z.
Proof.
  eexists _, [_; _], _.
  split; [reflexivity|].
  split; [reflexivity|].
  split; [eexists; reflexivity|].
  split; reflexivity.
Qed.
(* ================================================================= *)
(** ** The stack of leaked slices *)

Lemma py_pop_append {A} (l : list A) (x : A) : py_pop (py_append l x) = OK (x, l).
Proof. unfold py_pop, py_append. now rewrite rev_unit, rev_involutive. Qed.

Lemma py_pop_inv {A} (l l' : list A) (x : A) :
  py_pop l = OK (x, l') -> l = py_append l' x.
Proof.
  unfold py_pop, py_append. destruct (rev l) as [|y r] eqn:Hr; [discriminate|].
  intro H. inversion H; subst.
  rewrite <- (rev_involutive l), Hr. reflexivity.
Qed.

Section Stack.
Context {St : Type}.
Variable E : Collab St.

Lemma count_internal_app (bs1 bs2 : list (Block (St:=St))) :
  count_internal (bs1 ++ bs2) = (count_internal bs1 + count_internal bs2)%nat.
Proof. unfold count_internal. now rewrite filter_app, length_app. Qed.

Lemma count_internal_rev (bs : list (Block (St:=St))) :
  count_internal (rev bs) = count_internal bs.
Proof.
  induction bs as [|b bs IH]; [reflexivity|].
  cbn [rev]. rewrite count_internal_app, IH.
  change (b :: bs) with ([b] ++ bs). rewrite count_internal_app. lia.
Qed.

(** The downward loop of [forward] and [init] appends one slice for each
    internal block and removes none. *)
Lemma macow_down_loop_pushes (run : Block -> Tensor -> Cond -> M St (Tensor * Tensor))
    (bs : list Block) :
  forall out s ld outputs st out' ld' outputs' st',
  macow_down_loop E run bs out s ld outputs st = (OK (out', ld', outputs'), st') ->
  exists pushed, outputs' = outputs ++ pushed /\ length pushed = count_internal bs.
Proof.
  induction bs as [|block bs IH]; intros out s ld outputs st out' ld' outputs' st' H.
  - cbn in H. inversion H; subst. exists []. now rewrite app_nil_r.
  - cbn [macow_down_loop] in H.
    destruct block as [b|b|b]; cbn [is_internal is_top orb] in H; minv;
      match goal with
      | H : macow_down_loop _ _ _ _ _ _ _ _ = _ |- _ =>
          apply IH in H; destruct H as (pushed & -> & Hlen)
      end.
    + exists pushed. split; [reflexivity|]. exact Hlen.
    + unfold py_append. rewrite <- app_assoc. eexists. split; [reflexivity|].
      cbn [app length]. unfold count_internal in *. cbn [filter is_internal length].
      now rewrite Hlen.
    + exists pushed. split; [reflexivity|]. exact Hlen.
Qed.

(** The upward loop of [forward] and [init] removes [n] slices. *)
Lemma macow_up_loop_pops (n : nat) :
  forall out outputs out' outputs',
  macow_up_loop E n out outputs = OK (out', outputs') ->
  exists popped, outputs = outputs' ++ popped /\ length popped = n.
Proof.
  induction n as [|n IH]; intros out outputs out' outputs' H.
  - cbn in H. inversion H; subst. exists []. now rewrite app_nil_r.
  - cbn [macow_up_loop] in H. minv.
    match goal with
    | H : macow_up_loop _ _ _ _ = _ |- _ =>
        apply IH in H; destruct H as (popped & -> & Hlen)
    end.
    match goal with
    | H : py_pop _ = OK _ |- _ => apply py_pop_inv in H; rewrite H
    end.
    unfold py_append. rewrite <- app_assoc. eexists. split; [reflexivity|].
    rewrite length_app. cbn [length]. lia.
Qed.

(** A traversal by [forward] or [init] that reaches the final assertion
    has popped [internals] of the slices pushed for the internal blocks. *)
Lemma macow_traverse_balance (run : Block -> Tensor -> Cond -> M St (Tensor * Tensor))
    (m : MaCow) (x : Tensor) (s : Cond) (st st' : St) (out ld : Tensor)
    (outputs : list Tensor) :
  macow_traverse E run m x s st = (OK (out, ld, outputs), st') ->
  (Z.to_nat (internals m) + length outputs = count_internal (blocks m))%nat.
Proof.
  unfold macow_traverse. intro H. minv.
  match goal with
  | H : macow_down_loop _ _ _ _ _ _ _ _ = _ |- _ =>
      apply macow_down_loop_pushes in H; destruct H as (pushed & -> & Hpush)
  end.
  match goal with
  | H : macow_up_loop _ _ _ _ = _ |- _ =>
      apply macow_up_loop_pops in H; destruct H as (popped & Heq & Hpop)
  end.
  cbn [app] in Heq. subst pushed. rewrite length_app in Hpush. lia.
Qed.

(** The first loop of [backward] appends one slice for each internal
    block. *)
Lemma macow_backward_down_pushes (bs : list Block) :
  forall out s outputs out' s' outputs',
  macow_backward_down E bs out s outputs = OK (out', s', outputs') ->
  exists pushed, outputs' = outputs ++ pushed /\ length pushed = count_internal bs.
Proof.
  induction bs as [|block bs IH]; intros out s outputs out' s' outputs' H.
  - cbn in H. inversion H; subst. exists []. now rewrite app_nil_r.
  - cbn [macow_backward_down] in H.
    destruct block as [b|b|b]; minv;
      match goal with
      | H : macow_backward_down _ _ _ _ _ = _ |- _ =>
          apply IH in H; destruct H as (pushed & -> & Hlen)
      end.
    + exists pushed. split; [reflexivity|]. exact Hlen.
    + unfold py_append. rewrite <- app_assoc. eexists. split; [reflexivity|].
      cbn [app length]. unfold count_internal in *. cbn [filter is_internal length].
      now rewrite Hlen.
    + exists pushed. split; [reflexivity|]. exact Hlen.
Qed.

(** The second loop of [backward] removes one slice for each internal
    block. *)
Lemma macow_backward_up_pops (bs : list Block) :
  forall out s ld outputs st out' s' ld' outputs' st',
  macow_backward_up E bs out s ld outputs st = (OK (out', s', ld', outputs'), st') ->
  exists popped, outputs = outputs' ++ popped /\ length popped = count_internal bs.
Proof.
  induction bs as [|block bs IH]; intros out s ld outputs st out' s' ld' outputs' st' H.
  - cbn in H. inversion H; subst. exists []. now rewrite app_nil_r.
  - cbn [macow_backward_up] in H.
    destruct block as [b|b|b]; cbn [is_internal is_top orb] in H; minv;
      match goal with
      | H : macow_backward_up _ _ _ _ _ _ _ = _ |- _ =>
          apply IH in H; destruct H as (popped & -> & Hlen)
      end.
    + exists popped. split; [reflexivity|]. exact Hlen.
    + match goal with
      | H : py_pop _ = OK _ |- _ => apply py_pop_inv in H; rewrite H
      end.
      unfold py_append. rewrite <- app_assoc. eexists. split; [reflexivity|].
      rewrite length_app. cbn [length]. unfold count_internal in *.
      cbn [filter is_internal length]. lia.
    + exists popped. split; [reflexivity|]. exact Hlen.
Qed.

Lemma MaCow_backward_balance (m : MaCow) (x : Tensor) (s : Cond) (st st' : St)
    (out ld : Tensor) (outputs : list Tensor) :
  MaCow_backward_loops E m x s st = (OK (out, ld, outputs), st') -> outputs = [].
Proof.
  unfold MaCow_backward_loops. intro H. minv.
  match goal with
  | H : macow_backward_down _ _ _ _ _ = _ |- _ =>
      apply macow_backward_down_pushes in H; destruct H as (pushed & -> & Hpush)
  end.
  match goal with
  | H : macow_backward_up _ _ _ _ _ _ _ = _ |- _ =>
      apply macow_backward_up_pops in H; destruct H as (popped & Heq & Hpop)
  end.
  rewrite count_internal_rev in Hpop. cbn [app] in Heq. subst pushed.
  rewrite length_app in Hpush.
  match goal with
  | |- ?l = [] => destruct l; [reflexivity|]; cbn [length] in Hpush; lia
  end.
Qed.

(** The loops of an internal block. *)
Lemma internal_split_loop_pushes (ps : list (Prior St)) :
  forall out outputs out' outputs',
  internal_split_loop ps out outputs = OK (out', outputs') ->
  exists pushed, outputs' = outputs ++ pushed /\ length pushed = length ps.
Proof.
  induction ps as [|p ps IH]; intros out outputs out' outputs' H.
  - cbn in H. inversion H; subst. exists []. now rewrite app_nil_r.
  - cbn [internal_split_loop] in H. minv.
    match goal with
    | H : internal_split_loop _ _ _ = _ |- _ =>
        apply IH in H; destruct H as (pushed & -> & Hlen)
    end.
    unfold py_append. rewrite <- app_assoc. eexists. split; [reflexivity|].
    cbn [app length]. now rewrite Hlen.
Qed.

Lemma internal_backward_loop_pops (lps : list (list (MaCowStep St) * Prior St)) :
  forall out s ld outputs st out' ld' outputs' st',
  internal_backward_loop lps out s ld outputs st = (OK (out', ld', outputs'), st') ->
  exists popped, outputs = outputs' ++ popped /\ length popped = length lps.
Proof.
  induction lps as [|[layer prior] lps IH];
    intros out s ld outputs st out' ld' outputs' st' H.
  - cbn in H. inversion H; subst. exists []. now rewrite app_nil_r.
  - cbn [internal_backward_loop] in H. minv.
    match goal with
    | H : internal_backward_loop _ _ _ _ _ _ = _ |- _ =>
        apply IH in H; destruct H as (popped & -> & Hlen)
    end.
    match goal with
    | H : py_pop _ = OK _ |- _ => apply py_pop_inv in H; rewrite H
    end.
    unfold py_append. rewrite <- app_assoc. eexists. split; [reflexivity|].
    rewrite length_app. cbn [length]. lia.
Qed.

Lemma internal_forward_loop_pushes (lps : list (list (MaCowStep St) * Prior St)) :
  forall out s ld outputs st out' ld' outputs' st',
  internal_forward_loop lps out s ld outputs st = (OK (out', ld', outputs'), st') ->
  exists pushed, outputs' = outputs ++ pushed /\ length pushed = length lps.
Proof.
  induction lps as [|[layer prior] lps IH];
    intros out s ld outputs st out' ld' outputs' st' H.
  - cbn in H. inversion H; subst. exists []. now rewrite app_nil_r.
  - cbn [internal_forward_loop] in H. minv.
    match goal with
    | H : internal_forward_loop _ _ _ _ _ _ = _ |- _ =>
        apply IH in H; destruct H as (pushed & -> & Hlen)
    end.
    unfold py_append. rewrite <- app_assoc. eexists. split; [reflexivity|].
    cbn [app length]. now rewrite Hlen.
Qed.

Lemma internal_init_loop_pushes (init_scale : R)
    (lps : list (list (MaCowStep St) * Prior St)) :
  forall out s ld outputs st out' ld' outputs' st',
  internal_init_loop init_scale lps out s ld outputs st
    = (OK (out', ld', outputs'), st') ->
  exists pushed, outputs' = outputs ++ pushed /\ length pushed = length lps.
Proof.
  induction lps as [|[layer prior] lps IH];
    intros out s ld outputs st out' ld' outputs' st' H.
  - cbn in H. inversion H; subst. exists []. now rewrite app_nil_r.
  - cbn [internal_init_loop] in H. minv.
    match goal with
    | H : internal_init_loop _ _ _ _ _ _ _ = _ |- _ =>
        apply IH in H; destruct H as (pushed & -> & Hlen)
    end.
    unfold py_append. rewrite <- app_assoc. eexists. split; [reflexivity|].
    cbn [app length]. now rewrite Hlen.
Qed.

Lemma length_combine_rev {A B} (l : list A) (l' : list B) :
  length (combine (rev l) (rev l')) = Nat.min (length l) (length l').
Proof. now rewrite length_combine, !length_rev. Qed.

Lemma MaCowInternalBlock_backward_balance (b : MaCowInternalBlock) (x : Tensor)
    (s : Cond) (st st' : St) (out ld : Tensor) (outputs : list Tensor) :
  MaCowInternalBlock_backward_loops b x s st = (OK (out, ld, outputs), st') ->
  (length outputs + Nat.min (length (layers b)) (length (priors b))
   = length (priors b))%nat.
Proof.
  unfold MaCowInternalBlock_backward_loops. intro H. minv.
  match goal with
  | H : internal_split_loop _ _ _ = _ |- _ =>
      apply internal_split_loop_pushes in H; destruct H as (pushed & -> & Hpush)
  end.
  match goal with
  | H : internal_backward_loop _ _ _ _ _ _ = _ |- _ =>
      apply internal_backward_loop_pops in H; destruct H as (popped & Heq & Hpop)
  end.
  rewrite length_combine_rev in Hpop. cbn [app] in Heq. subst pushed.
  rewrite length_app in Hpush. lia.
Qed.

Lemma MaCowInternalBlock_forward_outputs_length (b : MaCowInternalBlock) (x : Tensor)
    (s : Cond) (st st' : St) (ld : Tensor) (outputs : list Tensor) :
  MaCowInternalBlock_forward_outputs b x s st = (OK (outputs, ld), st') ->
  length outputs = S (Nat.min (length (layers b)) (length (priors b))).
Proof.
  unfold MaCowInternalBlock_forward_outputs. intro H. minv.
  match goal with
  | H : internal_forward_loop _ _ _ _ _ _ = _ |- _ =>
      apply internal_forward_loop_pushes in H; destruct H as (pushed & -> & Hpush)
  end.
  rewrite length_rev. unfold py_append. rewrite length_app. cbn [app length].
  rewrite Hpush, length_combine. lia.
Qed.

Lemma MaCowInternalBlock_init_outputs_length (init_scale : R) (b : MaCowInternalBlock)
    (x : Tensor) (s : Cond) (st st' : St) (ld : Tensor) (outputs : list Tensor) :
  MaCowInternalBlock_init_outputs init_scale b x s st = (OK (outputs, ld), st') ->
  length outputs = S (Nat.min (length (layers b)) (length (priors b))).
Proof.
  unfold MaCowInternalBlock_init_outputs. intro H. minv.
  match goal with
  | H : internal_init_loop _ _ _ _ _ _ _ = _ |- _ =>
      apply internal_init_loop_pushes in H; destruct H as (pushed & -> & Hpush)
  end.
  rewrite length_rev. unfold py_append. rewrite length_app. cbn [app length].
  rewrite Hpush, length_combine. lia.
Qed.

(** The final assertion of the four traversals that have one. *)
Lemma bind_assert_empty (t : M St (Tensor * Tensor * list Tensor)) (st : St) :
  bind t (fun r => let '(out, logdet_accum, outputs) := r in
                   bind (assert_ (length outputs =? 0)%nat)
                        (fun _ => ret (out, logdet_accum))) st
  = after_assert (t st).
Proof.
  unfold bind, after_assert.
  destruct (t st) as [[[[out ld] outputs]|e] st']; [|reflexivity].
  destruct outputs; reflexivity.
Qed.

Lemma bind_unsplit (t : M St (list Tensor * Tensor)) (st : St) :
  bind t (fun r => let '(outputs, logdet_accum) := r in
                   bind (lift (unsplit2d outputs))
                        (fun out => ret (out, logdet_accum))) st
  = after_unsplit (t st).
Proof.
  unfold bind, after_unsplit, lift.
  destruct (t st) as [[[outputs ld]|e] st']; [|reflexivity].
  destruct (unsplit2d outputs); reflexivity.
Qed.

(** In a pyramid that the constructor built, [internals] counts the
    internal blocks. *)
Lemma MaCow_new_internals (name : path) (a : MaCowArgs) (m : MaCow) :
  MaCow_new E name a = OK m ->
  Z.to_nat (internals m) = count_internal (blocks m).
Proof.
  intro H.
  destruct (MaCow_new_shape _ _ _ H)
    as (bot & ints & top & ns & h & sl & s_top & -> & Hbot & -> & _).
  rewrite Nat2Z.id, !count_internal_app.
  assert (Hb : count_internal bot = 0%nat)
    by (destruct Hbot as [-> | [b ->]]; reflexivity).
  assert (Hi : count_internal (map InternalBlock ints) = length ints).
  { unfold count_internal. induction ints as [|i ints IH]; [reflexivity|].
    cbn [map filter is_internal length]. now rewrite IH. }
  rewrite Hb, Hi. cbn. lia.
Qed.

End Stack.

(** C3, as the code has it.  [forward], [init] and [backward] of the
    pyramid and [backward] of an internal block end with an assertion that
    the stack of leaked slices is empty, which aborts the call otherwise.
    In [forward] and [init] one slice is pushed for each internal block and
    [internals] are popped, as many as were pushed in a pyramid that the
    constructor built; in the two [backward] one slice is pushed and one
    popped for each internal block (for each prior and each layer).
    [forward] and [init] of an internal block pop nothing and assert
    nothing: the list of one slice for each layer and the retained slice is
    recombined as a whole. *)
Theorem split_stack_balance St (E : Collab St) (m : MaCow) (b : MaCowInternalBlock)
    (x : Tensor) (s : Cond) (init_scale : R) (st : St) :
  (* the assertion *)
  MaCow_forward E m x s st = after_assert (macow_traverse E Block_forward m x s st)
  /\ MaCow_init E m x s init_scale st
     = after_assert (macow_traverse E (Block_init init_scale) m x s st)
  /\ MaCow_backward E m x s st = after_assert (MaCow_backward_loops E m x s st)
  /\ MaCowInternalBlock_backward b x s st
     = after_assert (MaCowInternalBlock_backward_loops b x s st)
  (* the pyramid *)
  /\ (forall run out ld outputs st',
        macow_traverse E run m x s st = (OK (out, ld, outputs), st') ->
        (Z.to_nat (internals m) + length outputs = count_internal (blocks m))%nat)
  /\ (forall name a, MaCow_new E name a = OK m ->
        Z.to_nat (internals m) = count_internal (blocks m))
  /\ (forall out ld outputs st',
        MaCow_backward_loops E m x s st = (OK (out, ld, outputs), st') -> outputs = [])
  (* the internal block *)
  /\ (forall out ld outputs st',
        MaCowInternalBlock_backward_loops b x s st = (OK (out, ld, outputs), st') ->
        length (layers b) = length (priors b) -> outputs = [])
  /\ MaCowInternalBlock_forward b x s st
     = after_unsplit (MaCowInternalBlock_forward_outputs b x s st)
  /\ MaCowInternalBlock_init init_scale b x s st
     = after_unsplit (MaCowInternalBlock_init_outputs init_scale b x s st)
  /\ (forall ld outputs st',
        MaCowInternalBlock_forward_outputs b x s st = (OK (outputs, ld), st')
        \/ MaCowInternalBlock_init_outputs init_scale b x s st = (OK (outputs, ld), st') ->
        length outputs = S (Nat.min (length (layers b)) (length (priors b)))).
Proof.
  split; [apply bind_assert_empty|].
  split; [apply bind_assert_empty|].
  split; [apply bind_assert_empty|].
  split; [apply bind_assert_empty|].
  split; [intros; eapply macow_traverse_balance; eassumption|].
  split; [intros; eapply MaCow_new_internals; eassumption|].
  split; [intros; eapply MaCow_backward_balance; eassumption|].
  split.
  { intros out ld outputs st' H Hlen.
    apply MaCowInternalBlock_backward_balance in H.
    destruct outputs; [reflexivity|]. cbn [length] in H. lia. }
  split; [apply bind_unsplit|].
  split; [apply bind_unsplit|].
  intros ld outputs st' [H | H].
  - eapply MaCowInternalBlock_forward_outputs_length; eassumption.
  - eapply MaCowInternalBlock_init_outputs_length; eassumption.
Qed.

Lemma split_stack_balance_witness :
  MaCow_new example_collab [] small_args = OK small_macow
  /\ Z.to_nat (internals small_macow) = count_internal (blocks small_macow)
  /\ exists out ld,
       macow_traverse example_collab Block_forward small_macow small_image CNone tt
         = (OK (out, ld, []), tt)
       /\ MaCow_forward example_collab small_macow small_image CNone tt
          = (OK (out, ld), tt).
Proof.
  destruct (@split_stack_balance unit example_collab small_macow small_internal
              small_image CNone 1 tt)
    as (Hfwd & _ & _ & _ & Hbal & Hnew & _).
  split; [reflexivity|].
  split; [exact (Hnew [] small_args eq_refl)|].
  eexists. eexists. split; [reflexivity|].
  rewrite Hfwd. reflexivity.
Defined.

(** The claim C3 fails on the code: [forward] of an internal block that the
    constructor built returns with a list of two slices that was never
    popped and that no assertion inspected. *)
Lemma split_stack_balance_counterexample :
  MaCowInternalBlock_new example_collab [] (NList [1]%Z) 4 [3; 3]%Z 8 0 2
    true true false default_opts = OK small_internal
  /\ exists outputs ld out,
       MaCowInternalBlock_forward_outputs small_internal
         (mkTensor [1; 4; 1; 1]%nat [1; 2; 3; 4]) CNone tt = (OK (outputs, ld), tt)
       /\ length outputs = 2%nat
       /\ MaCowInternalBlock_forward small_internal
            (mkTensor [1; 4; 1; 1]%nat [1; 2; 3; 4]) CNone tt = (OK (out, ld), tt).
Proof.
  split; [reflexivity|].
  eexists. eexists. eexists.
  split; [reflexivity|]. split; reflexivity.
Qed.
(* ================================================================= *)
(** ** Invertibility: log-determinants *)

Lemma entry_tneg (t : Tensor) (i : nat) : entry (tneg t) i = - entry t i.
Proof.
  unfold entry, tneg. cbn [storage].
  rewrite <- Ropp_0 at 1. apply map_nth.
Qed.

Lemma entry_new_zeros (b i : nat) : entry (new_zeros b) i = 0.
Proof.
  unfold entry, new_zeros. cbn [storage].
  destruct (Nat.lt_ge_cases i b) as [Hi | Hi].
  - now apply nth_repeat_lt.
  - apply nth_overflow. now rewrite repeat_length.
Qed.

Lemma vec_new_zeros (b : nat) : vec b (new_zeros b).
Proof. split; [reflexivity|]. cbn. apply repeat_length. Qed.

Lemma vec_tneg (b : nat) (t : Tensor) : vec b t -> vec b (tneg t).
Proof. intros [Hs Hl]. split; [exact Hs|]. cbn [tneg storage]. now rewrite length_map. Qed.

Lemma vec_ext (b : nat) (u v : Tensor) :
  vec b u -> vec b v -> (forall i, entry u i = entry v i) -> u = v.
Proof.
  intros [Hsu Hlu] [Hsv Hlv] H. destruct u as [su lu], v as [sv lv].
  cbn [size storage] in *. subst su sv. f_equal.
  apply nth_ext with (d := 0) (d' := 0); [congruence|]. intros i _. apply H.
Qed.

Lemma nth_map2_Rplus (l1 l2 : list R) (i : nat) :
  length l1 = length l2 ->
  nth i (map2 Rplus l1 l2) 0 = nth i l1 0 + nth i l2 0.
Proof.
  revert l2 i; induction l1 as [|a l1 IH]; intros [|b l2] [|i] H;
    simpl in *; try discriminate; try lra.
  apply IH. congruence.
Qed.

Lemma tadd_vec_inv (b : nat) (u v w : Tensor) :
  vec b u -> vec b v -> tadd u v = OK w ->
  vec b v /\ vec b w /\ forall i, entry w i = entry u i + entry v i.
Proof.
  intros [Hs Hl] [Hsv Hlv] H.
  apply ebinop_OK_inv in H; [|congruence]. destruct H as (_ & ->).
  unfold vec, entry. cbn [size storage].
  repeat split; try congruence.
  - rewrite length_map2; congruence.
  - intro i. apply nth_map2_Rplus. congruence.
Qed.

Lemma tadd_vec (b : nat) (u v : Tensor) :
  vec b u -> vec b v ->
  exists w, tadd u v = OK w /\ vec b w /\ forall i, entry w i = entry u i + entry v i.
Proof.
  intros Hu Hv. pose proof Hu as [Hs Hl]. pose proof Hv as [Hs' Hl'].
  unfold tadd. rewrite ebinop_OK by congruence.
  eexists. split; [reflexivity|].
  split.
  - split; [exact Hs|]. cbn [storage]. rewrite length_map2; congruence.
  - intro i. unfold entry. cbn [storage]. apply nth_map2_Rplus. congruence.
Qed.

(** A backward accumulator that started at zero and is balanced against a
    forward one that started at zero is its negation. *)
Lemma balanced_zeros (b : nat) (a' ld : Tensor) :
  vec b a' -> vec b ld ->
  balanced a' ld (new_zeros b) (new_zeros b) -> a' = tneg ld.
Proof.
  intros Ha Hl H. apply vec_ext with (b := b); [exact Ha | now apply vec_tneg |].
  intro i. specialize (H i). rewrite !entry_new_zeros in H. rewrite entry_tneg. lra.
Qed.

Lemma bind_assoc {St A B C} (m : M St A) (k1 : A -> M St B) (k2 : B -> M St C) (st : St) :
  bind (bind m k1) k2 st = bind m (fun a => bind (k1 a) k2) st.
Proof. unfold bind. destruct (m st) as [[a|e] st1]; reflexivity. Qed.

Lemma bind_ext {St A B} (m : M St A) (k k' : A -> M St B) (st : St) :
  (forall a st1, k a st1 = k' a st1) -> bind m k st = bind m k' st.
Proof. intro H. unfold bind. destruct (m st) as [[a|e] st1]; [apply H | reflexivity]. Qed.

Section RunFlows.
Context {St : Type}.

Lemma run_flows_app (fs1 fs2 : list (Tensor -> Cond -> M St (Tensor * Tensor)))
    (x : Tensor) (s : Cond) (a : Tensor) (st : St) :
  run_flows (fs1 ++ fs2) x s a st
  = bind (run_flows fs1 x s a) (fun r => let '(x1, a1) := r in run_flows fs2 x1 s a1) st.
Proof.
  revert x a st. induction fs1 as [|f fs1 IH]; intros x a st.
  - reflexivity.
  - cbn [app run_flows]. unfold bind, lift.
    destruct (f x s st) as [[[x1 l1]|e] st1]; [|reflexivity].
    destruct (tadd a l1) as [a1|e]; [|reflexivity].
    rewrite IH. reflexivity.
Qed.

(** A loop over invertible flows is undone by the loop over their
    inverses in the reverse order. *)
Lemma run_flows_acc_pair (fs bs : list (Tensor -> Cond -> M St (Tensor * Tensor))) :
  Forall2 inverse_pair fs bs ->
  acc_pair (run_flows fs) (run_flows (rev bs)).
Proof.
  induction 1 as [|f g fs bs Hfg _ IH]; unfold acc_pair in *.
  all: intros x s ld0 st y ld st' b Hwf Hb Hld0 H.
  - cbn in H. inversion H; subst.
    split; [reflexivity|]. split; [reflexivity|]. split; [assumption|].
    split; [assumption|].
    intros a Ha. exists a. cbn [rev run_flows]. split; [reflexivity|].
    split; [exact Ha|]. intro i. lra.
  - cbn [run_flows] in H. minv.
    match goal with
    | Hf : f x s st = (OK (?x1, ?l1), ?st1) |- _ =>
        destruct (Hfg _ _ _ _ _ _ Hwf Hf) as (Hst & Hsz1 & Hwf1 & (b' & Hb' & Hl1) & Hg)
    end.
    subst. rewrite Hb in Hb'. inversion Hb'; subst b'.
    match goal with
    | Ht : tadd ld0 _ = OK ?ld1 |- _ =>
        destruct (@tadd_vec_inv _ _ _ _ Hld0 Hl1 Ht) as (_ & Hld1 & He1)
    end.
    match goal with
    | Hr : run_flows fs ?x1 s ?ld1 st = _ |- _ =>
        assert (Hb1 : size_at x1 0 = OK b) by (unfold size_at in *; now rewrite Hsz1);
        destruct (IH _ _ _ _ _ _ _ _ Hwf1 Hb1 Hld1 Hr) as (Hst & Hsz & Hwfy & Hld & Hback)
    end.
    subst.
    split; [reflexivity|]. split; [congruence|]. split; [assumption|].
    split; [assumption|].
    intros a Ha. destruct (Hback a Ha) as (a1 & Hrun & Ha1 & Hbal).
    cbn [rev]. rewrite run_flows_app. unfold bind at 1. rewrite Hrun.
    cbn [run_flows]. unfold bind at 1. rewrite Hg.
    destruct (@tadd_vec _ _ _ Ha1 (@vec_tneg _ _ Hl1)) as (a' & Hadd & Ha' & Hea').
    unfold bind, lift, ret. rewrite Hadd.
    eexists. split; [reflexivity|]. split; [exact Ha'|].
    intro i. specialize (Hbal i). rewrite Hea', entry_tneg. rewrite He1 in Hbal. lra.
Qed.

Lemma tadd_zeros_l (b : nat) (l a : Tensor) :
  vec b l -> tadd (new_zeros b) l = OK a -> a = l.
Proof.
  intros Hl H. destruct (@tadd_vec_inv b _ _ _ (vec_new_zeros b) Hl H) as (_ & Ha & He).
  apply vec_ext with (b := b); [exact Ha | exact Hl |].
  intro i. rewrite He, entry_new_zeros. lra.
Qed.

(** The first step of the loop over the inverses, on the output of the
    loop over the flows, returns a log-determinant for the batch. *)
Lemma run_flows_last (fs gs : list (Tensor -> Cond -> M St (Tensor * Tensor))) :
  Forall2 inverse_pair fs gs ->
  forall x s ld0 st y ld st' b g' gs',
    wf x -> size_at x 0 = OK b -> vec b ld0 -> fs <> [] ->
    run_flows fs x s ld0 st = (OK (y, ld), st') ->
    rev gs = g' :: gs' ->
    exists o l, g' y s st = (OK (o, l), st) /\ vec b l.
Proof.
  induction 1 as [|f g fs gs Hfg Hrest IH];
    intros x s ld0 st y ld st' b g' gs' Hwf Hb Hld0 Hne H Hrev; [congruence|].
  cbn [run_flows] in H. minv.
  match goal with
  | Hf : f x s st = (OK (?x1, ?l1), ?st1) |- _ =>
      destruct (Hfg _ _ _ _ _ _ Hwf Hf) as (Hst & Hsz1 & Hwf1 & (b' & Hb' & Hl1) & Hg)
  end.
  subst. rewrite Hb in Hb'. inversion Hb'; subst b'.
  match goal with
  | Ht : tadd ld0 _ = OK ?ld1 |- _ =>
      destruct (@tadd_vec_inv _ _ _ _ Hld0 Hl1 Ht) as (_ & Hld1 & _)
  end.
  cbn [rev] in Hrev.
  destruct fs as [|f2 fs].
  - inversion Hrest; subst. cbn [rev app] in Hrev. inversion Hrev; subst.
    match goal with
    | Hr : run_flows [] _ _ _ _ = _ |- _ => cbn in Hr; inversion Hr; subst
    end.
    eexists _, _. split; [exact Hg|]. now apply vec_tneg.
  - destruct (rev gs) as [|h tl_gs] eqn:Hrg.
    + inversion Hrest; subst. cbn [rev] in Hrg.
      apply (f_equal (@length _)) in Hrg. rewrite length_app in Hrg. cbn in Hrg. lia.
    + cbn [app] in Hrev. inversion Hrev; subst.
      match goal with
      | Hr : run_flows (f2 :: fs) ?x1 s ?ld1 st = _ |- _ =>
          assert (Hb1 : size_at x1 0 = OK b) by (unfold size_at in *; now rewrite Hsz1);
          exact (IH _ _ _ _ _ _ _ _ _ _ Hwf1 Hb1 Hld1 ltac:(discriminate) Hr eq_refl)
      end.
Qed.

Lemma tadd_zeros_l_OK (b : nat) (l : Tensor) : vec b l -> tadd (new_zeros b) l = OK l.
Proof.
  intro Hl. destruct (@tadd_vec b _ _ (vec_new_zeros b) Hl) as (w & Hw & Hv & He).
  rewrite Hw. f_equal. apply vec_ext with (b := b); [exact Hv | exact Hl |].
  intro i. rewrite He, entry_new_zeros. lra.
Qed.

(** Two loops that undo each other, started at zero, make an invertible
    pair. *)
Lemma acc_pair_zeros (F B : Tensor -> Cond -> Tensor -> M St (Tensor * Tensor)) :
  acc_pair F B ->
  inverse_pair (fun x s => b <- lift (size_at x 0) ;; F x s (new_zeros b))
               (fun y s => b <- lift (size_at y 0) ;; B y s (new_zeros b)).
Proof.
  intros HFB x s st y ld st' Hwf H. minv.
  match goal with
  | Hb : size_at x 0 = OK ?b, HF : F x s _ st = _ |- _ =>
      destruct (HFB _ _ _ _ _ _ _ _ Hwf Hb (vec_new_zeros b) HF)
        as (Hst & Hsz & Hwfy & Hld & Hback);
      destruct (Hback _ (vec_new_zeros b)) as (a' & HB & Ha' & Hbal);
      rewrite (@balanced_zeros b a' ld Ha' Hld Hbal) in HB;
      subst; repeat split; try assumption;
      [ exists b; split; assumption
      | unfold bind, lift; unfold size_at in *; rewrite Hsz, Hb; exact HB ]
  end.
Qed.

(** The same for a sequence whose first log-determinant starts the
    sum. *)
Lemma run_head_inverse (f g' : Tensor -> Cond -> M St (Tensor * Tensor))
    (fs gs gs' : list (Tensor -> Cond -> M St (Tensor * Tensor))) :
  Forall2 inverse_pair (f :: fs) gs -> rev gs = g' :: gs' ->
  inverse_pair (fun x s => '(o, l) <- f x s ;; run_flows fs o s l)
               (fun y s => '(o, l) <- g' y s ;; run_flows gs' o s l).
Proof.
  intros HFG Hrev x s st y ld st' Hwf H.
  pose proof (run_flows_acc_pair HFG) as Hacc.
  inversion HFG as [|f0 g0 fs0 gs0 Hfg _ Ef Eg]; subst.
  minv.
  match goal with
  | Hf : f x s st = (OK (?o, ?l), ?st1) |- _ =>
      destruct (Hfg _ _ _ _ _ _ Hwf Hf) as (Hst1 & _ & _ & (b & Hb & Hl) & _);
      assert (Hrun : run_flows (f :: fs) x s (new_zeros b) st = (OK (y, ld), st'))
        by (cbn [run_flows]; unfold bind at 1; rewrite Hf;
            unfold bind at 1, lift; rewrite (tadd_zeros_l_OK Hl); assumption)
  end.
  destruct (Hacc _ _ _ _ _ _ _ _ Hwf Hb (vec_new_zeros b) Hrun)
    as (Hst & Hsz & Hwfy & Hld & Hback).
  destruct (Hback _ (vec_new_zeros b)) as (a' & HB & Ha' & Hbal).
  rewrite (@balanced_zeros b a' ld Ha' Hld Hbal) in HB.
  rewrite Hrev in HB. cbn [run_flows] in HB.
  repeat split; try assumption.
  - exists b. split; assumption.
  - apply bind_OK_inv in HB. destruct HB as ([o l] & st2 & Hg & HB).
    apply bind_OK_inv in HB. destruct HB as (a1 & st3 & Hadd & HB).
    apply lift_OK_inv in Hadd. destruct Hadd as [Hadd ->].
    destruct (@run_flows_last _ _ HFG _ _ _ _ _ _ _ _ _ _ Hwf Hb (vec_new_zeros b)
                ltac:(discriminate) Hrun Hrev) as (o' & l' & Hg' & Hl').
    rewrite Hg' in Hg. inversion Hg; subst.
    apply (tadd_zeros_l Hl') in Hadd. subst.
    unfold bind. rewrite Hg'. exact HB.
Qed.

End RunFlows.

(* ================================================================= *)
(** ** Invertibility: units, steps and blocks *)

Section Composites.
Context {St : Type}.

Lemma flow_ok_no_cond (f : Flow St) :
  flow_ok f ->
  inverse_pair (fun x (_ : Cond) => forward f x CNone)
               (fun y (_ : Cond) => backward f y CNone).
Proof. intros H x s st y ld st' Hwf Hf. exact (H x CNone st y ld st' Hwf Hf). Qed.

(** A unit undoes itself when its six sub-flows do. *)
Lemma MaCowUnit_inverse (u : MaCowUnit St) :
  flow_ok (actnorm1 u) -> flow_ok (conv1 u) -> flow_ok (conv2 u) ->
  flow_ok (actnorm2 u) -> flow_ok (conv3 u) -> flow_ok (conv4 u) ->
  unit_ok u.
Proof.
  intros Ha1 Hc1 Hc2 Ha2 Hc3 Hc4.
  apply (@run_head_inverse St
           (fun x _ => forward (actnorm1 u) x CNone)
           (backward (conv4 u))
           [ forward (conv1 u); forward (conv2 u);
             (fun x _ => forward (actnorm2 u) x CNone);
             forward (conv3 u); forward (conv4 u) ]
           [ (fun y _ => backward (actnorm1 u) y CNone);
             backward (conv1 u); backward (conv2 u);
             (fun y _ => backward (actnorm2 u) y CNone);
             backward (conv3 u); backward (conv4 u) ]
           [ backward (conv3 u);
             (fun y _ => backward (actnorm2 u) y CNone);
             backward (conv2 u); backward (conv1 u);
             (fun y _ => backward (actnorm1 u) y CNone) ]).
  - repeat (apply Forall2_cons; [first [assumption | now apply flow_ok_no_cond]|]).
    apply Forall2_nil.
  - reflexivity.
Qed.

Lemma Forall2_map_same {A B C} (R : B -> C -> Prop) (f : A -> B) (g : A -> C)
    (l : list A) :
  Forall (fun a => R (f a) (g a)) l -> Forall2 R (map f l) (map g l).
Proof. induction 1; simpl; constructor; assumption. Qed.

(** A step undoes itself when its units and its coupling sub-block do. *)
Lemma MaCowStep_inverse (step : MaCowStep St) :
  Forall unit_ok (units step) -> flow_ok (glow_step step) -> step_ok step.
Proof.
  intros Hu Hg x s st y ld st' Hwf H.
  pose proof (run_flows_acc_pair
                (Forall2_map_same inverse_pair MaCowUnit_forward MaCowUnit_backward Hu))
    as Hacc.
  rewrite <- map_rev in Hacc.
  unfold MaCowStep_forward in H. minv.
  match goal with
  | Hb : size_at x 0 = OK ?b, Hr : run_flows _ x s _ st = (OK (?o, ?la), _) |- _ =>
      destruct (Hacc _ _ _ _ _ _ _ _ Hwf Hb (vec_new_zeros b) Hr)
        as (Hst1 & Hsz1 & Hwf1 & Hla & Hback); subst;
      match goal with
      | Hf : forward (glow_step step) o s _ = (OK (_, ?lg), _),
        Hadd : tadd la ?lg = OK _ |- _ =>
          destruct (Hg _ _ _ _ _ _ Hwf1 Hf) as (Hst & Hsz & Hwfy & (b' & Hb' & Hlg) & Hgb);
          assert (Hbb : b' = b)
            by (unfold size_at in *; rewrite Hsz1, Hb in Hb'; now inversion Hb');
          subst b';
          destruct (Hback _ (vec_tneg Hlg)) as (a' & HB & Ha' & Hbal);
          destruct (@tadd_vec_inv b _ _ _ Hla Hlg Hadd) as (_ & Hld & He)
      end
  end.
  subst. repeat split; try congruence.
  - eexists. split; eassumption.
  - unfold MaCowStep_backward, bind. rewrite Hgb, HB. unfold ret.
    do 2 f_equal. f_equal.
    eapply vec_ext; [exact Ha' | apply vec_tneg; exact Hld |].
    intro i. specialize (Hbal i).
    rewrite entry_tneg in *. rewrite He. rewrite entry_new_zeros in Hbal. lra.
Qed.

(** The loops over the steps of a block or layer undo each other. *)
Lemma steps_acc_pair (steps : list (MaCowStep St)) :
  Forall step_ok steps -> acc_pair (steps_forward steps) (steps_backward steps).
Proof.
  intro H. unfold steps_forward, steps_backward. rewrite map_rev.
  apply run_flows_acc_pair. now apply Forall2_map_same.
Qed.

(** A bottom or top block undoes itself when its steps do. *)
Lemma block_inverse (steps : list (MaCowStep St)) :
  Forall step_ok steps -> inverse_pair (block_forward steps) (block_backward steps).
Proof. intro H. exact (acc_pair_zeros (steps_acc_pair H)). Qed.

End Composites.

(* ================================================================= *)
(** ** Invertibility: the internal block *)

Lemma combine_app_eq {A B} (l1 l2 : list A) (p1 p2 : list B) :
  length l1 = length p1 ->
  combine (l1 ++ l2) (p1 ++ p2) = combine l1 p1 ++ combine l2 p2.
Proof.
  revert p1; induction l1 as [|a l1 IH]; intros [|b p1] H; simpl in *;
    try discriminate; [reflexivity|].
  f_equal. apply IH. congruence.
Qed.

Lemma combine_rev_eq {A B} (l : list A) (p : list B) :
  length l = length p -> combine (rev l) (rev p) = rev (combine l p).
Proof.
  revert p; induction l as [|a l IH]; intros [|b p] H; simpl in *;
    try discriminate; [reflexivity|].
  rewrite combine_app_eq by (rewrite !length_rev; congruence).
  rewrite IH by congruence. reflexivity.
Qed.

Lemma map_snd_combine_eq {A B} (l : list A) (p : list B) :
  length l = length p -> map snd (combine l p) = p.
Proof.
  revert p; induction l as [|a l IH]; intros [|b p] H; simpl in *;
    try discriminate; [reflexivity|].
  f_equal. apply IH. congruence.
Qed.

Lemma Forall_combine {A B} (P : A -> Prop) (Q : B -> Prop) (l : list A) (p : list B) :
  Forall P l -> Forall Q p -> Forall (fun lp => P (fst lp) /\ Q (snd lp)) (combine l p).
Proof.
  intro HP. revert p. induction HP as [|a l Ha _ IH]; intros p HQ; simpl.
  - constructor.
  - destruct HQ as [|b p Hb HQ]; constructor; [now split | now apply IH].
Qed.

Lemma cat_dim1_snoc (t : Tensor) (ts : list Tensor) (u : Tensor) :
  cat_dim1 (t :: ts ++ [u]) = rbind (cat_dim1 (t :: ts)) (fun a => cat2 a u).
Proof. unfold cat_dim1. now rewrite fold_left_app. Qed.

Section Internal.
Context {St : Type}.

Lemma internal_backward_loop_app (l1 l2 : list (list (MaCowStep St) * Prior St))
    (out : Tensor) (s : Cond) (a : Tensor) (outputs : list Tensor) (st : St) :
  internal_backward_loop (l1 ++ l2) out s a outputs st
  = bind (internal_backward_loop l1 out s a outputs)
         (fun r => let '(o, a1, outs1) := r in internal_backward_loop l2 o s a1 outs1) st.
Proof.
  revert out a outputs st. induction l1 as [|[layer prior] l1 IH]; intros out a outputs st.
  - reflexivity.
  - cbn [app internal_backward_loop]. unfold bind, lift.
    destruct (py_pop outputs) as [[o2 outs]|e]; [|reflexivity].
    destruct (unsplit2d [out; o2]) as [o|e]; [|reflexivity].
    destruct (backward (prior_flow prior) o s st) as [[[o' l]|e] st1]; [|reflexivity].
    destruct (tadd a l) as [a1|e]; [|reflexivity].
    destruct (steps_backward layer o' s a1 st1) as [[[o'' a2]|e] st2]; [|reflexivity].
    rewrite IH. reflexivity.
Qed.

(** The loops of an internal block undo each other: the backward pass
    finds, in the recombined output, the slices that the forward pass
    leaked, and takes them back through the layers in reverse. *)
Lemma internal_loops_inverse (lps : list (list (MaCowStep St) * Prior St)) :
  Forall (fun lp => Forall step_ok (fst lp) /\ flow_ok (prior_flow (snd lp))) lps ->
  forall out s ld0 outputs st out_n ld_n outs st' b,
    wf out -> size_at out 0 = OK b -> vec b ld0 ->
    internal_forward_loop lps out s ld0 outputs st = (OK (out_n, ld_n, outs), st') ->
    exists pushed,
      outs = outputs ++ pushed /\ st' = st /\ vec b ld_n
      /\ wf out_n /\ size_at out_n 0 = OK b
      /\ forall y, cat_dim1 (out_n :: rev pushed) = OK y ->
           size y = size out /\ wf y
           /\ forall base a, vec b a ->
                internal_split_loop (map snd lps) y base = OK (out_n, base ++ pushed)
                /\ exists a',
                     internal_backward_loop (rev lps) out_n s a (base ++ pushed) st
                     = (OK (out, a', base), st)
                     /\ vec b a' /\ balanced a' ld_n a ld0.
Proof.
  induction 1 as [|[layer prior] lps [Hlayer Hprior] _ IH];
    intros out s ld0 outputs st out_n ld_n outs st' b Hwf Hb Hld0 H.
  - cbn in H. inversion H; subst. exists []. rewrite app_nil_r.
    repeat (split; [assumption || reflexivity|]).
    intros y Hy. cbn in Hy. inversion Hy; subst y.
    split; [reflexivity|]. split; [assumption|].
    intros base a Ha. rewrite app_nil_r. split; [reflexivity|].
    exists a. split; [reflexivity|]. split; [assumption|]. intro i. lra.
  - cbn [fst snd] in Hlayer, Hprior.
    cbn [internal_forward_loop] in H. unfold split2d in H. minv.
    pose proof (steps_acc_pair Hlayer) as Hacc.
    match goal with
    | Hsf : steps_forward layer out s ld0 st = (OK _, _) |- _ =>
        destruct (Hacc _ _ _ _ _ _ _ _ Hwf Hb Hld0 Hsf)
          as (Hst1 & Hsza & Hwfa & Hlda & Hback)
    end.
    subst.
    match goal with
    | Hpf : forward (prior_flow prior) _ s st = (OK _, _) |- _ =>
        destruct (Hprior _ _ _ _ _ _ Hwfa Hpf)
          as (Hst2 & Hszb & Hwfb & (b' & Hb' & Hlb') & Hpb)
    end.
    subst.
    assert (Hbb : b' = b)
      by (unfold size_at in *; rewrite Hsza, Hb in Hb'; now inversion Hb').
    subst b'.
    match goal with
    | Hadd : tadd _ _ = OK _ |- _ =>
        destruct (@tadd_vec_inv b _ _ _ Hlda Hlb' Hadd) as (Hlb & Hldb & He)
    end.
    match goal with
    | Hto : slice_to _ _ = OK ?p1 |- _ =>
        destruct (@slice_to_wf _ _ _ Hwfb Hto) as (Hwf1 & Hb1);
        assert (Hb1' : size_at p1 0 = OK b)
          by (rewrite Hb1; unfold size_at in *; now rewrite Hszb, Hsza)
    end.
    match goal with
    | Hloop : internal_forward_loop lps _ _ _ (py_append _ ?p2) _ = _ |- _ =>
        destruct (IH _ _ _ _ _ _ _ _ _ _ Hwf1 Hb1' Hldb Hloop)
          as (pushed & Houts & Hst & Hldn & Hwfn & Hbn & Hy);
        exists (p2 :: pushed)
    end.
    split; [rewrite Houts; unfold py_append; now rewrite <- app_assoc|].
    repeat (split; [assumption|]).
    intros y Hcat. cbn [rev] in Hcat. rewrite cat_dim1_snoc in Hcat.
    apply rbind_OK_inv in Hcat. destruct Hcat as (yr & Hyr & Hcat).
    destruct (Hy yr Hyr) as (Hszr & Hwfr & Hrest).
    match goal with
    | Hto : slice_to ?k ?ob = OK ?p1, Hfrom : slice_from ?k ?ob = OK ?p2 |- _ =>
        destruct (@cat2_replace k ob p1 p2 yr p2 Hwfb Hto Hfrom Hszr
                    ltac:(unfold wf in *; congruence) eq_refl eq_refl)
          as (y' & Hcat' & Hszy & Hwfy & Htoy & Hfromy);
        pose proof (@cat2_slice_id _ _ _ _ Hwfb Hto Hfrom) as Hid
    end.
    rewrite Hcat in Hcat'. inversion Hcat'; subst y'. clear Hcat'.
    split; [congruence|]. split; [assumption|].
    intros base a Ha.
    match goal with
    | Hfrom : slice_from _ _ = OK ?p2 |- _ =>
        destruct (Hrest (py_append base p2) a Ha) as (Hsplit & a1 & Hbl & Ha1 & Hbal1)
    end.
    unfold py_append in *. rewrite <- app_assoc in Hsplit, Hbl. cbn [app] in Hsplit, Hbl.
    split.
    + cbn [map snd internal_split_loop]. unfold split2d.
      rewrite Htoy, Hfromy. cbn [rbind]. exact Hsplit.
    + cbn [rev]. 
      destruct (@tadd_vec b _ _ Ha1 (@vec_tneg _ _ Hlb)) as (a2 & Hadd2 & Ha2 & He2).
      destruct (Hback a2 Ha2) as (a3 & Hsb & Ha3 & Hbal3).
      exists a3. split; [|split; [assumption|]].
      * rewrite internal_backward_loop_app. unfold bind at 1. rewrite Hbl.
        cbn [internal_backward_loop]. unfold bind, lift, ret.
        match goal with
        | |- context [py_pop (?l ++ [?p2])] =>
            change (l ++ [p2]) with (py_append l p2); rewrite py_pop_append
        end.
        unfold unsplit2d. cbn [cat_dim1 fold_left rbind].
        rewrite Hid, Hpb, Hadd2, Hsb. reflexivity.
      * intro i. specialize (Hbal1 i). specialize (Hbal3 i).
        rewrite He2, entry_tneg in Hbal3. rewrite He in Hbal1. lra.
Qed.

(** An internal block undoes itself. *)
Lemma MaCowInternalBlock_inverse (blk : MaCowInternalBlock (St:=St)) :
  internal_ok blk ->
  inverse_pair (MaCowInternalBlock_forward blk) (MaCowInternalBlock_backward blk).
Proof.
  intros (Hlen & Hlayers & Hpriors) x s st y ld st' Hwf H.
  unfold MaCowInternalBlock_forward, MaCowInternalBlock_forward_outputs in H. minv.
  pose proof (internal_loops_inverse
                (@Forall_combine _ _ (Forall step_ok) (fun p => flow_ok (prior_flow p))
                   _ _ Hlayers Hpriors)) as Hinv.
  match goal with
  | Hb : size_at x 0 = OK ?b, Hloop : internal_forward_loop _ _ _ _ _ _ = _ |- _ =>
      destruct (Hinv _ _ _ _ _ _ _ _ _ _ Hwf Hb (vec_new_zeros b) Hloop)
        as (pushed & Houts & Hst & Hld & Hwfn & Hbn & Hy);
      cbn [app] in Houts; subst
  end.
  match goal with
  | Hu : unsplit2d _ = OK _ |- _ =>
      unfold unsplit2d, py_append in Hu; rewrite rev_unit in Hu;
      destruct (Hy _ Hu) as (Hsz & Hwfy & Hrest)
  end.
  match goal with
  | Hld : vec ?b _ |- _ =>
      destruct (Hrest [] _ (vec_new_zeros b)) as (Hsplit & a' & Hbl & Ha' & Hbal);
      rewrite (@balanced_zeros b a' _ Ha' Hld Hbal) in Hbl
  end.
  cbn [app] in Hsplit, Hbl.
  rewrite map_snd_combine_eq in Hsplit by exact Hlen.
  rewrite <- combine_rev_eq in Hbl by exact Hlen.
  repeat split; try assumption.
  - eexists. split; eassumption.
  - unfold MaCowInternalBlock_backward, MaCowInternalBlock_backward_loops.
    unfold bind, lift. rewrite Hsplit, Hbn, Hbl. reflexivity.
Qed.

End Internal.

(* ================================================================= *)
(** ** Invertibility: the pyramid *)

Section Pyramid.
Context {St : Type}.
Variable E : Collab St.
Hypothesis HE : resize_ok E.

Lemma Block_inverse (blk : Block (St:=St)) :
  block_ok blk -> inverse_pair (Block_forward blk) (Block_backward blk).
Proof.
  destruct blk as [b | b | b]; cbn [block_ok Block_forward Block_backward]; intro H.
  - now apply block_inverse.
  - now apply MaCowInternalBlock_inverse.
  - now apply block_inverse.
Qed.

Lemma squeeze_unsqueeze (x y : Tensor) :
  squeeze2d E x 2 = OK y -> unsqueeze2d E y 2 = OK x.
Proof. destruct HE as (H & _). apply H. Qed.

Lemma unsqueeze_squeeze (y x : Tensor) :
  unsqueeze2d E y 2 = OK x -> squeeze2d E x 2 = OK y.
Proof. destruct HE as (_ & H & _). apply H. Qed.

Lemma squeeze_wf (x y : Tensor) :
  squeeze2d E x 2 = OK y -> wf x -> wf y.
Proof. destruct HE as (_ & _ & H & _). intros Hs. now apply (H x y Hs). Qed.

Lemma squeeze_batch (x y : Tensor) :
  squeeze2d E x 2 = OK y -> size_at y 0 = size_at x 0.
Proof. destruct HE as (_ & _ & H & _). intros Hs. now apply (H x y Hs). Qed.

Lemma unsqueeze_wf (y x : Tensor) :
  unsqueeze2d E y 2 = OK x -> wf y -> wf x.
Proof. destruct HE as (_ & _ & _ & H & _). apply H. Qed.

Lemma unsqueeze_size (y y' x x' : Tensor) :
  unsqueeze2d E y 2 = OK x -> unsqueeze2d E y' 2 = OK x' ->
  size y = size y' -> size x = size x'.
Proof. destruct HE as (_ & _ & _ & _ & H & _). apply H. Qed.

Lemma squeeze_unsqueeze_cond (s s1 : Cond) :
  squeeze_cond E s = OK s1 -> unsqueeze_cond E s1 = OK s.
Proof.
  destruct s as [|t|h]; cbn [squeeze_cond]; intro H.
  - now inversion H.
  - apply rbind_OK_inv in H. destruct H as (t' & Ht & H). inversion H; subst s1.
    cbn [unsqueeze_cond]. now rewrite (@squeeze_unsqueeze _ _ Ht).
  - destruct HE as (_ & _ & _ & _ & _ & Ht). now apply Ht.
Qed.

Lemma macow_up_loop_app (n m : nat) (out : Tensor) (outputs : list Tensor) :
  macow_up_loop E (n + m) out outputs
  = rbind (macow_up_loop E n out outputs)
          (fun r => let '(o, os) := r in macow_up_loop E m o os).
Proof.
  revert out outputs. induction n as [|n IH]; intros out outputs; [reflexivity|].
  cbn [Nat.add macow_up_loop].
  destruct (py_pop outputs) as [[o2 os]|e]; [|reflexivity]. cbn [rbind].
  destruct (unsplit2d [out; o2]) as [c|e]; [|reflexivity]. cbn [rbind].
  destruct (unsqueeze2d E c 2) as [o|e]; [|reflexivity]. cbn [rbind].
  apply IH.
Qed.

Lemma macow_backward_up_app (l1 l2 : list (Block (St:=St))) (out : Tensor) (s : Cond)
    (a : Tensor) (outputs : list Tensor) (st : St) :
  macow_backward_up E (l1 ++ l2) out s a outputs st
  = bind (macow_backward_up E l1 out s a outputs)
         (fun r => let '(o, s1, a1, outs1) := r in macow_backward_up E l2 o s1 a1 outs1) st.
Proof.
  revert out s a outputs st.
  induction l1 as [|blk l1 IH]; intros out s a outputs st; [reflexivity|].
  cbn [app macow_backward_up].
  rewrite bind_assoc. apply bind_ext. intros [o outs] st1.
  rewrite bind_assoc. apply bind_ext. intros [o' l] st2.
  rewrite bind_assoc. apply bind_ext. intros a1 st3.
  rewrite bind_assoc. apply bind_ext. intros [o'' s'] st4.
  apply IH.
Qed.

(** The internal blocks followed by the top block: what the forward pass
    does on the way down and back up is undone by the two loops of the
    backward pass, which start from the squeezed output. *)
Lemma pyramid_core_inverse (top : MaCowTopBlock (St:=St))
    (ints : list (MaCowInternalBlock (St:=St))) :
  Forall step_ok (top_steps top) -> Forall internal_ok ints ->
  forall out s ld0 outputs st o1 ld1 outs1 st1 o2 y outs2 b,
    wf out -> size_at out 0 = OK b -> vec b ld0 ->
    macow_down_loop E Block_forward (map InternalBlock ints ++ [TopBlock top])
      out s ld0 outputs st = (OK (o1, ld1, outs1), st1) ->
    unsqueeze2d E o1 2 = OK o2 ->
    macow_up_loop E (length ints) o2 outs1 = OK (y, outs2) ->
    st1 = st /\ outs2 = outputs /\ size y = size out /\ wf y /\ vec b ld1
    /\ exists ys ss,
         squeeze2d E y 2 = OK ys /\ squeeze_cond E s = OK ss
         /\ forall a, vec b a ->
              exists ob sb outsb a',
                macow_backward_down E (map InternalBlock ints ++ [TopBlock top])
                  ys ss outputs = OK (ob, sb, outsb)
                /\ macow_backward_up E (rev (map InternalBlock ints ++ [TopBlock top]))
                     ob sb a outsb st = (OK (out, s, a', outputs), st)
                /\ vec b a' /\ balanced a' ld1 a ld0.
Proof.
  intros Htop Hints. induction Hints as [|int ints Hint _ IH];
    intros out s ld0 outputs st o1 ld1 outs1 st1 o2 y outs2 b Hwf Hb Hld0 H Hun Hup.
  - cbn [map app macow_down_loop is_internal is_top orb] in H. minv.
    cbn [length macow_up_loop] in Hup. inversion Hup; subst; clear Hup.
    match goal with
    | Hsq : squeeze2d E out 2 = OK ?x1, Hsc : squeeze_cond E s = OK ?s1,
      Hf : Block_forward (TopBlock top) ?x1 ?s1 st = (OK (?o, ?l), _),
      Hadd : tadd ld0 ?l = OK _ |- _ =>
        pose proof (@squeeze_wf _ _ Hsq Hwf) as Hwf1;
        pose proof (@squeeze_batch _ _ Hsq) as Hb1; rewrite Hb in Hb1;
        pose proof (@Block_inverse (TopBlock top) Htop) as Hinv;
        destruct (Hinv _ _ _ _ _ _ Hwf1 Hf) as (Hst & Hsz & Hwfo & (b' & Hb' & Hl) & Hback);
        rewrite Hb1 in Hb'; inversion Hb'; subst b'; clear Hb';
        destruct (@tadd_vec_inv b _ _ _ Hld0 Hl Hadd) as (_ & Hld1 & He);
        pose proof (@squeeze_unsqueeze _ _ Hsq) as Hus;
        pose proof (@unsqueeze_squeeze _ _ Hun) as Hsu;
        pose proof (@squeeze_unsqueeze_cond _ _ Hsc) as Husc
    end.
    subst.
    split; [reflexivity|]. split; [reflexivity|].
    split; [exact (@unsqueeze_size _ _ _ _ Hun Hus Hsz)|].
    split; [exact (@unsqueeze_wf _ _ Hun Hwfo)|].
    split; [assumption|].
    eexists _, _. split; [exact Hsu|]. split; [eassumption|].
    intros a Ha.
    destruct (@tadd_vec b _ _ Ha (@vec_tneg _ _ Hl)) as (a' & Hadd' & Ha' & He').
    eexists _, _, _, a'. split; [reflexivity|].
    split; [|split; [assumption|]].
    + cbn [map rev app macow_backward_up is_internal is_top orb].
      unfold bind, lift, ret. rewrite Hback, Hadd', Husc, Hus. reflexivity.
    + intro i. rewrite He', entry_tneg, He. lra.
  - cbn [map app macow_down_loop is_internal is_top orb] in H.
    unfold split2d in H. minv.
    change (length (int :: ints)) with (S (length ints)) in Hup.
    rewrite <- Nat.add_1_r, macow_up_loop_app in Hup.
    apply rbind_OK_inv in Hup. destruct Hup as ([yr outs_r] & Hup_r & Hup1).
    match goal with
    | Hsq : squeeze2d E out 2 = OK ?x1, Hsc : squeeze_cond E s = OK ?s1,
      Hf : Block_forward (InternalBlock int) ?x1 ?s1 st = (OK (?o, ?l), _),
      Hadd : tadd ld0 ?l = OK _,
      Hto : slice_to _ ?o = OK ?p1, Hfrom : slice_from _ ?o = OK ?p2 |- _ =>
        pose proof (@squeeze_wf _ _ Hsq Hwf) as Hwf1;
        pose proof (@squeeze_batch _ _ Hsq) as Hb1; rewrite Hb in Hb1;
        pose proof (@Block_inverse (InternalBlock int) Hint) as Hinv;
        destruct (Hinv _ _ _ _ _ _ Hwf1 Hf) as (Hst & Hsz & Hwfo & (b' & Hb' & Hl) & Hback);
        rewrite Hb1 in Hb'; inversion Hb'; subst b'; clear Hb';
        destruct (@tadd_vec_inv b _ _ _ Hld0 Hl Hadd) as (_ & Hlda & He);
        pose proof (@squeeze_unsqueeze _ _ Hsq) as Hus;
        pose proof (@squeeze_unsqueeze_cond _ _ Hsc) as Husc;
        destruct (@slice_to_wf _ _ _ Hwfo Hto) as (Hwfp & Hbp);
        assert (Hbp' : size_at p1 0 = OK b)
          by (rewrite Hbp; unfold size_at in *; now rewrite Hsz);
        pose proof (@cat2_slice_id _ _ _ _ Hwfo Hto Hfrom) as Hid
    end.
    match goal with
    | Hloop : macow_down_loop _ _ _ _ _ _ _ _ = _ |- _ =>
        destruct (IH _ _ _ _ _ _ _ _ _ _ _ _ _ Hwfp Hbp' Hlda Hloop Hun Hup_r)
          as (Hst1 & Houts & Hszr & Hwfr & Hld1 & ysr & ssr & Hsqr & Hscr & Hrest)
    end.
    subst.
    cbn [macow_up_loop] in Hup1. rewrite py_pop_append in Hup1.
    unfold unsplit2d in Hup1. cbn [cat_dim1 fold_left rbind] in Hup1. minv.
    match goal with
    | Hto : slice_to ?k ?o = OK ?p1, Hfrom : slice_from ?k ?o = OK ?p2,
      Hcat : cat2 yr ?p2 = OK ?c, Hunc : unsqueeze2d E ?c 2 = OK _ |- _ =>
        destruct (@cat2_replace k o p1 p2 yr p2 Hwfo Hto Hfrom Hszr
                    ltac:(unfold wf in *; congruence) eq_refl eq_refl)
          as (c' & Hcat' & Hszc & Hwfc & Htoc & Hfromc);
        rewrite Hcat in Hcat'; inversion Hcat'; subst c'; clear Hcat';
        pose proof (@unsqueeze_squeeze _ _ Hunc) as Hsu;
        pose proof (@unsqueeze_size _ _ _ _ Hunc Hus (eq_trans Hszc Hsz)) as Hszy;
        pose proof (@unsqueeze_wf _ _ Hunc Hwfc) as Hwfy
    end.
    split; [reflexivity|]. split; [reflexivity|].
    split; [assumption|]. split; [assumption|]. split; [assumption|].
    eexists _, _. split; [exact Hsu|]. split; [eassumption|].
    intros a Ha.
    destruct (Hrest a Ha) as (ob & sb & outsb & a1 & Hbd & Hbu & Ha1 & Hbal1).
    destruct (@tadd_vec b _ _ Ha1 (@vec_tneg _ _ Hl)) as (a' & Hadd' & Ha' & He').
    exists ob, sb, outsb, a'.
    split; [|split; [|split; [assumption|]]].
    + cbn [map app macow_backward_down]. rewrite Hscr. cbn [rbind].
      unfold split2d. rewrite Htoc, Hfromc. cbn [rbind]. rewrite Hsqr. cbn [rbind].
      exact Hbd.
    + cbn [map app rev]. rewrite macow_backward_up_app. unfold bind at 1. rewrite Hbu.
      cbn [macow_backward_up is_internal is_top orb].
      unfold bind, lift, ret. rewrite py_pop_append.
      unfold unsplit2d. cbn [cat_dim1 fold_left rbind].
      rewrite Hid, Hback, Hadd', Husc, Hus. reflexivity.
    + intro i. specialize (Hbal1 i). rewrite He', entry_tneg. rewrite He in Hbal1. lra.
Qed.

Lemma Forall_block_ok_internal (ints : list (MaCowInternalBlock (St:=St))) :
  Forall block_ok (map InternalBlock ints) -> Forall internal_ok ints.
Proof.
  induction ints as [|b ints IH]; intro H; [constructor|].
  inversion H; subst. constructor; [assumption | now apply IH].
Qed.

(** A pyramid of the shape that [MaCow.__init__] builds undoes itself when
    its blocks do. *)
Lemma MaCow_inverse (m : MaCow (St:=St)) (bot : list Block)
    (ints : list MaCowInternalBlock) (top : MaCowTopBlock) :
  blocks m = bot ++ map InternalBlock ints ++ [TopBlock top] ->
  (bot = [] \/ exists b, bot = [BottomBlock b]) ->
  internals m = Z.of_nat (length ints) ->
  Forall block_ok (blocks m) ->
  inverse_pair (MaCow_forward E m) (MaCow_backward E m).
Proof.
  intros Hblocks Hbot Hint Hok x s st y ld st' Hwf H.
  rewrite Hblocks in Hok. apply Forall_app in Hok. destruct Hok as [Hokbot Hok].
  apply Forall_app in Hok. destruct Hok as [Hokints Hoktop].
  apply Forall_block_ok_internal in Hokints.
  inversion Hoktop as [|? ? Htop _]; subst. cbn [block_ok] in Htop.
  pose proof (@pyramid_core_inverse top ints Htop Hokints) as Hcore.
  unfold MaCow_forward, macow_traverse in H. rewrite Hblocks, Hint, Nat2Z.id in H.
  unfold MaCow_backward, MaCow_backward_loops. rewrite Hblocks.
  destruct Hbot as [-> | [bb ->]].
  - cbn [app] in H. minv.
    match goal with
    | Hb : size_at x 0 = OK ?b,
      Hloop : macow_down_loop _ _ _ _ _ _ _ _ = _,
      Hun : unsqueeze2d E _ 2 = OK _, Hup : macow_up_loop _ _ _ _ = OK (?y', _) |- _ =>
        destruct (Hcore _ _ _ _ _ _ _ _ _ _ _ _ _ Hwf Hb (vec_new_zeros b) Hloop Hun Hup)
          as (Hst1 & Houts & Hsz & Hwfy & Hld & ys & ss & Hsq & Hsc & Hrest);
        destruct (Hrest _ (vec_new_zeros b))
          as (ob & sb & outsb & a' & Hbd & Hbu & Ha' & Hbal);
        rewrite (@balanced_zeros b a' _ Ha' Hld Hbal) in Hbu;
        assert (Hby : size_at y' 0 = OK b) by (unfold size_at in *; now rewrite Hsz)
    end.
    subst.
    match goal with
    | Ha : assert_ _ _ = _ |- _ => cbn in Ha; inversion Ha; subst; clear Ha
    end.
    repeat split; try assumption.
    + eexists. split; eassumption.
    + cbn [app]. unfold bind, lift. rewrite Hsc, Hsq, Hbd, Hby, Hbu. reflexivity.
  - inversion Hokbot as [|? ? Hbb _]; subst.
    pose proof (@Block_inverse (BottomBlock bb) Hbb) as Hinv.
    cbn [app macow_down_loop is_internal is_top orb] in H. minv.
    match goal with
    | Hb : size_at x 0 = OK ?b,
      Hf : Block_forward (BottomBlock bb) x s st = (OK (?o, ?l), _),
      Hadd : tadd (new_zeros ?b) ?l = OK _ |- _ =>
        destruct (Hinv _ _ _ _ _ _ Hwf Hf)
          as (Hst0 & Hsz0 & Hwfo & (b' & Hb' & Hl) & Hback);
        rewrite Hb in Hb'; inversion Hb'; subst b'; clear Hb';
        pose proof (tadd_zeros_l Hl Hadd) as Hlda;
        assert (Hbo : size_at o 0 = OK b) by (unfold size_at in *; now rewrite Hsz0)
    end.
    subst.
    match goal with
    | Hloop : macow_down_loop _ _ _ _ _ _ _ _ = _,
      Hun : unsqueeze2d E _ 2 = OK _, Hup : macow_up_loop _ _ _ _ = OK (?y', _),
      Hl' : vec ?b _ |- _ =>
        destruct (Hcore _ _ _ _ _ _ _ _ _ _ _ _ _ Hwfo Hbo Hl' Hloop Hun Hup)
          as (Hst1 & Houts & Hsz & Hwfy & Hld & ys & ss & Hsq & Hsc & Hrest);
        destruct (Hrest _ (vec_new_zeros b))
          as (ob & sb & outsb & a1 & Hbd & Hbu & Ha1 & Hbal);
        destruct (@tadd_vec b _ _ Ha1 (@vec_tneg _ _ Hl')) as (a' & Hadd' & Ha' & He');
        assert (Hby : size_at y' 0 = OK b)
          by (unfold size_at in *; now rewrite Hsz, Hsz0)
    end.
    subst.
    match goal with
    | Ha : assert_ _ _ = _ |- _ => cbn in Ha; inversion Ha; subst; clear Ha
    end.
    repeat split; try assumption.
    + congruence.
    + eexists. split; eassumption.
    + cbn [app macow_backward_down rev]. unfold bind, lift, ret.
      rewrite Hsc, Hsq, Hbd, Hby.
      rewrite macow_backward_up_app. unfold bind. rewrite Hbu.
      cbn [macow_backward_up is_internal is_top orb].
      unfold bind, lift, ret. rewrite Hback, Hadd'. cbn.
      do 2 f_equal. f_equal.
      eapply vec_ext; [exact Ha' | apply vec_tneg; exact Hld |].
      intro i. specialize (Hbal i).
      rewrite He', !entry_tneg. rewrite entry_new_zeros in Hbal. lra.
Qed.

End Pyramid.
(* ================================================================= *)
(** ** What the constructors build undoes itself *)

Lemma rmapM_Forall {A B} (f : A -> result B) (l : list A) (bs : list B) :
  rmapM f l = OK bs -> Forall (fun b => exists a, f a = OK b) bs.
Proof.
  revert bs; induction l as [|a l IH]; intros bs H; cbn [rmapM] in H.
  - inversion H; subst. constructor.
  - apply rbind_OK_inv in H. destruct H as (b & Hb & H).
    apply rbind_OK_inv in H. destruct H as (bs' & Hbs & H).
    inversion H; subst. constructor; [now exists a | now apply IH].
Qed.

Section Constructors.
Context {St : Type}.
Variable E : Collab St.
Hypothesis HE : collab_ok E.

Lemma MaCowUnit_new_ok (name : path) (in_channels : Z) (kernel_size : list Z)
    (s_channels : Z) (scale inv : bool) (u : MaCowUnit St) :
  MaCowUnit_new E name in_channels kernel_size s_channels scale inv = OK u ->
  unit_ok u.
Proof.
  intro H.
  destruct (@MaCowUnit_new_structure St E _ _ _ _ _ _ _ H)
    as (k0 & k1 & _ & _ & Ha1 & Hc1 & Hc2 & Ha2 & Hc3 & Hc4).
  destruct HE as (Hact & Hconv & _).
  apply MaCowUnit_inverse.
  - exact (Hact _ _ _ _ Ha1).
  - exact (Hconv _ _ _ _ _ _ _ _ Hc1).
  - exact (Hconv _ _ _ _ _ _ _ _ Hc2).
  - exact (Hact _ _ _ _ Ha2).
  - exact (Hconv _ _ _ _ _ _ _ _ Hc3).
  - exact (Hconv _ _ _ _ _ _ _ _ Hc4).
Qed.

Lemma MaCowStep_new_ok (name : path) (in_channels : Z) (kernel_size : list Z)
    (hidden_channels s_channels : Z) (scale inv : bool) (opts : GlowOpts)
    (step : MaCowStep St) :
  MaCowStep_new E name in_channels kernel_size hidden_channels s_channels scale inv opts
    = OK step ->
  step_ok step.
Proof.
  intro H.
  destruct (@MaCowStep_new_structure St E _ _ _ _ _ _ _ _ _ H)
    as (u0 & u1 & Hu & H0 & H1 & Hg).
  apply MaCowStep_inverse.
  - rewrite Hu. constructor; [exact (MaCowUnit_new_ok _ _ _ _ _ _ H0)|].
    constructor; [exact (MaCowUnit_new_ok _ _ _ _ _ _ H1)|]. constructor.
  - destruct HE as (_ & _ & Hglow & _). exact (Hglow _ _ _ _ _ _ _ _ Hg).
Qed.

Lemma new_steps_ok (name : path) (num_steps in_channels : Z) (kernel_size : list Z)
    (hidden_channels s_channels : Z) (scale inv : bool) (opts : GlowOpts)
    (steps : list (MaCowStep St)) :
  new_steps E name num_steps in_channels kernel_size hidden_channels s_channels
    scale inv opts = OK steps ->
  Forall step_ok steps.
Proof.
  unfold new_steps. intro H. apply rmapM_Forall in H.
  eapply Forall_impl; [|exact H].
  intros step (i & Hi). exact (MaCowStep_new_ok _ _ _ _ _ _ _ _ Hi).
Qed.

Lemma internal_new_loop_ok (name : path) (num_steps : list Z) :
  forall (i : nat) (in_channels : Z) (kernel_size : list Z)
         (hidden_channels s_channels factor channel_step : Z)
         (scale prior_scale inv : bool) (opts : GlowOpts)
         (ls : list (list (MaCowStep St))) (ps : list (Prior St)) (z1 : Z),
  internal_new_loop E name i num_steps in_channels kernel_size hidden_channels
    s_channels factor channel_step scale prior_scale inv opts = OK (ls, ps, z1) ->
  Forall (Forall step_ok) ls /\ Forall (fun p => flow_ok (prior_flow p)) ps.
Proof.
  induction num_steps as [|n ns IH]; intros i c ks h s f step sc psc inv opts ls ps z1 H.
  - cbn in H. inversion H; subst. split; constructor.
  - cbn [internal_new_loop] in H. minv.
    match goal with
    | H : (if ?b then _ else _) = OK _ |- _ => destruct b; [discriminate|]
    end.
    minv.
    match goal with
    | Hloop : internal_new_loop _ _ _ _ _ _ _ _ _ _ _ _ _ _ = OK _,
      Hsteps : new_steps _ _ _ _ _ _ _ _ _ _ = OK _,
      Hprior : Prior_new _ _ _ _ _ _ _ _ = OK _ |- _ =>
        apply IH in Hloop; destruct Hloop as (Hls & Hps);
        apply new_steps_ok in Hsteps;
        destruct HE as (_ & _ & _ & Hp & _);
        pose proof (Hp _ _ _ _ _ _ _ _ Hprior) as Hpok
    end.
    split; constructor; assumption.
Qed.

Lemma MaCowInternalBlock_new_ok (name : path) (num_steps : NumSteps)
    (in_channels : Z) (kernel_size : list Z) (hidden_channels s_channels factor : Z)
    (scale prior_scale inv : bool) (opts : GlowOpts) (b : MaCowInternalBlock) :
  MaCowInternalBlock_new E name num_steps in_channels kernel_size hidden_channels
    s_channels factor scale prior_scale inv opts = OK b ->
  internal_ok b.
Proof.
  intro H.
  destruct (@MaCowInternalBlock_new_z1 St E _ _ _ _ _ _ _ _ _ _ _ _ H) as (_ & Hlen & _).
  split; [exact Hlen|].
  unfold MaCowInternalBlock_new in H. destruct num_steps as [n|ns]; [discriminate|].
  destruct (negb (Z.of_nat (length ns) <? factor)%Z); [discriminate|].
  minv.
  match goal with
  | H : (if ?b then _ else _) = OK _ |- _ => destruct b; [discriminate|]
  end.
  minv. cbn [layers priors].
  match goal with
  | Hloop : internal_new_loop _ _ _ _ _ _ _ _ _ _ _ _ _ _ = OK _ |- _ =>
      exact (internal_new_loop_ok _ _ _ _ _ _ _ _ _ _ _ _ _ Hloop)
  end.
Qed.

Lemma macow_new_loop_ok (name : path) (a : MaCowArgs) (factors : list Z)
    (slices : list (option Z)) (level_range : list nat) :
  forall (c s : Z) (bs : list (Block (St:=St))),
  macow_new_loop E name a factors slices level_range c s = OK bs ->
  Forall block_ok bs.
Proof.
  induction level_range as [|level rest IH]; intros c s bs H.
  - cbn in H. inversion H; subst. constructor.
  - cbn [macow_new_loop] in H. minv.
    destruct ((level =? 0)%nat && arg_bottom a).
    + minv.
      match goal with
      | Hb : MaCowBottomBlock_new _ _ _ _ _ _ _ _ _ = OK _,
        Hloop : macow_new_loop _ _ _ _ _ _ _ _ = OK _ |- _ =>
          apply IH in Hloop; constructor; [|exact Hloop];
          unfold MaCowBottomBlock_new in Hb
      end.
      match goal with
      | Hb : match ?ns with NInt _ => _ | NList _ => _ end = OK _ |- _ =>
          destruct ns; [|discriminate]; minv; cbn [block_ok bottom_steps]
      end.
      eapply new_steps_ok; eassumption.
    + destruct (Z.of_nat level =? arg_levels a - 1)%Z.
      * minv.
        match goal with
        | Hb : MaCowTopBlock_new _ _ _ _ _ _ _ _ _ _ = OK _,
          Hloop : macow_new_loop _ _ _ _ _ _ _ _ = OK _ |- _ =>
            apply IH in Hloop; constructor; [|exact Hloop];
            unfold MaCowTopBlock_new in Hb
        end.
        match goal with
        | Hb : match ?ns with NInt _ => _ | NList _ => _ end = OK _ |- _ =>
            destruct ns; [|discriminate]; minv; cbn [block_ok top_steps]
        end.
        eapply new_steps_ok; eassumption.
      * minv.
        match goal with
        | Hb : MaCowInternalBlock_new _ _ _ _ _ _ _ _ _ _ _ _ = OK _,
          Hloop : macow_new_loop _ _ _ _ _ _ _ _ = OK _ |- _ =>
            apply IH in Hloop; constructor; [|exact Hloop];
            cbn [block_ok]; exact (MaCowInternalBlock_new_ok _ _ _ _ _ _ _ _ _ _ _ Hb)
        end.
Qed.

Lemma MaCow_new_ok (name : path) (a : MaCowArgs) (m : MaCow (St:=St)) :
  MaCow_new E name a = OK m ->
  inverse_pair (MaCow_forward E m) (MaCow_backward E m).
Proof.
  intro H.
  destruct (@MaCow_new_shape St E _ _ _ H)
    as (bot & ints & top & ns & h & sl & s_top & Hblocks & Hbot & Hint & _).
  assert (Hok : Forall block_ok (blocks m)).
  { unfold MaCow_new in H.
    repeat match type of H with
    | (if ?b then _ else _) = OK _ => destruct b; [discriminate|]
    end.
    apply rbind_OK_inv in H. destruct H as (bs & Hloop & H). inversion H; subst m.
    cbn [blocks]. exact (macow_new_loop_ok _ _ _ _ _ _ _ Hloop). }
  destruct HE as (_ & _ & _ & _ & Hresize).
  exact (@MaCow_inverse St E Hresize m bot ints top Hblocks Hbot Hint Hok).
Qed.

End Constructors.

(* ================================================================= *)
(** ** The collaborators of the small pyramid keep the contract *)

Lemma map_double_half (l : list R) : map (fun v => v / 2) (map (fun v => v * 2) l) = l.
Proof.
  rewrite map_map. rewrite <- (map_id l) at 2. apply map_ext. intro v. lra.
Qed.

Lemma map_Ropp_repeat (v : R) (n : nat) : map Ropp (repeat v n) = repeat (- v) n.
Proof. induction n as [|n IH]; simpl; [reflexivity|]. now rewrite IH. Qed.

Lemma channel_flow_ok (c : Z) (inv : bool) : flow_ok (channel_flow c inv).
Proof.
  intros x s [] y ld [] Hwf H. cbn [channel_flow forward backward] in *.
  unfold check_channels, doubling_forward, doubling_backward in *.
  apply bind_OK_inv in H. destruct H as ([] & [] & Hc & H).
  apply bind_OK_inv in Hc. destruct Hc as (c' & [] & Hc' & Hc).
  apply lift_OK_inv in Hc'. destruct Hc' as [Hc' _].
  destruct (Z.of_nat c' =? c)%Z eqn:Hcc; [|discriminate].
  apply bind_OK_inv in H. destruct H as (b & [] & Hb & H).
  apply lift_OK_inv in Hb. destruct Hb as [Hb _].
  inversion H; subst y ld; clear H.
  assert (Hhd : hd O (size x) = b).
  { unfold size_at in Hb. destruct (size x) as [|b0 r]; [discriminate|].
    cbn in Hb. now inversion Hb. }
  split; [reflexivity|]. split; [reflexivity|].
  split; [unfold wf in *; cbn [tmap size storage]; now rewrite length_map|].
  split.
  - exists b. split; [exact Hb|].
    unfold vec, doubling_logdet. cbn [size storage]. rewrite Hhd, repeat_length. now split.
  - unfold bind, lift, ret. cbn [tmap size storage].
    unfold size_at in *. cbn [tmap size]. rewrite Hc', Hcc, Hb.
    do 2 f_equal. f_equal.
    + destruct x as [sz sto]. unfold tmap. cbn [size storage]. f_equal.
      apply map_double_half.
    + unfold tneg, doubling_logdet, tmap. cbn [size storage].
      rewrite map_Ropp_repeat. do 2 f_equal. ring.
Qed.

Lemma squeeze_view_ok : resize_ok example_collab.
Proof.
  unfold resize_ok. cbn [squeeze2d unsqueeze2d squeeze2d_tuple example_collab].
  assert (Hsq : forall x y, squeeze_view x 2 = OK y ->
            exists b c h w, size x = [b; c; h; w] /\ Nat.even h = true /\ Nat.even w = true
              /\ y = mkTensor [b; c * 4; h / 2; w / 2]%nat (storage x)).
  { intros x y H. unfold squeeze_view in H.
    destruct (size x) as [|b [|c [|h [|w [|? ?]]]]] eqn:Hs; try discriminate.
    cbn [Z.eqb andb] in H.
    destruct (Nat.even h) eqn:Hh; [|discriminate].
    destruct (Nat.even w) eqn:Hw; [|discriminate].
    inversion H; subst. now exists b, c, h, w. }
  assert (Hun : forall y x, unsqueeze_view y 2 = OK x ->
            exists b c h w, size y = [b; c; h; w] /\ (c mod 4 = 0)%nat
              /\ x = mkTensor [b; c / 4; h * 2; w * 2]%nat (storage y)).
  { intros y x H. unfold unsqueeze_view in H.
    destruct (size y) as [|b [|c [|h [|w [|? ?]]]]] eqn:Hs; try discriminate.
    cbn [Z.eqb andb] in H.
    destruct (c mod 4 =? 0)%nat eqn:Hc; [|discriminate].
    apply Nat.eqb_eq in Hc. inversion H; subst. now exists b, c, h, w. }
  assert (Heven : forall h, Nat.even h = true -> (h / 2 * 2 = h)%nat).
  { intros h Hh. apply Nat.even_spec in Hh. destruct Hh as [k ->].
    rewrite (Nat.mul_comm 2 k), Nat.div_mul by lia. reflexivity. }
  repeat split.
  - intros x y H. destruct (Hsq x y H) as (b & c & h & w & Hs & Hh & Hw & ->).
    unfold unsqueeze_view. cbn [size storage Z.eqb andb].
    rewrite Nat.Div0.mod_mul. cbn [Nat.eqb].
    rewrite Nat.div_mul by lia. rewrite (Heven h Hh), (Heven w Hw).
    destruct x as [sz sto]. cbn [size storage] in *. now subst.
  - intros y x H. destruct (Hun y x H) as (b & c & h & w & Hs & Hc & ->).
    unfold squeeze_view. cbn [size storage Z.eqb andb].
    rewrite !Nat.even_mul. cbn [Nat.even orb andb].
    rewrite !Bool.orb_true_r. cbn [andb].
    rewrite !Nat.div_mul by lia.
    assert (Hc4 : (c / 4 * 4 = c)%nat).
    { pose proof (Nat.div_mod_eq c 4). lia. }
    rewrite Hc4. destruct y as [sz sto]. cbn [size storage] in *. now subst.
  - intros Hwf. destruct (Hsq x y H) as (b & c & h & w & Hs & Hh & Hw & ->).
    unfold wf in *. cbn [size storage]. rewrite Hwf, Hs. cbn [numel fold_right].
    pose proof (Heven h Hh). pose proof (Heven w Hw). nia.
  - destruct (Hsq x y H) as (b & c & h & w & Hs & Hh & Hw & ->).
    unfold size_at. cbn [size]. now rewrite Hs.
  - intros y x H Hwf. destruct (Hun y x H) as (b & c & h & w & Hs & Hc & ->).
    unfold wf in *. cbn [size storage]. rewrite Hwf, Hs. cbn [numel fold_right].
    pose proof (Nat.div_mod_eq c 4). nia.
  - intros y y' x x' H H' Hs.
    destruct (Hun y x H) as (b & c & h & w & Hsy & _ & ->).
    destruct (Hun y' x' H') as (b' & c' & h' & w' & Hsy' & _ & ->).
    cbn [size]. rewrite Hsy, Hsy' in Hs. now inversion Hs.
  - discriminate.
Qed.

Lemma example_collab_ok : collab_ok example_collab.
Proof.
  unfold collab_ok. cbn [ActNorm2dFlow MaskedConvFlow GlowStep Prior_new example_collab].
  split; [|split; [|split; [|split]]].
  - intros name c inv f H. inversion H; subst. apply channel_flow_ok.
  - intros name c k sc o scale inv f H. inversion H; subst. apply channel_flow_ok.
  - intros name c h sc scale inv opts f H. inversion H; subst. apply channel_flow_ok.
  - intros name c h sc scale inv factor p H.
    apply rbind_OK_inv in H. destruct H as (oc & _ & H). inversion H; subst.
    cbn [prior_flow]. apply channel_flow_ok.
  - exact squeeze_view_ok.
Qed.
(* ================================================================= *)
(** ** Round trips through the composites *)

(** X1. A unit built by [MaCowUnit.__init__] from invertible elementary
    flows undoes itself: when [forward] returns [(y, logdet)] on a
    well-formed [x], it has left the store alone, [y] has the size of [x],
    and [backward] takes [y] back to exactly [x] with the log-determinant
    [-logdet]. *)
Theorem MaCowUnit_round_trip St (E : Collab St) (name : path) (in_channels : Z)
    (kernel_size : list Z) (s_channels : Z) (scale inv : bool) (u : MaCowUnit St)
    (x : Tensor) (s : Cond) (st : St) (y ld : Tensor) (st' : St) :
  collab_ok E ->
  MaCowUnit_new E name in_channels kernel_size s_channels scale inv = OK u ->
  wf x ->
  MaCowUnit_forward u x s st = (OK (y, ld), st') ->
  st' = st /\ size y = size x
  /\ MaCowUnit_backward u y s st = (OK (x, tneg ld), st).
Proof.
  intros HE Hnew Hwf H.
  pose proof (@MaCowUnit_new_ok St E HE _ _ _ _ _ _ _ Hnew) as Hok.
  destruct (Hok _ _ _ _ _ _ Hwf H) as (Hst & Hsz & _ & _ & Hb). auto.
Qed.

Lemma MaCowUnit_round_trip_witness :
  collab_ok example_collab
  /\ MaCowUnit_new example_collab [] 4 [3; 3]%Z 0 true false = OK (example_unit 4)
  /\ wf (mkTensor [1; 4; 1; 1]%nat [1; 2; 3; 4])
  /\ exists y ld,
       MaCowUnit_forward (example_unit 4) (mkTensor [1; 4; 1; 1]%nat [1; 2; 3; 4]) CNone tt
         = (OK (y, ld), tt)
       /\ MaCowUnit_backward (example_unit 4) y CNone tt
          = (OK (mkTensor [1; 4; 1; 1]%nat [1; 2; 3; 4], tneg ld), tt).
Proof.
  split; [exact example_collab_ok|]. split; [reflexivity|]. split; [reflexivity|].
  eexists. eexists. split; [reflexivity|].
  exact (proj2 (proj2 (@MaCowUnit_round_trip unit example_collab [] 4 [3; 3]%Z 0 true false
                         (example_unit 4) (mkTensor [1; 4; 1; 1]%nat [1; 2; 3; 4]) CNone tt
                         _ _ tt example_collab_ok eq_refl eq_refl eq_refl))).
Defined.

(** X2. A step built by [MaCowStep.__init__] from invertible elementary
    flows undoes itself: [backward] takes the output of [forward] back to
    the input, with the negated log-determinant. *)
Theorem MaCowStep_round_trip St (E : Collab St) (name : path) (in_channels : Z)
    (kernel_size : list Z) (hidden_channels s_channels : Z) (scale inv : bool)
    (opts : GlowOpts) (step : MaCowStep St)
    (x : Tensor) (s : Cond) (st : St) (y ld : Tensor) (st' : St) :
  collab_ok E ->
  MaCowStep_new E name in_channels kernel_size hidden_channels s_channels scale inv opts
    = OK step ->
  wf x ->
  MaCowStep_forward step x s st = (OK (y, ld), st') ->
  st' = st /\ size y = size x
  /\ MaCowStep_backward step y s st = (OK (x, tneg ld), st).
Proof.
  intros HE Hnew Hwf H.
  pose proof (@MaCowStep_new_ok St E HE _ _ _ _ _ _ _ _ _ Hnew) as Hok.
  destruct (Hok _ _ _ _ _ _ Hwf H) as (Hst & Hsz & _ & _ & Hb). auto.
Qed.

Lemma MaCowStep_round_trip_witness :
  collab_ok example_collab
  /\ MaCowStep_new example_collab [] 4 [3; 3]%Z 8 0 true false default_opts
     = OK (example_step 4)
  /\ wf (mkTensor [1; 4; 1; 1]%nat [1; 2; 3; 4])
  /\ exists y ld,
       MaCowStep_forward (example_step 4) (mkTensor [1; 4; 1; 1]%nat [1; 2; 3; 4]) CNone tt
         = (OK (y, ld), tt)
       /\ MaCowStep_backward (example_step 4) y CNone tt
          = (OK (mkTensor [1; 4; 1; 1]%nat [1; 2; 3; 4], tneg ld), tt).
Proof.
  split; [exact example_collab_ok|]. split; [reflexivity|]. split; [reflexivity|].
  eexists. eexists. split; [reflexivity|].
  exact (proj2 (proj2 (@MaCowStep_round_trip unit example_collab [] 4 [3; 3]%Z 8 0 true false
                         default_opts (example_step 4)
                         (mkTensor [1; 4; 1; 1]%nat [1; 2; 3; 4]) CNone tt
                         _ _ tt example_collab_ok eq_refl eq_refl eq_refl))).
Defined.

(** X3. The bottom block and the top block that their constructors build
    from invertible elementary flows undo themselves: [backward] takes the
    output of [forward] back to the input, with the negated
    log-determinant. *)
Theorem bottom_top_block_round_trip St (E : Collab St) (name : path) (num_steps : NumSteps)
    (in_channels : Z) (kernel_size : list Z) (hidden_channels s_channels : Z)
    (scale inv : bool) (opts : GlowOpts) (steps : list (MaCowStep St))
    (x : Tensor) (s : Cond) (st : St) (y ld : Tensor) (st' : St) :
  collab_ok E ->
  (exists b, MaCowBottomBlock_new E name num_steps in_channels kernel_size
               hidden_channels s_channels scale inv = OK b /\ steps = bottom_steps b)
  \/ (exists b, MaCowTopBlock_new E name num_steps in_channels kernel_size
                  hidden_channels s_channels scale inv opts = OK b /\ steps = top_steps b) ->
  wf x ->
  block_forward steps x s st = (OK (y, ld), st') ->
  st' = st /\ size y = size x
  /\ block_backward steps y s st = (OK (x, tneg ld), st).
Proof.
  intros HE Hnew Hwf H.
  assert (Hsteps : Forall step_ok steps).
  { destruct Hnew as [(b & Hb & ->) | (b & Hb & ->)].
    - unfold MaCowBottomBlock_new in Hb. destruct num_steps as [n|l]; [|discriminate].
      apply rbind_OK_inv in Hb. destruct Hb as (ss & Hss & Hb). inversion Hb; subst b.
      cbn [bottom_steps]. exact (@new_steps_ok St E HE _ _ _ _ _ _ _ _ _ _ Hss).
    - unfold MaCowTopBlock_new in Hb. destruct num_steps as [n|l]; [|discriminate].
      apply rbind_OK_inv in Hb. destruct Hb as (ss & Hss & Hb). inversion Hb; subst b.
      cbn [top_steps]. exact (@new_steps_ok St E HE _ _ _ _ _ _ _ _ _ _ Hss). }
  pose proof (block_inverse Hsteps) as Hok.
  destruct (Hok _ _ _ _ _ _ Hwf H) as (Hst & Hsz & _ & _ & Hb). auto.
Qed.

Lemma bottom_top_block_round_trip_witness :
  collab_ok example_collab
  /\ MaCowTopBlock_new example_collab [] (NInt 1) 4 [3; 3]%Z 8 0 true false default_opts
     = OK (mkMaCowTopBlock false [example_step 4])
  /\ wf (mkTensor [1; 4; 1; 1]%nat [1; 2; 3; 4])
  /\ exists y ld,
       block_forward [example_step 4] (mkTensor [1; 4; 1; 1]%nat [1; 2; 3; 4]) CNone tt
         = (OK (y, ld), tt)
       /\ block_backward [example_step 4] y CNone tt
          = (OK (mkTensor [1; 4; 1; 1]%nat [1; 2; 3; 4], tneg ld), tt).
Proof.
  split; [exact example_collab_ok|]. split; [reflexivity|]. split; [reflexivity|].
  eexists. eexists. split; [reflexivity|].
  exact (proj2 (proj2 (@bottom_top_block_round_trip unit example_collab [] (NInt 1) 4
                         [3; 3]%Z 8 0 true false default_opts [example_step 4]
                         (mkTensor [1; 4; 1; 1]%nat [1; 2; 3; 4]) CNone tt _ _ tt
                         example_collab_ok
                         (or_intror (ex_intro _ (mkMaCowTopBlock false [example_step 4])
                                       (conj eq_refl eq_refl)))
                         eq_refl eq_refl))).
Defined.

(** X4. An internal block that its constructor builds from invertible
    elementary flows undoes itself: [backward] finds in the recombined
    output the slices that [forward] leaked after each layer, and takes
    the output back to the input, with the negated log-determinant. *)
Theorem MaCowInternalBlock_round_trip St (E : Collab St) (name : path)
    (num_steps : NumSteps) (in_channels : Z) (kernel_size : list Z)
    (hidden_channels s_channels factor : Z) (scale prior_scale inv : bool)
    (opts : GlowOpts) (b : MaCowInternalBlock (St:=St))
    (x : Tensor) (s : Cond) (st : St) (y ld : Tensor) (st' : St) :
  collab_ok E ->
  MaCowInternalBlock_new E name num_steps in_channels kernel_size hidden_channels
    s_channels factor scale prior_scale inv opts = OK b ->
  wf x ->
  MaCowInternalBlock_forward b x s st = (OK (y, ld), st') ->
  st' = st /\ size y = size x
  /\ MaCowInternalBlock_backward b y s st = (OK (x, tneg ld), st).
Proof.
  intros HE Hnew Hwf H.
  pose proof (MaCowInternalBlock_inverse
                (@MaCowInternalBlock_new_ok St E HE _ _ _ _ _ _ _ _ _ _ _ _ Hnew)) as Hok.
  destruct (Hok _ _ _ _ _ _ Hwf H) as (Hst & Hsz & _ & _ & Hb). auto.
Qed.

Lemma MaCowInternalBlock_round_trip_witness :
  collab_ok example_collab
  /\ MaCowInternalBlock_new example_collab [] (NList [1]%Z) 4 [3; 3]%Z 8 0 2
       true true false default_opts = OK small_internal
  /\ wf (mkTensor [1; 4; 1; 1]%nat [1; 2; 3; 4])
  /\ exists y ld,
       MaCowInternalBlock_forward small_internal
         (mkTensor [1; 4; 1; 1]%nat [1; 2; 3; 4]) CNone tt = (OK (y, ld), tt)
       /\ MaCowInternalBlock_backward small_internal y CNone tt
          = (OK (mkTensor [1; 4; 1; 1]%nat [1; 2; 3; 4], tneg ld), tt).
Proof.
  split; [exact example_collab_ok|]. split; [reflexivity|]. split; [reflexivity|].
  eexists. eexists. split; [reflexivity|].
  exact (proj2 (proj2 (@MaCowInternalBlock_round_trip unit example_collab [] (NList [1]%Z) 4
                         [3; 3]%Z 8 0 2 true true false default_opts small_internal
                         (mkTensor [1; 4; 1; 1]%nat [1; 2; 3; 4]) CNone tt _ _ tt
                         example_collab_ok eq_refl eq_refl eq_refl))).
Defined.

(** X5. A pyramid that [MaCow.__init__] builds from invertible elementary
    flows and from resizing helpers that undo each other undoes itself:
    when [forward] returns [(y, logdet)] on a well-formed [x] with the
    conditioning [s], it has left the store alone, [y] has the size of [x],
    and [backward] on [y] and [s] passes its final assertion and returns
    exactly [x] with the log-determinant [-logdet]. *)
Theorem MaCow_round_trip St (E : Collab St) (name : path) (a : MaCowArgs)
    (m : MaCow (St:=St)) (x : Tensor) (s : Cond) (st : St) (y ld : Tensor) (st' : St) :
  collab_ok E ->
  MaCow_new E name a = OK m ->
  wf x ->
  MaCow_forward E m x s st = (OK (y, ld), st') ->
  st' = st /\ size y = size x
  /\ MaCow_backward E m y s st = (OK (x, tneg ld), st).
Proof.
  intros HE Hnew Hwf H.
  pose proof (@MaCow_new_ok St E HE _ _ _ Hnew) as Hok.
  destruct (Hok _ _ _ _ _ _ Hwf H) as (Hst & Hsz & _ & _ & Hb). auto.
Qed.

Lemma MaCow_round_trip_witness :
  collab_ok example_collab
  /\ MaCow_new example_collab [] small_args = OK small_macow
  /\ wf small_image
  /\ exists y ld,
       MaCow_forward example_collab small_macow small_image CNone tt = (OK (y, ld), tt)
       /\ MaCow_backward example_collab small_macow y CNone tt
          = (OK (small_image, tneg ld), tt).
Proof.
  split; [exact example_collab_ok|]. split; [reflexivity|]. split; [reflexivity|].
  eexists. eexists. split; [reflexivity|].
  exact (proj2 (proj2 (@MaCow_round_trip unit example_collab [] small_args small_macow
                         small_image CNone tt _ _ tt
                         example_collab_ok eq_refl eq_refl eq_refl))).
Defined.
(* ================================================================= *)
(** ** Round trips through the coupling flow *)



Section NiceRoundTrip.
Context {St : Type}.


End NiceRoundTrip.






(* ================================================================= *)
(** ** Invertibility of the composites and of the coupling flow *)



Section CouplingRoundTrip.
Context {St : Type}.


End CouplingRoundTrip.



(* ================================================================= *)
(** ** Round trips through the adapters and the model *)

Lemma tneg_involutive (t : Tensor) : tneg (tneg t) = t.
Proof.
  destruct t as [sz sto]. unfold tneg. cbn [size storage]. f_equal.
  rewrite map_map. rewrite <- (map_id sto) at 2. apply map_ext. intro v. lra.
Qed.

Section AdapterRoundTrip.
Context {St : Type}.

(** In inverse mode [bwdpass] runs [forward] and [fwdpass] runs
    [backward], negating its log-determinant. *)
Lemma bwdpass_fwdpass_inverse (f : Flow St) (x : Tensor) (h : list Tensor) (sc sc' : R)
    (st st' : St) (y ld : Tensor) :
  flow_ok f -> inverse f = true -> wf x ->
  bwdpass f x h false sc st = (OK (y, ld), st') ->
  st' = st /\ size y = size x /\ fwdpass f y h false sc' st = (OK (x, ld), st).
Proof.
  intros Hok Hinv Hwf H. unfold bwdpass in H. rewrite Hinv in H. minv.
  match goal with
  | Hf : forward f x _ st = (OK _, _) |- _ =>
      destruct (Hok _ _ _ _ _ _ Hwf Hf) as (Hst & Hsz & _ & _ & Hb)
  end.
  subst. split; [reflexivity|]. split; [assumption|].
  unfold fwdpass. rewrite Hinv. unfold bind, ret. rewrite Hb.
  now rewrite mul_scalar_m1, tneg_involutive.
Qed.

(** In forward mode [fwdpass] runs [forward], negating its
    log-determinant, and [bwdpass] runs [backward]. *)
Lemma fwdpass_bwdpass_inverse (f : Flow St) (x : Tensor) (h : list Tensor) (sc sc' : R)
    (st st' : St) (y ld : Tensor) :
  flow_ok f -> inverse f = false -> wf x ->
  fwdpass f x h false sc st = (OK (y, ld), st') ->
  st' = st /\ size y = size x /\ bwdpass f y h false sc' st = (OK (x, ld), st).
Proof.
  intros Hok Hinv Hwf H. unfold fwdpass in H. rewrite Hinv in H. minv.
  match goal with
  | Hf : forward f x _ st = (OK _, _) |- _ =>
      destruct (Hok _ _ _ _ _ _ Hwf Hf) as (Hst & Hsz & _ & _ & Hb)
  end.
  subst. split; [reflexivity|]. split; [assumption|].
  unfold bwdpass. rewrite Hinv. unfold bind, ret. rewrite Hb.
  now rewrite mul_scalar_m1.
Qed.

End AdapterRoundTrip.

(** X8. For a flow whose [backward] undoes its [forward], the adapter
    that runs [forward] ([fwdpass] in forward mode, [bwdpass] in inverse
    mode) followed by the other adapter on the same extra inputs returns
    the input, and both adapters report the same log-determinant. *)
Theorem adapters_round_trip St (f : Flow St) (x : Tensor) (h : list Tensor) (sc sc' : R)
    (st st' : St) (y ld : Tensor) :
  flow_ok f -> wf x ->
  (if inverse f then bwdpass f x h false sc st else fwdpass f x h false sc st)
    = (OK (y, ld), st') ->
  st' = st /\ size y = size x
  /\ (if inverse f then fwdpass f y h false sc' st else bwdpass f y h false sc' st)
     = (OK (x, ld), st).
Proof.
  intros Hok Hwf H. destruct (inverse f) eqn:Hinv.
  - exact (@bwdpass_fwdpass_inverse St f x h sc sc' st st' y ld Hok Hinv Hwf H).
  - exact (@fwdpass_bwdpass_inverse St f x h sc sc' st st' y ld Hok Hinv Hwf H).
Qed.

Lemma adapters_round_trip_witness :
  let x := mkTensor [1; 4; 1; 1]%nat [1; 2; 3; 4] in
  flow_ok (channel_flow 4 false)
  /\ wf x
  /\ exists y ld,
       fwdpass (channel_flow 4 false) x [] false 1 tt = (OK (y, ld), tt)
       /\ bwdpass (channel_flow 4 false) y [] false 1 tt = (OK (x, ld), tt).
Proof.
  intro x. split; [apply channel_flow_ok|]. split; [reflexivity|].
  eexists. eexists. split; [reflexivity|].
  exact (proj2 (proj2 (@adapters_round_trip unit (channel_flow 4 false) x [] 1 1 tt tt _ _
                         (channel_flow_ok 4 false) eq_refl eq_refl))).
Defined.

(** X9. In a model that [FlowGenModel.__init__] builds on one device from
    a flow whose [backward] undoes its [forward], [decode] undoes
    [encode]: it returns the data that was encoded, with the
    log-determinant that [encode] reported. *)
Theorem encode_decode_round_trip St (DataParallelFlow : Flow St -> list Z -> Flow St)
    (f : Flow St) (gpu_id : Z) (m : FlowGenModel (St:=St)) (x : Tensor)
    (st st' : St) (z ld : Tensor) :
  FlowGenModel_new DataParallelFlow f 1 gpu_id = OK m ->
  flow_ok f -> wf x ->
  encode m x st = (OK (z, ld), st') ->
  st' = st /\ size z = size x /\ decode m z st = (OK (x, ld), st).
Proof.
  intros Hnew Hok Hwf H. unfold FlowGenModel_new in Hnew.
  destruct (inverse f) eqn:Hinv; [|discriminate]. cbn in Hnew.
  inversion Hnew; subst m; clear Hnew.
  unfold encode in H. cbn [flow] in H.
  apply bind_OK_inv in H. destruct H as ([z0 l0] & st1 & H & Hr).
  apply ret_OK_inv in Hr. destruct Hr as [Hr ->]. inversion Hr; subst z0 l0.
  destruct (@bwdpass_fwdpass_inverse St f x [] 1 1 st st1 z ld Hok Hinv Hwf H)
    as (Hst & Hsz & Hd).
  split; [assumption|]. split; [assumption|].
  unfold decode. cbn [flow]. unfold bind. rewrite Hd. reflexivity.
Qed.

Lemma encode_decode_round_trip_witness :
  let x := mkTensor [1; 4; 1; 1]%nat [1; 2; 3; 4] in
  let m := mkFlowGenModel (channel_flow 4 true) in
  FlowGenModel_new (fun f _ => f) (channel_flow 4 true) 1 0 = OK m
  /\ flow_ok (channel_flow 4 true)
  /\ wf x
  /\ exists z ld,
       encode m x tt = (OK (z, ld), tt) /\ decode m z tt = (OK (x, ld), tt).
Proof.
  intros x m. split; [reflexivity|]. split; [apply channel_flow_ok|].
  split; [reflexivity|].
  eexists. eexists. split; [reflexivity|].
  exact (proj2 (proj2 (@encode_decode_round_trip unit (fun f _ => f) (channel_flow 4 true)
                         0 m x tt tt _ _ eq_refl (channel_flow_ok 4 true)
                         eq_refl eq_refl))).
Defined.

(** X12. [log_probability] cannot score an empty batch: when [encode]
    returns a latent with no sample, flattening it to one row per sample
    leaves the row length undetermined and the call raises; a latent with
    no dimension at all has no batch to index. *)
Theorem log_probability_empty_batch St (m : FlowGenModel (St:=St)) (x : Tensor)
    (st st' : St) (z ld : Tensor) :
  encode m x st = (OK (z, ld), st') ->
  hd O (size z) = O ->
  exists e, log_probability m x st = (Err e, st')
            /\ (size z = [] -> e = IndexError)
            /\ (size z <> [] ->
                e = RuntimeError "cannot reshape tensor of 0 elements: -1 is ambiguous").
Proof.
  intros H Hz. unfold log_probability. unfold bind at 1. rewrite H.
  unfold bind at 1, lift at 1. unfold view_rows.
  destruct (size z) as [|b rest] eqn:Hs.
  - exists IndexError. split; [reflexivity|]. split; [reflexivity|]. congruence.
  - cbn [hd] in Hz. subst b.
    eexists. split; [reflexivity|]. split; [discriminate|]. reflexivity.
Qed.

Lemma log_probability_empty_batch_witness :
  let m := mkFlowGenModel (doubling_flow true) in
  let x := mkTensor [0; 3]%nat [] in
  encode m x tt = (OK (tmap (fun v => v * 2) x, doubling_logdet 1 x), tt)
  /\ hd O (size (tmap (fun v => v * 2) x)) = O
  /\ exists e, log_probability m x tt = (Err e, tt)
               /\ (size (tmap (fun v => v * 2) x) = [] -> e = IndexError)
               /\ (size (tmap (fun v => v * 2) x) <> [] ->
                   e = RuntimeError "cannot reshape tensor of 0 elements: -1 is ambiguous").
Proof.
  intros m x. split; [reflexivity|]. split; [reflexivity|].
  exact (@log_probability_empty_batch unit m x tt tt _ _ eq_refl eq_refl).
Defined.
(* ================================================================= *)
(** ** The registry of flow classes *)

Section DictLaws.
Context {V : Type}.

Lemma dict_get_set_same (k : string) (v : V) (d : list (string * V)) :
  dict_get k (dict_set k v d) = Some v.
Proof.
  induction d as [|[k' v'] d IH]; cbn [dict_set dict_get].
  - now rewrite String.eqb_refl.
  - destruct (String.eqb k' k) eqn:Hk; cbn [dict_get].
    + now rewrite String.eqb_refl.
    + now rewrite Hk.
Qed.

Lemma dict_get_set_other (k k' : string) (v : V) (d : list (string * V)) :
  k' <> k -> dict_get k' (dict_set k v d) = dict_get k' d.
Proof.
  intro Hne. induction d as [|[k0 v0] d IH]; cbn [dict_set dict_get].
  - apply String.eqb_neq in Hne. rewrite String.eqb_sym in Hne. now rewrite Hne.
  - destruct (String.eqb k0 k) eqn:Hk; cbn [dict_get].
    + apply String.eqb_eq in Hk. subst k0.
      apply String.eqb_neq in Hne. rewrite String.eqb_sym in Hne. now rewrite Hne.
    + destruct (String.eqb k0 k'); [reflexivity | exact IH].
Qed.

Lemma dict_get_absent (k : string) (d : list (string * V)) :
  (forall v, ~ In (k, v) d) -> dict_get k d = None.
Proof.
  induction d as [|[k0 v0] d IH]; intro H; cbn [dict_get]; [reflexivity|].
  destruct (String.eqb k0 k) eqn:Hk.
  - apply String.eqb_eq in Hk. subst k0. exfalso. apply (H v0). now left.
  - apply IH. intros v Hin. apply (H v). now right.
Qed.

End DictLaws.

(** X13. The registry of flow classes is one dictionary: after
    [cls.register(name)], [by_name(name)] returns [cls] whatever was
    registered under that name before, every other name resolves as it
    did, and a name that was never registered raises [KeyError].  After
    the modules of the core are loaded, in either order, ['macow'] is the
    pyramid and ['nice'] the coupling flow. *)
Theorem registry_lookup (Class : Type) (registry : Registry Class) (cls : Class)
    (name other : string) (core : Registry CoreClass) :
  by_name name (register cls name registry) = inl cls
  /\ (other <> name -> by_name other (register cls name registry) = by_name other registry)
  /\ ((forall c, ~ In (name, c) registry) -> by_name name registry = inr (mkKeyError name))
  /\ by_name "macow" (load_nice (load_macow core)) = inl ClassMaCow
  /\ by_name "nice" (load_nice (load_macow core)) = inl ClassNICE
  /\ by_name "macow" (load_macow (load_nice core)) = inl ClassMaCow
  /\ by_name "nice" (load_macow (load_nice core)) = inl ClassNICE.
Proof.
  unfold by_name, register, load_nice, load_macow, register.
  split; [now rewrite dict_get_set_same|].
  split; [intro Hne; now rewrite dict_get_set_other|].
  split; [intro Habs; now rewrite dict_get_absent|].
  split; [rewrite dict_get_set_other by discriminate; now rewrite dict_get_set_same|].
  split; [now rewrite dict_get_set_same|].
  split; [now rewrite dict_get_set_same|].
  rewrite dict_get_set_other by discriminate. now rewrite dict_get_set_same.
Qed.

Lemma registry_lookup_witness :
  "glow"%string <> "macow"%string
  /\ (forall c, ~ In ("macow"%string, c) (@nil (string * CoreClass)))
  /\ by_name "glow" (register ClassMaCow "macow" []) = by_name "glow" []
  /\ by_name "macow" (@nil (string * CoreClass)) = inr (mkKeyError "macow").
Proof.
  destruct (@registry_lookup CoreClass [] ClassMaCow "macow" "glow" [])
    as (_ & Hother & Habs & _).
  assert (Hne : "glow"%string <> "macow"%string) by discriminate.
  assert (Hno : forall c, ~ In ("macow"%string, c) (@nil (string * CoreClass)))
    by (intros c []).
  split; [exact Hne|]. split; [exact Hno|].
  split; [exact (Hother Hne) | exact (Habs Hno)].
Defined.

(* ================================================================= *)
(** ** Minibatches *)

Lemma chunk_count (n s : nat) (m : nat) :
  (0 < s)%nat -> ((n + s - 1) / s = S m)%nat ->
  (1 <= n)%nat /\ ((n - s + s - 1) / s = m)%nat.
Proof.
  intros Hs H.
  destruct (Nat.eq_dec n 0) as [-> | Hn].
  - rewrite Nat.div_small in H by lia. discriminate.
  - split; [lia|].
    destruct (Nat.le_gt_cases s n) as [Hle | Hlt].
    + replace (n + s - 1)%nat with (n - s + s - 1 + 1 * s)%nat in H by lia.
      rewrite Nat.div_add in H by lia. lia.
    + replace (n - s + s - 1)%nat with (s - 1)%nat by lia.
      rewrite Nat.div_small by lia.
      assert (Hq : ((n + s - 1) / s = 1)%nat).
      { symmetry. apply Nat.div_unique with (r := (n - 1)%nat); lia. }
      lia.
Qed.

Lemma chunks_cover {A} (s : nat) (m : nat) :
  (0 < s)%nat ->
  forall l : list A, ((length l + s - 1) / s = m)%nat ->
  concat (map (fun k => firstn s (skipn (k * s) l)) (seq 0 m)) = l
  /\ Forall (fun c => (1 <= length c <= s)%nat)
            (map (fun k => firstn s (skipn (k * s) l)) (seq 0 m)).
Proof.
  intro Hs. induction m as [|m IH]; intros l H.
  - assert (Hl : length l = 0%nat).
    { destruct (Nat.eq_dec (length l) 0) as [E | E]; [exact E|].
      assert (Hq : (1 <= (length l + s - 1) / s)%nat).
      { apply Nat.div_le_lower_bound; lia. }
      lia. }
    destruct l; [|discriminate]. split; [reflexivity | constructor].
  - destruct (chunk_count _ Hs H) as (Hn & Hm).
    rewrite <- length_skipn in Hm.
    destruct (IH (skipn s l) Hm) as (Hcat & Hall).
    cbn [seq map concat]. rewrite <- seq_shift, map_map.
    change (0 * s)%nat with 0%nat. cbn [skipn].
    rewrite (map_ext _ (fun k => firstn s (skipn (k * s) (skipn s l))))
      by (intro k; rewrite skipn_skipn; do 2 f_equal; cbn [Nat.mul]; lia).
    split.
    + rewrite Hcat. apply firstn_skipn.
    + constructor; [|exact Hall]. rewrite length_firstn. lia.
Qed.

Lemma rmapM_app_inv {A B} (f : A -> result B) (l1 l2 : list A) (bs : list B) :
  rmapM f (l1 ++ l2) = OK bs ->
  exists b1 b2, rmapM f l1 = OK b1 /\ rmapM f l2 = OK b2 /\ bs = b1 ++ b2.
Proof.
  revert bs; induction l1 as [|a l1 IH]; intros bs H; cbn [app rmapM] in *.
  - now exists [], bs.
  - apply rbind_OK_inv in H. destruct H as (b & Hb & H).
    apply rbind_OK_inv in H. destruct H as (bs' & Hbs & H). inversion H; subst bs.
    destruct (IH _ Hbs) as (b1 & b2 & H1 & H2 & ->).
    exists (b :: b1), b2. rewrite Hb, H1. cbn [rbind]. auto.
Qed.

Lemma rmapM_length {A B} (f : A -> result B) (l : list A) (bs : list B) :
  rmapM f l = OK bs -> length bs = length l.
Proof.
  revert bs; induction l as [|a l IH]; intros bs H; cbn [rmapM] in H.
  - now inversion H.
  - apply rbind_OK_inv in H. destruct H as (b & Hb & H).
    apply rbind_OK_inv in H. destruct H as (bs' & Hbs & H). inversion H; subst bs.
    cbn [length]. f_equal. now apply IH.
Qed.

Lemma stack0_same_size (sz : list nat) (ts : list Tensor) :
  ts <> [] -> Forall (fun t => size t = sz) ts ->
  stack0 ts = OK (mkTensor (length ts :: sz) (concat (map storage ts))).
Proof.
  intros Hne Hall. destruct ts as [|t ts]; [congruence|]. unfold stack0.
  assert (Ht : size t = sz) by now inversion Hall.
  assert (Hb : forallb (fun u => size_eqb (size u) (size t)) (t :: ts) = true).
  { apply forallb_forall. intros u Hu.
    rewrite Forall_forall in Hall. rewrite (Hall u Hu), Ht. apply size_eqb_refl. }
  rewrite Hb, Ht. reflexivity.
Qed.

Lemma gen_map_map {A B C} (f : B -> result C) (g : A -> B) (l : list A) :
  gen_map (fun a => f (g a)) l = gen_map f (map g l).
Proof.
  induction l as [|a l IH]; cbn [map gen_map]; [reflexivity|].
  destruct (f (g a)); [|reflexivity]. now rewrite IH.
Qed.

Lemma LongTensor_in_range (labels : list Z) :
  Forall (fun l => int64_range l = true) labels -> LongTensor labels = OK labels.
Proof.
  intro H. unfold LongTensor.
  assert (Hb : forallb int64_range labels = true).
  { apply forallb_forall. intros l Hl. rewrite Forall_forall in H. now apply H. }
  now rewrite Hb.
Qed.

(** Batches over consecutive runs of valid indices: nothing is lost. *)
Lemma gen_map_get_batch (data : list Sample) (sz : list nat) (s : nat)
    (cs : list (list Z)) :
  Forall (fun c => (1 <= length c <= s)%nat) cs ->
  forall samples,
  rmapM (py_index data) (concat cs) = OK samples ->
  Forall (fun smp => size (fst smp) = sz) samples ->
  Forall (fun smp => int64_range (snd smp) = true) samples ->
  exists batches,
    gen_map (get_batch data) cs = (batches, None)
    /\ length batches = length cs
    /\ concat (map snd batches) = map snd samples
    /\ concat (map (fun b => storage (fst b)) batches)
       = concat (map (fun smp => storage (fst smp)) samples)
    /\ Forall (fun b => size (fst b) = length (snd b) :: sz
                        /\ (1 <= length (snd b) <= s)%nat) batches.
Proof.
  induction 1 as [|c cs Hc _ IH]; intros samples Hs Hsz Hlong.
  - cbn in Hs. inversion Hs; subst. exists []. cbn. repeat split; constructor.
  - cbn [concat] in Hs. apply rmapM_app_inv in Hs.
    destruct Hs as (s1 & s2 & H1 & H2 & ->).
    apply Forall_app in Hsz. destruct Hsz as [Hsz1 Hsz2].
    apply Forall_app in Hlong. destruct Hlong as [Hlong1 Hlong2].
    destruct (IH _ H2 Hsz2 Hlong2) as (bs & Hg & Hlen & Hlab & Hpix & Hall).
    pose proof (rmapM_length _ _ H1) as Hl1.
    assert (Hne : map fst s1 <> []).
    { destruct s1; [cbn in Hl1; lia | discriminate]. }
    assert (Hall1 : Forall (fun t => size t = sz) (map fst s1)).
    { apply Forall_map. exact Hsz1. }
    exists ((mkTensor (length (map fst s1) :: sz) (concat (map storage (map fst s1))),
             map snd s1) :: bs).
    cbn [gen_map]. unfold get_batch at 1. rewrite H1. cbn [rbind].
    rewrite (stack0_same_size Hne Hall1). cbn [rbind].
    rewrite (@LongTensor_in_range (map snd s1))
      by (apply Forall_map; exact Hlong1).
    cbn [rbind]. rewrite Hg.
    split; [reflexivity|]. split; [cbn [length]; now rewrite Hlen|].
    split; [cbn [map concat snd]; now rewrite Hlab, map_app|].
    split.
    + cbn [map concat fst storage]. rewrite Hpix, !map_app, concat_app, map_map.
      reflexivity.
    + constructor; [|exact Hall]. cbn [fst snd size].
      rewrite !length_map. unfold Sample in *. split; [reflexivity | lia].
Qed.

(** X14. Without shuffling and with a positive batch size, a pass over
    valid indices of images of one size, whose labels fit 64-bit
    integers, yields [ceil(len(indices) / batch_size)] batches and ends
    normally; the
    labels of the batches, one after the other, are the labels of
    [data[i]] for [i] in [indices], in order, and so are the pixels: every
    index is served exactly once.  Every batch holds at least one and at
    most [batch_size] samples. *)
Theorem iterate_minibatches_covers St (shuffle_ : list Z -> M St (list Z))
    (data : list Sample) (indices : list Z) (batch_size : Z) (sz : list nat)
    (samples : list Sample) (st : St) :
  (0 < batch_size)%Z ->
  rmapM (py_index data) indices = OK samples ->
  Forall (fun smp => size (fst smp) = sz) samples ->
  Forall (fun smp => (- 2 ^ 63 <= snd smp < 2 ^ 63)%Z) samples ->
  exists batches,
    iterate_minibatches shuffle_ data indices batch_size false st
    = (OK (batches, None), st)
    /\ length batches
       = ((length indices + Z.to_nat batch_size - 1) / Z.to_nat batch_size)%nat
    /\ concat (map snd batches) = map snd samples
    /\ concat (map (fun b => storage (fst b)) batches)
       = concat (map (fun smp => storage (fst smp)) samples)
    /\ Forall (fun b => size (fst b) = length (snd b) :: sz
                        /\ (1 <= length (snd b) <= Z.to_nat batch_size)%nat) batches.
Proof.
  intros Hbs Hs Hsz Hlong.
  assert (Hlong' : Forall (fun smp : Sample => int64_range (snd smp) = true) samples).
  { eapply Forall_impl; [|exact Hlong]. cbv beta. intros smp [Hlo Hhi].
    unfold int64_range. apply andb_true_intro.
    split; [now apply Z.leb_le | now apply Z.ltb_lt]. }
  unfold iterate_minibatches, bind, ret, range_step.
  destruct (batch_size =? 0)%Z eqn:H0; [apply Z.eqb_eq in H0; lia|].
  destruct (batch_size <? 0)%Z eqn:Hneg; [apply Z.ltb_lt in Hneg; lia|].
  set (s := Z.to_nat batch_size). assert (Hspos : (0 < s)%nat) by (unfold s; lia).
  set (m := ((length indices + s - 1) / s)%nat).
  destruct (chunks_cover Hspos indices (eq_refl m)) as (Hcat & Hall).
  rewrite <- Hcat in Hs at 1.
  destruct (gen_map_get_batch data Hall Hs Hsz Hlong')
    as (batches & Hg & Hlen & Hlab & Hpix & Hb).
  exists batches.
  rewrite (gen_map_map (get_batch data) (fun start => firstn s (skipn start indices))).
  rewrite map_map, Hg.
  split; [reflexivity|]. split; [now rewrite Hlen, length_map, length_seq|].
  auto.
Qed.

Lemma iterate_minibatches_covers_witness :
  let img (v : R) := mkTensor [1; 1]%nat [v] in
  let data := [(img 10, 0%Z); (img 11, 1%Z); (img 12, 2%Z)] in
  (0 < 2)%Z
  /\ rmapM (py_index data) [2; 0; -2]%Z = OK [(img 12, 2%Z); (img 10, 0%Z); (img 11, 1%Z)]
  /\ exists batches,
       iterate_minibatches (fun l => ret l) data [2; 0; -2]%Z 2 false tt
       = (OK (batches, None), tt)
       /\ length batches = 2%nat
       /\ concat (map snd batches) = [2; 0; 1]%Z.
Proof.
  intros img data.
  assert (Hs : rmapM (py_index data) [2; 0; -2]%Z
               = OK [(img 12, 2%Z); (img 10, 0%Z); (img 11, 1%Z)]) by reflexivity.
  split; [lia|]. split; [exact Hs|].
  destruct (@iterate_minibatches_covers unit (fun l => ret l) data [2; 0; -2]%Z 2
              [1; 1]%nat _ tt ltac:(lia) Hs
              ltac:(repeat constructor)
              ltac:(repeat (apply Forall_cons; [cbn [snd]; lia|]); apply Forall_nil))
    as (batches & Hrun & Hlen & Hlab & _).
  exists batches. split; [exact Hrun|]. split; [exact Hlen | exact Hlab].
Defined.

(** X15. The edges of a pass without shuffling: a batch size of zero
    ends it with [ValueError] before any batch, a negative batch size or
    an empty list of indices ends it normally without a batch, and a
    first index outside the data ends it with [IndexError] before any
    batch. *)
Theorem iterate_minibatches_edges St (shuffle_ : list Z -> M St (list Z))
    (data : list Sample) (indices : list Z) (batch_size : Z) (st : St) :
  iterate_minibatches shuffle_ data indices 0 false st = (OK ([], Some ValueError), st)
  /\ ((batch_size < 0)%Z ->
      iterate_minibatches shuffle_ data indices batch_size false st = (OK ([], None), st))
  /\ ((batch_size <> 0)%Z ->
      iterate_minibatches shuffle_ data [] batch_size false st = (OK ([], None), st))
  /\ (forall i, (0 < batch_size)%Z ->
        (i < - Z.of_nat (length data) \/ Z.of_nat (length data) <= i)%Z ->
        iterate_minibatches shuffle_ data (i :: indices) batch_size false st
        = (OK ([], Some IndexError), st)).
Proof.
  unfold iterate_minibatches, bind, ret, range_step.
  split; [reflexivity|].
  split.
  { intro Hneg. destruct (batch_size =? 0)%Z eqn:H0; [apply Z.eqb_eq in H0; lia|].
    apply Z.ltb_lt in Hneg. now rewrite Hneg. }
  split.
  { intro Hne. destruct (batch_size =? 0)%Z eqn:H0; [apply Z.eqb_eq in H0; lia|].
    destruct (batch_size <? 0)%Z eqn:Hneg; [reflexivity|].
    apply Z.eqb_neq in H0. apply Z.ltb_ge in Hneg.
    cbn [length Nat.add]. rewrite Nat.div_small by lia.
    reflexivity. }
  intros i Hbs Hi.
  destruct (batch_size =? 0)%Z eqn:H0; [apply Z.eqb_eq in H0; lia|].
  destruct (batch_size <? 0)%Z eqn:Hneg; [apply Z.ltb_lt in Hneg; lia|].
  set (s := Z.to_nat batch_size). assert (Hspos : (0 < s)%nat) by (unfold s; lia).
  assert (Hm : exists m, ((length (i :: indices) + s - 1) / s = S m)%nat).
  { destruct ((length (i :: indices) + s - 1) / s)%nat eqn:Hq; [|now eexists].
    assert (1 <= (length (i :: indices) + s - 1) / s)%nat
      by (apply Nat.div_le_lower_bound; cbn [length]; lia).
    lia. }
  destruct Hm as (m & ->). cbn [seq map gen_map Nat.mul skipn].
  assert (Hf : firstn s (i :: indices) = i :: firstn (s - 1) indices).
  { destruct s; [lia|]. cbn [firstn]. do 2 f_equal. lia. }
  rewrite Hf. unfold get_batch. cbn [rmapM].
  assert (Hidx : py_index data i = Err IndexError).
  { unfold py_index. cbv zeta.
    destruct (i <? 0)%Z eqn:Hi0.
    - apply Z.ltb_lt in Hi0.
      assert (Hb : ((i + Z.of_nat (length data) <? 0)
                    || (Z.of_nat (length data) <=? i + Z.of_nat (length data)))%Z = true).
      { apply Bool.orb_true_iff. left. apply Z.ltb_lt. lia. }
      now rewrite Hb.
    - apply Z.ltb_ge in Hi0.
      assert (Hb : ((i <? 0) || (Z.of_nat (length data) <=? i))%Z = true).
      { apply Bool.orb_true_iff. right. apply Z.leb_le. lia. }
      now rewrite Hb. }
  rewrite Hidx. reflexivity.
Qed.

Lemma iterate_minibatches_edges_witness :
  (-3 < 0)%Z
  /\ iterate_minibatches (fun l => ret l) [] [0; 1]%Z (-3) false tt = (OK ([], None), tt)
  /\ iterate_minibatches (fun l => ret l) [] [0; 1]%Z 2 false tt
     = (OK ([], Some IndexError), tt).
Proof.
  destruct (@iterate_minibatches_edges unit (fun l => ret l) [] [0; 1]%Z (-3) tt)
    as (_ & Hneg & _ & _).
  destruct (@iterate_minibatches_edges unit (fun l => ret l) [] [1]%Z 2 tt)
    as (_ & _ & _ & Hidx).
  split; [lia|]. split; [apply Hneg; lia|].
  apply (Hidx 0%Z); cbn; lia.
Defined.
(* ================================================================= *)
(** ** The encoder of the dequantization flow *)

Lemma py_index_last {A} (l : list A) (x : A) : py_index (l ++ [x]) (-1) = OK x.
Proof.
  unfold py_index. cbv zeta. rewrite length_app. cbn [length].
  replace (-1 <? 0)%Z with true by reflexivity.
  replace (-1 + Z.of_nat (length l + 1))%Z with (Z.of_nat (length l)) by lia.
  assert (Hb : ((Z.of_nat (length l) <? 0)
                || (Z.of_nat (length l + 1) <=? Z.of_nat (length l)))%Z = false).
  { apply Bool.orb_false_iff. split; [apply Z.ltb_ge | apply Z.leb_gt]; lia. }
  rewrite Hb, Nat2Z.id. unfold index.
  rewrite nth_error_app2 by lia. now rewrite Nat.sub_diag.
Qed.

Lemma enc_width_S (i : nat) : Z.min (enc_width i * 2) 96 = enc_width (S i).
Proof.
  unfold enc_width. rewrite Nat2Z.inj_succ, Z.pow_succ_r by lia. lia.
Qed.

Lemma flat_map_ext_in {A B} (f g : A -> list B) (l : list A) :
  (forall a, In a l -> f a = g a) -> flat_map f l = flat_map g l.
Proof.
  induction l as [|a l IH]; intro H; cbn [flat_map]; [reflexivity|].
  rewrite (H a) by now left. f_equal. apply IH. intros b Hb. apply H. now right.
Qed.

Lemma encoder_down_closed (n : nat) :
  forall (k : nat) (planes : Z) (pre : list Z) (layers : list (string * EncLayer)),
  exists planes',
    encoder_down (seq k n) planes (pre ++ [enc_width k]) layers
    = OK (planes', pre ++ map enc_width (seq k (S n)),
          layers ++ flat_map (fun i =>
            [ (("down" ++ fmt_d i)%string,
               Conv2dWeightNorm (nth (i - k) (planes :: map enc_width (seq k n)) 0%Z)
                 (enc_width i) 3 (Some 2%Z) (Some 1%Z) true);
              (("elu" ++ fmt_d i)%string, ELU true);
              (("resnet" ++ fmt_d i)%string,
               ResNet (enc_width i) [enc_width i; enc_width i] [1; 1]%Z) ])
            (seq k n)).
Proof.
  induction n as [|n IH]; intros k planes pre layers.
  - exists planes. cbn [seq encoder_down map flat_map]. now rewrite app_nil_r.
  - cbn [seq encoder_down]. rewrite py_index_last. cbn [rbind]. unfold py_append.
    rewrite enc_width_S.
    destruct (IH (S k) (enc_width k) (pre ++ [enc_width k])
                ((((layers ++
                    [(("down" ++ fmt_d k)%string,
                      Conv2dWeightNorm planes (enc_width k) 3 (Some 2%Z) (Some 1%Z) true)])
                   ++ [(("elu" ++ fmt_d k)%string, ELU true)])
                  ++ [(("resnet" ++ fmt_d k)%string,
                       ResNet (enc_width k) [enc_width k; enc_width k] [1; 1]%Z)])))
      as (planes' & Hrec).
    exists planes'. rewrite Hrec. f_equal. f_equal.
    + f_equal. cbn [seq map]. rewrite <- !app_assoc. reflexivity.
    + cbn [flat_map map]. rewrite Nat.sub_diag. cbn [nth].
      rewrite <- !app_assoc. cbn [app]. do 4 f_equal.
      apply flat_map_ext_in. intros i Hi. apply in_seq in Hi.
      replace (i - k)%nat with (S (i - S k)) by lia. reflexivity.
Qed.

Lemma encoder_up_closed (levels : Z) (n : nat) :
  forall (j : nat) (planes : Z) (l : list Z) (layers : list (string * EncLayer)),
  (n <= length l)%nat ->
  encoder_up levels (seq j n) planes l layers
  = OK (nth n (planes :: rev l) 0%Z, firstn (length l - n) l,
        layers ++ flat_map (fun i =>
          [ (("up" ++ fmt_d i)%string,
             ConvTranspose2dWeightNorm (nth (i - j) (planes :: rev l) 0%Z)
               (nth (S (i - j)) (planes :: rev l) 0%Z) 3 2 1 1 true);
            (("elu" ++ fmt_d (i + Z.to_nat levels))%string, ELU true) ])
          (seq j n)).
Proof.
  induction n as [|n IH]; intros j planes l layers Hn.
  - cbn [seq encoder_up flat_map nth]. now rewrite Nat.sub_0_r, firstn_all, app_nil_r.
  - destruct (exists_last (l := l)) as (l' & o & ->).
    { intros ->. cbn in Hn. lia. }
    rewrite length_app in Hn. cbn [length] in Hn.
    cbn [seq encoder_up]. rewrite py_index_last. cbn [rbind].
    change (py_pop (l' ++ [o])) with (py_pop (py_append l' o)).
    rewrite py_pop_append. cbn [rbind]. unfold py_append.
    rewrite IH by lia. rewrite rev_unit. f_equal. f_equal.
    + f_equal. rewrite length_app. cbn [length].
      replace (length l' + 1 - S n)%nat with (length l' - n)%nat by lia.
      rewrite firstn_app.
      replace (length l' - n - length l')%nat with 0%nat by lia.
      cbn [firstn]. now rewrite app_nil_r.
    + cbn [flat_map]. rewrite Nat.sub_diag. cbn [nth].
      rewrite <- !app_assoc. cbn [app]. do 3 f_equal.
      apply flat_map_ext_in. intros i Hi. apply in_seq in Hi.
      replace (i - j)%nat with (S (i - S j)) by lia. reflexivity.
Qed.

Lemma encoder_layers_closed (levels in_channels s_channels : Z) :
  encoder_layers levels in_channels s_channels
  = OK (encoder_table (Z.to_nat levels) in_channels s_channels).
Proof.
  unfold encoder_layers, range. set (L := Z.to_nat levels).
  destruct (encoder_down_closed L 0 in_channels [s_channels] []) as (p' & Hd).
  change ([s_channels] ++ [enc_width 0]) with [s_channels; 24%Z] in Hd.
  rewrite Hd. cbn [rbind].
  rewrite seq_S, map_app, app_assoc. cbn [map Nat.add].
  change (py_pop (([s_channels] ++ map enc_width (seq 0 L)) ++ [enc_width L]))
    with (py_pop (py_append ([s_channels] ++ map enc_width (seq 0 L)) (enc_width L))).
  rewrite py_pop_append. cbn [rbind].
  destruct (exists_last (l := [s_channels] ++ map enc_width (seq 0 L)))
    as (l & planes & Hl); [discriminate|].
  assert (Hlen : length l = L).
  { apply (f_equal (@length Z)) in Hl. rewrite !length_app, length_map, length_seq in Hl.
    cbn [length] in Hl. lia. }
  rewrite Hl.
  change (py_pop (l ++ [planes])) with (py_pop (py_append l planes)).
  rewrite py_pop_append. cbn [rbind].
  rewrite encoder_up_closed by lia.
  rewrite Hlen, Nat.sub_diag. cbn [firstn length Nat.eqb negb rbind].
  assert (Hrev : planes :: rev l = rev (s_channels :: map enc_width (seq 0 L))).
  { rewrite <- rev_unit, <- Hl. reflexivity. }
  rewrite Hrev.
  assert (Hlast : nth L (rev (s_channels :: map enc_width (seq 0 L))) 0%Z = s_channels).
  { cbn [rev].
    replace L with (length (rev (map enc_width (seq 0 L)))) at 1
      by now rewrite length_rev, length_map, length_seq.
    apply nth_middle. }
  rewrite Hlast. unfold py_append, encoder_table. cbn [app]. f_equal.
  rewrite <- app_assoc. f_equal.
  - apply flat_map_ext. intro i. now rewrite Nat.sub_0_r.
  - f_equal. apply flat_map_ext. intro i. now rewrite Nat.sub_0_r.
Qed.

(** *** The keys of the encoder are distinct *)

Lemma fmt_d_inj (i j : nat) : fmt_d i = fmt_d j -> i = j.
Proof.
  unfold fmt_d. intro H.
  apply (f_equal NilEmpty.uint_of_string) in H. rewrite !NilEmpty.usu in H.
  inversion H as [H']. apply (f_equal Nat.of_uint) in H'.
  now rewrite !Unsigned.of_to in H'.
Qed.

Lemma append_inj_l (p a b : string) : (p ++ a = p ++ b)%string -> a = b.
Proof.
  induction p as [|c p IH]; cbn [String.append]; intro H; [exact H|].
  inversion H. now apply IH.
Qed.

(** Two keys differ: by their numbers when they share the prefix, by the
    first character otherwise. *)
Ltac key_neq :=
  let H := fresh "H" in
  intro H;
  first [ apply append_inj_l in H; apply fmt_d_inj in H; lia
        | cbn [String.append] in H; discriminate H ].

Lemma NoDup_flat_map {A B} (f : A -> list B) (l : list A) :
  NoDup l ->
  (forall a, In a l -> NoDup (f a)) ->
  (forall a b x, In a l -> In b l -> a <> b -> In x (f a) -> ~ In x (f b)) ->
  NoDup (flat_map f l).
Proof.
  induction 1 as [|a l Ha Hl IH]; intros Hf Hd; cbn [flat_map]; [constructor|].
  apply NoDup_app.
  - apply Hf. now left.
  - apply IH.
    + intros b Hb. apply Hf. now right.
    + intros b c x Hb Hc. apply Hd; now right.
  - intros x Hx Hin. apply in_flat_map in Hin. destruct Hin as (b & Hb & Hxb).
    apply (Hd a b x); [now left | now right | | exact Hx | exact Hxb].
    intros ->. contradiction.
Qed.

Lemma encoder_table_keys (levels : nat) (in_channels s_channels : Z) :
  NoDup (map fst (encoder_table levels in_channels s_channels)).
Proof.
  unfold encoder_table. cbv zeta. rewrite !map_app, !flat_map_concat_map, !concat_map, !map_map.
  rewrite <- !flat_map_concat_map. cbn [map fst].
  apply NoDup_app; [|apply NoDup_app|].
  - apply NoDup_flat_map; [apply seq_NoDup| |].
    + intros i _. repeat constructor; cbn [In]; intros H;
        repeat (destruct H as [H | H]; [revert H; key_neq|]); exact H.
    + intros a b x _ _ Hab Ha Hb. cbn [In] in Ha, Hb.
      repeat (destruct Ha as [Ha | Ha]; [subst x|]); [| | |exact Ha];
        repeat (destruct Hb as [Hb | Hb]; [revert Hb; key_neq|]); exact Hb.
  - apply NoDup_flat_map; [apply seq_NoDup| |].
    + intros i _. repeat constructor; cbn [In]; intros H;
        repeat (destruct H as [H | H]; [revert H; key_neq|]); exact H.
    + intros a b x _ _ Hab Ha Hb. cbn [In] in Ha, Hb.
      repeat (destruct Ha as [Ha | Ha]; [subst x|]); [| |exact Ha];
        repeat (destruct Hb as [Hb | Hb]; [revert Hb; key_neq|]); exact Hb.
  - repeat constructor. intros [].
  - intros x Hx Hin. apply in_flat_map in Hx. destruct Hx as (i & _ & Hx).
    cbn [In] in Hx, Hin. destruct Hin as [Hin | []]. subst x.
    repeat (destruct Hx as [Hx | Hx]; [revert Hx; key_neq|]). exact Hx.
  - intros x Hx Hin. apply in_flat_map in Hx. destruct Hx as (i & Hi & Hx).
    apply in_seq in Hi. apply in_app_or in Hin. destruct Hin as [Hin | Hin].
    + apply in_flat_map in Hin. destruct Hin as (j & Hj & Hin). apply in_seq in Hj.
      cbn [In] in Hx, Hin.
      repeat (destruct Hx as [Hx | Hx]; [subst x|]); [| | |exact Hx];
        repeat (destruct Hin as [Hin | Hin]; [revert Hin; key_neq|]); exact Hin.
    + cbn [In] in Hx, Hin. destruct Hin as [Hin | []]. subst x.
      repeat (destruct Hx as [Hx | Hx]; [revert Hx; key_neq|]). exact Hx.
Qed.

Section OrderedDict.
Context {V : Type}.

Lemma dict_set_fresh (k : string) (v : V) (d : list (string * V)) :
  ~ In k (map fst d) -> dict_set k v d = d ++ [(k, v)].
Proof.
  induction d as [|[k' v'] d IH]; intro H; cbn [dict_set app]; [reflexivity|].
  cbn [map fst In] in H.
  destruct (String.eqb k' k) eqn:Hk.
  - apply String.eqb_eq in Hk. exfalso. apply H. now left.
  - f_equal. apply IH. intro Hin. apply H. now right.
Qed.

Lemma ordered_dict_distinct (items : list (string * V)) :
  NoDup (map fst items) -> ordered_dict items = items.
Proof.
  unfold ordered_dict.
  assert (Hgen : forall (items acc : list (string * V)), NoDup (map fst (acc ++ items)) ->
            fold_left (fun d kv => dict_set (fst kv) (snd kv) d) items acc = acc ++ items).
  { clear items. induction items as [|[k v] items IH]; intros acc H; cbn [fold_left].
    - now rewrite app_nil_r.
    - cbn [fst snd]. rewrite dict_set_fresh.
      + rewrite IH; rewrite <- app_assoc; [reflexivity | exact H].
      + rewrite map_app in H. apply NoDup_remove_2 in H.
        intro Hin. apply H. apply in_or_app. now left. }
  intro H. apply (Hgen items []). exact H.
Qed.

End OrderedDict.

Lemma encoder_table_length (levels : nat) (in_channels s_channels : Z) :
  length (encoder_table levels in_channels s_channels) = (5 * levels + 1)%nat.
Proof.
  unfold encoder_table. cbv zeta. rewrite !length_app.
  assert (H3 : forall (f : nat -> list (string * EncLayer)) n l,
            (forall i, length (f i) = n) -> length (flat_map f l) = (n * length l)%nat).
  { intros f n l Hf. induction l as [|a l IH]; cbn [flat_map length]; [lia|].
    rewrite length_app, Hf, IH. lia. }
  rewrite (H3 _ 3%nat) by reflexivity. rewrite (H3 _ 2%nat) by reflexivity.
  rewrite length_seq. cbn [length]. lia.
Qed.

(** X17. The two loops of [DeQuantFlow.__init__] never fail, whatever
    [levels], and build the encoder of an hourglass: [levels]
    down-samplings from [in_channels] through the widths 24, 48, 96, 96,
    ..., each followed by an ELU and a residual network of its width; the
    up-samplings back through the same widths in reverse order to
    [s_channels], each followed by an ELU; and a final 1 x 1 convolution
    over [s_channels] channels.  These are [5 * levels + 1] layers; their
    keys are pairwise distinct, so the [OrderedDict] keeps every layer in
    its place; the list [out_planes] is empty at the assertion. *)
Theorem encoder_layers_hourglass (levels in_channels s_channels : Z) :
  encoder_layers levels in_channels s_channels
  = OK (encoder_table (Z.to_nat levels) in_channels s_channels)
  /\ ordered_dict (encoder_table (Z.to_nat levels) in_channels s_channels)
     = encoder_table (Z.to_nat levels) in_channels s_channels
  /\ NoDup (map fst (encoder_table (Z.to_nat levels) in_channels s_channels))
  /\ length (encoder_table (Z.to_nat levels) in_channels s_channels)
     = (5 * Z.to_nat levels + 1)%nat.
Proof.
  split; [apply encoder_layers_closed|].
  split; [apply ordered_dict_distinct, encoder_table_keys|].
  split; [apply encoder_table_keys | apply encoder_table_length].
Qed.
(* ================================================================= *)
(** ** The dequantization flow *)

Lemma map2_opp_swap (l1 l2 : list R) :
  length l1 = length l2 ->
  map2 Rplus (map Ropp l2) (map Ropp l1) = map Ropp (map2 Rplus l1 l2).
Proof.
  revert l2; induction l1 as [|a l1 IH]; intros [|b l2] H; simpl in *;
    try discriminate; [reflexivity|].
  f_equal; [lra | apply IH; congruence].
Qed.

Lemma tadd_tneg_swap (a b c : Tensor) :
  size a = size b ->
  tadd a b = OK c -> tadd (tneg b) (tneg a) = OK (tneg c).
Proof.
  intros Hs H. apply (ebinop_OK_inv _ _ _ Hs) in H. destruct H as (Hl & ->).
  unfold tadd. rewrite ebinop_OK.
  - unfold tneg. cbn [size storage]. rewrite map2_opp_swap by exact Hl.
    now rewrite Hs.
  - cbn [tneg size]. congruence.
  - cbn [tneg storage]. rewrite !length_map. congruence.
Qed.

Section DeQuantLemmas.
Context {St : Type}.
Variable E : Collab St.
Variable SigmoidFlow : bool -> result (Flow St).
Variable layer_call : path -> string -> EncLayer -> Cond -> M St Cond.
Variable layer_init : path -> string -> EncLayer -> Cond -> R -> M St Cond.

Lemma Sequential_forward_pure (name : path) (layers : list (string * EncLayer)) :
  layers_pure layer_call ->
  forall s st r st', Sequential_forward layer_call name layers s st = (r, st') -> st' = st.
Proof.
  intro Hpure. induction layers as [|[key layer] layers IH]; intros s st r st' H;
    cbn [Sequential_forward] in H.
  - unfold ret in H. now inversion H.
  - unfold bind in H.
    destruct (layer_call name key layer s st) as [[out|e] st1] eqn:Hc.
    + pose proof (Hpure _ _ _ _ _ _ _ Hc) as ->. exact (IH _ _ _ _ H).
    + pose proof (Hpure _ _ _ _ _ _ _ Hc) as ->. now inversion H.
Qed.

Lemma DeQuantFlow_new_inv (name : path) (levels : Z) (num_steps : list NumSteps)
    (in_channels : Z) (kernel_size factors : list Z) (hidden_channels : HiddenChannels)
    (s_channels : Z) (scale : bool) (dropout : R) (bottom : bool) (self : DeQuantFlow) :
  DeQuantFlow_new E SigmoidFlow name levels num_steps in_channels kernel_size factors
    hidden_channels s_channels scale dropout bottom = OK self ->
  (exists h, hidden_channels = HList h
     /\ MaCow_new E (name ++ [Attr "macow"])
          (mkMaCowArgs levels num_steps in_channels kernel_size factors h s_channels
             scale true false bottom "conv" None 1 true dropout) = OK (macow self))
  /\ SigmoidFlow false = OK (dq_sigmoid self)
  /\ encoder self
     = (if (s_channels >? 0)%Z
        then Some (encoder_table (Z.to_nat levels) in_channels s_channels) else None)
  /\ dq_name self = name.
Proof.
  unfold DeQuantFlow_new. intro H.
  apply rbind_OK_inv in H. destruct H as (m & Hm & H).
  apply rbind_OK_inv in H. destruct H as (sg & Hsg & H).
  assert (Hh : exists h, hidden_channels = HList h
             /\ MaCow_new E (name ++ [Attr "macow"])
                  (mkMaCowArgs levels num_steps in_channels kernel_size factors h
                     s_channels scale true false bottom "conv" None 1 true dropout) = OK m).
  { destruct hidden_channels as [n|h]; cbn [MaCow_of_DeQuantFlow] in Hm.
    - exfalso. revert Hm.
      repeat match goal with
             | |- context [if ?b then _ else _] => destruct b
             end; discriminate.
    - now exists h. }
  destruct (s_channels >? 0)%Z.
  - rewrite encoder_layers_closed in H. cbn [rbind] in H.
    rewrite ordered_dict_distinct in H by apply encoder_table_keys.
    inversion H; subst self. cbn [macow dq_sigmoid encoder dq_name]. auto.
  - inversion H; subst self. cbn [macow dq_sigmoid encoder dq_name]. auto.
Qed.

Lemma MaCow_new_levels (name : path) (a : MaCowArgs) (m : MaCow (St:=St)) :
  MaCow_new E name a = OK m ->
  (1 < arg_levels a)%Z /\ arg_levels a = Z.of_nat (length (arg_hidden_channels a)).
Proof.
  unfold MaCow_new. cbv zeta. intro H.
  destruct (arg_levels a >? 1)%Z eqn:H1; cbn [negb] in H; [|discriminate].
  destruct (negb (length (arg_kernel_size a) =? 2)%nat); [discriminate|].
  destruct (negb (arg_levels a =? Z.of_nat (length (arg_num_steps a)))%Z); [discriminate|].
  match type of H with
  | (if ?b then _ else _) = _ => destruct b; [discriminate|]
  end.
  destruct (arg_levels a =? Z.of_nat (length (arg_hidden_channels a)))%Z eqn:H2;
    cbn [negb] in H; [|discriminate].
  split; [lia | now apply Z.eqb_eq].
Qed.

Lemma DeQuantFlow_inverse_pair (name : path) (levels : Z) (num_steps : list NumSteps)
    (in_channels : Z) (kernel_size factors : list Z) (hidden_channels : HiddenChannels)
    (s_channels : Z) (scale : bool) (dropout : R) (bottom : bool) (self : DeQuantFlow) :
  collab_ok E ->
  (forall f, SigmoidFlow false = OK f -> flow_ok f) ->
  layers_pure layer_call ->
  DeQuantFlow_new E SigmoidFlow name levels num_steps in_channels kernel_size factors
    hidden_channels s_channels scale dropout bottom = OK self ->
  inverse_pair (DeQuantFlow_forward E layer_call self)
               (DeQuantFlow_backward E layer_call self).
Proof.
  intros HE Hsig Hpure Hnew.
  destruct (DeQuantFlow_new_inv _ _ _ _ _ _ _ _ _ _ _ Hnew)
    as ((h & _ & Hm) & Hsg & _ & _).
  pose proof (@MaCow_new_ok St E HE _ _ _ Hm) as Hmok.
  pose proof (Hsig _ Hsg) as Hsok.
  intros x s st y ld st' Hwf H.
  unfold DeQuantFlow_forward in H.
  apply bind_OK_inv in H. destruct H as (s' & st1 & Henc & H).
  assert (Hst1 : st1 = st).
  { destruct (encoder self) as [layers|].
    - exact (@Sequential_forward_pure _ _ Hpure _ _ _ _ Henc).
    - unfold ret in Henc. now inversion Henc. }
  subst st1.
  apply bind_OK_inv in H. destruct H as ([u ld1] & st2 & Hfm & H).
  destruct (Hmok _ _ _ _ _ _ Hwf Hfm) as (-> & Hszu & Hwfu & (b & Hb & Hv1) & Hbm).
  apply bind_OK_inv in H. destruct H as ([y' ld2] & st3 & Hfs & H).
  destruct (Hsok _ _ _ _ _ _ Hwfu Hfs) as (-> & Hszy & Hwfy & (b' & Hb' & Hv2) & Hbs).
  apply bind_OK_inv in H. destruct H as (ld' & st4 & Hadd & H).
  apply lift_OK_inv in Hadd. destruct Hadd as [Hadd ->].
  unfold ret in H. inversion H; subst. clear H.
  assert (Hbb : b' = b).
  { unfold size_at in Hb, Hb'. rewrite Hszu in Hb'. rewrite Hb in Hb'. now inversion Hb'. }
  subst b'.
  assert (Hs12 : size ld1 = size ld2)
    by (destruct Hv1 as [Hs1 _], Hv2 as [Hs2 _]; congruence).
  split; [reflexivity|]. split; [congruence|]. split; [exact Hwfy|].
  split.
  { exists b. split; [exact Hb|].
    destruct (ebinop_shape Hs12 Hadd) as [Hs Hl]. destruct Hv1 as [Hs1 Hl1].
    split; congruence. }
  unfold DeQuantFlow_backward, bind. rewrite Henc, Hbs, Hbm.
  unfold lift. rewrite (@tadd_tneg_swap _ _ _ Hs12 Hadd). reflexivity.
Qed.

End DeQuantLemmas.

(** X18. A dequantization flow that [DeQuantFlow.__init__] built from
    invertible elementary flows, an invertible sigmoid flow and encoder
    layers that leave the store alone undoes itself: when [forward] returns
    [(y, logdet)] on a well-formed [x] with the conditioning [s], it has
    left the store alone, [y] has the size of [x], and [backward] on [y]
    and [s] returns exactly [x] with the log-determinant [-logdet]. *)
Theorem DeQuantFlow_round_trip St (E : Collab St) (SigmoidFlow : bool -> result (Flow St))
    (layer_call : path -> string -> EncLayer -> Cond -> M St Cond)
    (name : path) (levels : Z) (num_steps : list NumSteps)
    (in_channels : Z) (kernel_size factors : list Z) (hidden_channels : HiddenChannels)
    (s_channels : Z) (scale : bool) (dropout : R) (bottom : bool) (self : DeQuantFlow)
    (x : Tensor) (s : Cond) (st : St) (y ld : Tensor) (st' : St) :
  collab_ok E ->
  (forall f, SigmoidFlow false = OK f -> flow_ok f) ->
  layers_pure layer_call ->
  DeQuantFlow_new E SigmoidFlow name levels num_steps in_channels kernel_size factors
    hidden_channels s_channels scale dropout bottom = OK self ->
  wf x ->
  DeQuantFlow_forward E layer_call self x s st = (OK (y, ld), st') ->
  st' = st /\ size y = size x
  /\ DeQuantFlow_backward E layer_call self y s st = (OK (x, tneg ld), st).
Proof.
  intros HE Hsig Hpure Hnew Hwf H.
  pose proof (@DeQuantFlow_inverse_pair St E SigmoidFlow layer_call name levels num_steps
                in_channels kernel_size factors hidden_channels s_channels scale dropout
                bottom self HE Hsig Hpure Hnew) as Hok.
  destruct (Hok _ _ _ _ _ _ Hwf H) as (Hst & Hsz & _ & _ & Hb). auto.
Qed.

Lemma DeQuantFlow_round_trip_witness :
  collab_ok example_collab
  /\ (forall f, small_sigmoid false = OK f -> flow_ok f)
  /\ layers_pure add_one_layer
  /\ DeQuantFlow_new example_collab small_sigmoid [] 3 [NInt 1; NList [1]%Z; NInt 1] 1
       [3; 3]%Z [2]%Z (HList [8; 8; 8]%Z) 1 true 0.0 true = OK small_dequant
  /\ wf small_image
  /\ exists y ld,
       DeQuantFlow_forward example_collab add_one_layer small_dequant small_image
         (CTensor small_image) tt = (OK (y, ld), tt)
       /\ DeQuantFlow_backward example_collab add_one_layer small_dequant y
            (CTensor small_image) tt = (OK (small_image, tneg ld), tt).
Proof.
  assert (Hsig : forall f, small_sigmoid false = OK f -> flow_ok f).
  { intros f Hf. inversion Hf. apply channel_flow_ok. }
  assert (Hpure : layers_pure add_one_layer).
  { intros name key layer s [] r [] _. reflexivity. }
  split; [exact example_collab_ok|]. split; [exact Hsig|]. split; [exact Hpure|].
  split; [reflexivity|]. split; [reflexivity|].
  eexists. eexists. split; [reflexivity|].
  exact (proj2 (proj2 (@DeQuantFlow_round_trip unit example_collab small_sigmoid
                         add_one_layer [] 3 [NInt 1; NList [1]%Z; NInt 1] 1 [3; 3]%Z [2]%Z
                         (HList [8; 8; 8]%Z) 1 true 0.0 true small_dequant small_image
                         (CTensor small_image) tt _ _ tt
                         example_collab_ok Hsig Hpure eq_refl eq_refl eq_refl))).
Defined.

(** X19. When [DeQuantFlow.__init__] returns, [hidden_channels] was a
    list of [levels] entries and [levels > 1]: with an integer, as the
    default 512, the constructor of the pyramid raises at
    [len(hidden_channels)].  The flow then holds the pyramid in forward
    mode with [prior_scale=True], the sigmoid flow in forward mode, and as
    encoder [None] when [s_channels <= 0] and the [5 * levels + 1] layers
    of the hourglass otherwise; it is itself in forward mode. *)
Theorem DeQuantFlow_new_outcome St (E : Collab St)
    (SigmoidFlow : bool -> result (Flow St))
    (layer_call : path -> string -> EncLayer -> Cond -> M St Cond)
    (layer_init : path -> string -> EncLayer -> Cond -> R -> M St Cond)
    (name : path) (levels : Z) (num_steps : list NumSteps)
    (in_channels : Z) (kernel_size factors : list Z) (hidden_channels : HiddenChannels)
    (s_channels : Z) (scale : bool) (dropout : R) (bottom : bool) (self : DeQuantFlow) :
  DeQuantFlow_new E SigmoidFlow name levels num_steps in_channels kernel_size factors
    hidden_channels s_channels scale dropout bottom = OK self ->
  (exists h, hidden_channels = HList h
     /\ levels = Z.of_nat (length h)
     /\ MaCow_new E (name ++ [Attr "macow"])
          (mkMaCowArgs levels num_steps in_channels kernel_size factors h s_channels
             scale true false bottom "conv" None 1 true dropout) = OK (macow self))
  /\ (1 < levels)%Z
  /\ SigmoidFlow false = OK (dq_sigmoid self)
  /\ encoder self
     = (if (s_channels >? 0)%Z
        then Some (encoder_table (Z.to_nat levels) in_channels s_channels) else None)
  /\ (forall layers, encoder self = Some layers ->
        length layers = (5 * Z.to_nat levels + 1)%nat)
  /\ inverse (DeQuantFlow_flow E layer_call layer_init self) = false.
Proof.
  intro Hnew.
  destruct (@DeQuantFlow_new_inv St E SigmoidFlow name levels num_steps in_channels
              kernel_size factors hidden_channels s_channels scale dropout bottom self Hnew)
    as ((h & Hh & Hm) & Hsg & Henc & _).
  destruct (@MaCow_new_levels St E _ _ _ Hm) as [Hl Hlen]. cbn [arg_levels arg_hidden_channels] in *.
  split; [now exists h|]. split; [exact Hl|]. split; [exact Hsg|].
  split; [exact Henc|]. split; [|reflexivity].
  intros layers Hlayers. rewrite Henc in Hlayers.
  destruct (s_channels >? 0)%Z; [|discriminate].
  inversion Hlayers. apply encoder_table_length.
Qed.

Lemma DeQuantFlow_new_outcome_witness :
  DeQuantFlow_new example_collab small_sigmoid [] 3 [NInt 1; NList [1]%Z; NInt 1] 1
    [3; 3]%Z [2]%Z (HList [8; 8; 8]%Z) 1 true 0.0 true = OK small_dequant
  /\ encoder small_dequant = Some (encoder_table 3 1 1)
  /\ (forall layers, encoder small_dequant = Some layers -> length layers = 16%nat).
Proof.
  split; [reflexivity|].
  destruct (@DeQuantFlow_new_outcome unit example_collab small_sigmoid add_one_layer
              same_layer_init [] 3 [NInt 1; NList [1]%Z; NInt 1] 1 [3; 3]%Z
              [2]%Z (HList [8; 8; 8]%Z) 1 true 0.0 true small_dequant eq_refl)
    as (_ & _ & _ & Henc & Hlen & _).
  split; [exact Henc | exact Hlen].
Defined.
